(** * POCSAG encoder of the UV-K5 firmware (app/pocsag.c, app/pocsag.h)

    A shallow embedding of the codeword encoder, the text packer, the
    transmission assembler, the two length calculators and the PCM
    synthesizer, followed by the properties proved about them.

    Integer model.  The firmware is built for the radio's 32-bit ARM core:
    [uint32_t] and [size_t] are 32 bits wide and their arithmetic wraps
    modulo 2^32, which [u32] writes out.  C leaves the overflow of signed
    [int] arithmetic undefined; the build for this core computes it in
    two's complement, which [s32] writes out where the code multiplies and
    adds [int] values that can leave the range, and the theorems that need
    the exact value assume that it stays within [INT_MAX].  A C string is
    a [string]: the bytes in memory from the pointer on, read up to the
    first NUL byte (the end of the [string] stands for the terminator when
    no NUL occurs before). *)

From Stdlib Require Import ZArith List Lia Bool String Ascii.
Import ListNotations.

Local Open Scope Z_scope.

(** ** Constants of pocsag.h *)

Definition SYNC : Z := 0x7CD215D8.
Definition IDLE : Z := 0x7A89C197.
Definition FRAME_SIZE : Z := 2.
Definition BATCH_SIZE : Z := 16.
Definition PREAMBLE_LENGTH : Z := 576.
Definition FLAG_ADDRESS : Z := 0x000000.
Definition FLAG_MESSAGE : Z := 0x100000.
Definition FLAG_TEXT_DATA : Z := 0x3.
Definition TEXT_BITS_PER_WORD : Z := 20.
Definition TEXT_BITS_PER_CHAR : Z := 7.
Definition CRC_BITS : Z := 10.
Definition CRC_GENERATOR : Z := 1897. (* 0b11101101001 *)
Definition SYMRATE : Z := 38400.
Definition INT_MAX : Z := 2147483647.

(** ** Machine integers *)

(** Reduction of a value to an unsigned 32-bit word. *)
Definition u32 (x : Z) : Z := x mod 2 ^ 32.

(** Reduction of a value to a signed 32-bit [int], in two's complement. *)
Definition s32 (x : Z) : Z := (x + 2 ^ 31) mod 2 ^ 32 - 2 ^ 31.

(** ** crc *)

(** The [for] loop of [crc]: [n] iterations are left, [column] is the loop
    counter, [msg] and [denominator] the two locals. *)
Fixpoint crc_loop (n : nat) (column msg denominator : Z) : Z :=
  match n with
  | O => msg
  | S n' =>
      let msgBit := Z.land (Z.shiftr msg (30 - column)) 1 in
      let msg' := if msgBit =? 0 then msg else Z.lxor msg denominator in
      crc_loop n' (column + 1) msg' (Z.shiftr denominator 1)
  end.

(** The long division itself: the denominator starts aligned with bit 30
    and the loop runs for the columns 0 to 20. *)
Definition crc_divide (msg : Z) : Z :=
  crc_loop 21 0 msg (u32 (Z.shiftl CRC_GENERATOR 20)).

Definition crc (inputMsg : Z) : Z :=
  Z.land (crc_divide (u32 (Z.shiftl inputMsg CRC_BITS))) 0x3FF.

(** ** parity *)

Fixpoint parity_loop (n : nat) (p x : Z) : Z :=
  match n with
  | O => p
  | S n' => parity_loop n' (Z.lxor p (Z.land x 1)) (Z.shiftr x 1)
  end.

Definition parity (x : Z) : Z := parity_loop 32 0 x.

(** ** encodeCodeword *)

Definition encodeCodeword (msg : Z) : Z :=
  let fullCRC := Z.lor (u32 (Z.shiftl msg CRC_BITS)) (crc msg) in
  let p := parity fullCRC in
  Z.lor (u32 (Z.shiftl fullCRC 1)) p.

(** Number of set bits among the low [n] bits of [x]. *)
Definition popcount (n : nat) (x : Z) : nat :=
  List.length (filter (fun i => Z.testbit x (Z.of_nat i)) (seq 0 n)).

(** ** encodeASCII *)

(** The locals of [encodeASCII] that live across loop iterations. *)
Record packer : Type := mkPacker {
  currentWord : Z;
  currentNumBits : Z;
  wordPosition : Z
}.

(** Stores the finished word and advances the batch position, inserting a
    SYNC word when the batch is full (the block that appears both inside
    the bit loop and after the string).  Returns the words stored and the
    new [wordPosition]. *)
Definition writeWord (word position : Z) : list Z * Z :=
  let w := encodeCodeword (Z.lor word FLAG_MESSAGE) in
  let position' := u32 (position + 1) in
  if position' =? BATCH_SIZE then ([w; SYNC], 0) else ([w], position').

(** One iteration of the bit loop, for bit [i] of the character [c]. *)
Definition pushBit (c i : Z) (st : packer) : list Z * packer :=
  let word := Z.lor (u32 (Z.shiftl (currentWord st) 1))
                    (Z.land (Z.shiftr c i) 1) in
  let numBits := u32 (currentNumBits st + 1) in
  if numBits =? TEXT_BITS_PER_WORD then
    let (ws, position) := writeWord word (wordPosition st) in
    (ws, mkPacker 0 0 position)
  else ([], mkPacker word numBits (wordPosition st)).

(** The [for] loop over the bits of one character. *)
Fixpoint encodeChar (n : nat) (i c : Z) (st : packer) : list Z * packer :=
  match n with
  | O => ([], st)
  | S n' =>
      let (ws, st') := pushBit c i st in
      let (ws', st'') := encodeChar n' (i + 1) c st' in
      (ws ++ ws', st'')
  end.

(** The byte a [char] holds, read as [unsigned char]. *)
Definition byte_of (ch : ascii) : Z := Z.of_N (N_of_ascii ch).

(** The [while] loop over the characters, up to the terminating NUL. *)
Fixpoint encodeASCII_loop (str : string) (st : packer) : list Z * packer :=
  match str with
  | EmptyString => ([], st)
  | String ch rest =>
      let c := byte_of ch in
      if c =? 0 then ([], st)
      else
        let (ws, st') := encodeChar (Z.to_nat TEXT_BITS_PER_CHAR) 0 c st in
        let (ws', st'') := encodeASCII_loop rest st' in
        (ws ++ ws', st'')
  end.

(** [encodeASCII] returns the words it stored through [out], in order; every
    store is paired with [numWordsWritten++], so the count the C function
    returns is the length of this list. *)
Definition encodeASCII (initial_offset : Z) (str : string) : list Z :=
  let (ws, st) := encodeASCII_loop str (mkPacker 0 0 initial_offset) in
  if 0 <? currentNumBits st then
    let word := u32 (Z.shiftl (currentWord st) (20 - currentNumBits st)) in
    ws ++ fst (writeWord word (wordPosition st))
  else ws.

(** ** addressOffset, encodeTransmission *)

Definition addressOffset (address : Z) : Z :=
  u32 (Z.land address 0x7 * FRAME_SIZE).

(** The payload of the address codeword. *)
Definition addressPayload (address : Z) : Z :=
  Z.lor (Z.shiftl (Z.shiftr address 3) 2) FLAG_TEXT_DATA.

(** The words stored from [start] up to and including the terminating
    IDLE word, that is, before the final padding. *)
Definition transmissionBody (address : Z) (message : string) : list Z :=
  let prefixLength := addressOffset (u32 address) in
  [SYNC]
  ++ repeat IDLE (Z.to_nat prefixLength)
  ++ [encodeCodeword (u32 (addressPayload address))]
  ++ encodeASCII (u32 (addressOffset (u32 address) + 1)) message
  ++ [IDLE].

(** The number of padding words, from the count [written] of the words
    stored since [start]. *)
Definition paddingLength (written : Z) : Z :=
  u32 (u32 (BATCH_SIZE + 1) - u32 (written mod u32 (BATCH_SIZE + 1))).

(** The words [encodeTransmission] stores through [out], in order. *)
Definition encodeTransmission (address : Z) (message : string) : list Z :=
  let preamble := repeat 0xAAAAAAAA (Z.to_nat (PREAMBLE_LENGTH / 32)) in
  let body := transmissionBody address message in
  let written := u32 (Z.of_nat (List.length body)) in
  let padding := paddingLength written in
  preamble ++ body ++ repeat IDLE (Z.to_nat padding).

(** ** textMessageLength, pcmTransmissionLength *)

(** [strlen] of the C library, with which the caller computes [numChars]. *)
Fixpoint strlen (s : string) : Z :=
  match s with
  | EmptyString => 0
  | String ch rest => if byte_of ch =? 0 then 0 else 1 + strlen rest
  end.

Definition textMessageLength (address numChars : Z) : Z :=
  let numWords := 0 in
  let numWords := u32 (numWords + addressOffset (u32 address)) in
  let numWords := u32 (numWords + 1) in
  let numWords :=
    u32 (numWords
         + u32 (s32 (s32 (numChars * TEXT_BITS_PER_CHAR)
                     + (TEXT_BITS_PER_WORD - 1))
                  ÷ TEXT_BITS_PER_WORD)) in
  let numWords := u32 (numWords + 1) in
  let numWords :=
    u32 (numWords + u32 (BATCH_SIZE - numWords mod BATCH_SIZE)) in
  let numWords := u32 (numWords + numWords / BATCH_SIZE) in
  let numWords := u32 (numWords + PREAMBLE_LENGTH / 32) in
  numWords.

Definition pcmTransmissionLength
    (sampleRate baudRate transmissionLength : Z) : Z :=
  u32 (u32 (u32 (u32 (transmissionLength * 32) * sampleRate) / baudRate) * 2).

(** ** pcmEncodeTransmission *)

(** Memory accesses can fail: [None] stands for an access outside the
    buffer it goes through. *)
Definition bind {A B : Type} (m : option A) (k : A -> option B) : option B :=
  match m with
  | Some a => k a
  | None => None
  end.

Notation "x <- m ;; k" := (bind m (fun x => k))
  (at level 61, m at next level, right associativity).

(** The two amplitudes, [32767 / 2] and [-32767 / 2] in C. *)
Definition sampleOf (bit : Z) : Z :=
  if bit =? 0 then 32767 ÷ 2 else (-32767) ÷ 2.

(** The loop over the 32 bits of one word; each bit is stored
    [repeatsPerBit] times. *)
Fixpoint bitLoop (n : nat) (bitNum repeatsPerBit val : Z) : list Z :=
  match n with
  | O => []
  | S n' =>
      let bit := Z.land (Z.shiftr val (31 - bitNum)) 1 in
      repeat (sampleOf bit) (Z.to_nat repeatsPerBit)
      ++ bitLoop n' (bitNum + 1) repeatsPerBit val
  end.

(** The loop over the words of the transmission; the result is the
    sequence of samples stored through [psamples]. *)
Fixpoint wordLoop (n : nat) (i repeatsPerBit : Z) (transmission : list Z)
  : option (list Z) :=
  match n with
  | O => Some []
  | S n' =>
      val <- nth_error transmission (Z.to_nat i) ;;
      rest <- wordLoop n' (i + 1) repeatsPerBit transmission ;;
      Some (bitLoop 32 0 repeatsPerBit val ++ rest)
  end.

(** The index into [samples] that the resampling loop reads at byte
    offset [i] of the output. *)
Definition readIndex (sampleRate i : Z) : Z :=
  u32 (i / 2 * SYMRATE) / sampleRate.

(** The resampling loop: [i] advances by 2 and two bytes are stored per
    iteration. *)
Fixpoint resampleLoop (n : nat) (i sampleRate : Z) (samples : list Z)
  : option (list Z) :=
  match n with
  | O => Some []
  | S n' =>
      inSample <- nth_error samples (Z.to_nat (readIndex sampleRate i)) ;;
      rest <- resampleLoop n' (i + 2) sampleRate samples ;;
      Some (Z.land inSample 0xFF :: Z.land (Z.shiftr inSample 8) 0xFF :: rest)
  end.

(** The number of [int16_t] samples the [malloc] call makes room for. *)
Definition allocatedSamples (baudRate transmissionLength : Z) : Z :=
  let repeatsPerBit := SYMRATE / baudRate in
  u32 (u32 (u32 (2 * transmissionLength) * 32) * repeatsPerBit) / 2.

(** The bytes [pcmEncodeTransmission] stores through [out], in order. *)
Definition pcmEncodeTransmission
    (sampleRate baudRate : Z) (transmission : list Z)
    (transmissionLength : Z) : option (list Z) :=
  let repeatsPerBit := SYMRATE / baudRate in
  samples <- wordLoop (Z.to_nat transmissionLength) 0 repeatsPerBit
                      transmission ;;
  if allocatedSamples baudRate transmissionLength
       <? Z.of_nat (List.length samples)
  then None
  else
    let outputSize :=
      pcmTransmissionLength sampleRate baudRate transmissionLength in
    resampleLoop (Z.to_nat ((outputSize + 1) / 2)) 0 sampleRate samples.

(** ** POCSAG_Transmit *)

(** Further constants of pocsag.h, and the size of the line buffer. *)
Definition SAMPLE_RATE : Z := 22050.
Definition BAUD_RATE : Z := 512.
Definition MIN_DELAY : Z := 1.
Definition MAX_DELAY : Z := 10.
Definition LINE_SIZE : Z := 65536.

(** The C string a buffer holds: its bytes up to the first NUL. *)
Fixpoint cstring (s : string) : string :=
  match s with
  | EmptyString => EmptyString
  | String ch rest =>
      if byte_of ch =? 0 then EmptyString else String ch (cstring rest)
  end.

(** [line[line_length - 1]], for a [line] that is not empty. *)
Fixpoint lastChar (s : string) : option ascii :=
  match s with
  | EmptyString => None
  | String ch EmptyString => Some ch
  | String _ rest => lastChar rest
  end.

(** [line_length--; line[line_length] = 0]. *)
Fixpoint dropLast (s : string) : string :=
  match s with
  | EmptyString => EmptyString
  | String _ EmptyString => EmptyString
  | String ch rest => String ch (dropLast rest)
  end.

(** Whether the last character of [s] is the one with the code [c]. *)
Definition endsWith (c : Z) (s : string) : bool :=
  match lastChar s with
  | Some ch => byte_of ch =? c
  | None => false
  end.

(** The search for the colon: [n] iterations are left of the
    [sizeof(line)] the loop allows, [i] is the index, [s] the string from
    [line + i] on.  [None] is the malformed line, where the terminator is
    met first; when the iterations run out [colonIndex] still holds 0. *)
Fixpoint colonLoop (n : nat) (i : Z) (s : string) : option Z :=
  match n with
  | O => Some 0
  | S n' =>
      match s with
      | EmptyString => None
      | String ch rest =>
          if byte_of ch =? 58 then Some i else colonLoop n' (i + 1) rest
      end
  end.

(** The string from [s + n] on. *)
Fixpoint advance (n : nat) (s : string) : string :=
  match n, s with
  | O, _ => s
  | S n', String _ rest => advance n' rest
  | S _, EmptyString => EmptyString
  end.

(** What one pass of the loop does with the line it read. *)
Inductive lineResult : Type :=
  | EndOfInput                                   (* return 0 *)
  | SkipLine                                     (* continue *)
  | MalformedLine                                (* "Malformed Line!", 1 *)
  | AddressExceeds (address : Z)                 (* "Address exceeds", 1 *)
  | Transmit (address : Z) (message : string).

Section Driver.

(** [strtol (line, NULL, 10)] of the C library. *)
Variable strtol : string -> Z.

(** The line with a trailing newline and then a trailing carriage return
    taken off, or the way the loop leaves before the search for the
    colon. *)
Definition stripLine (line : string) : lineResult + string :=
  let line := cstring line in
  if strlen line =? 0 then inl EndOfInput
  else
    let afterNewline :=
      if endsWith 10 line then
        let line' := dropLast line in
        if strlen line' =? 0 then inl SkipLine else inr line'
      else inr line in
    match afterNewline with
    | inl r => inl r
    | inr line =>
        if endsWith 13 line then
          let line' := dropLast line in
          if strlen line' =? 0 then inl SkipLine else inr line'
        else inr line
    end.

(** The loop body up to the call of the encoder; [None] is the end of the
    input, where [fgets] returns [NULL]. *)
Definition processLine (input : option string) : lineResult :=
  match input with
  | None => EndOfInput
  | Some line =>
      match stripLine line with
      | inl r => r
      | inr line =>
          match colonLoop (Z.to_nat LINE_SIZE) 0 line with
          | None => MalformedLine
          | Some colonIndex =>
              let address := u32 (strtol line) in
              if 2097151 <? address then AddressExceeds address
              else Transmit address (advance (Z.to_nat (colonIndex + 1)) line)
          end
      end
  end.

End Driver.

(** The encoding and synthesis of one message as the loop body does it,
    with the two buffers it allocates: the result is the [pcm] buffer
    handed to [fwrite], [None] when a buffer is overrun or read where
    nothing was stored. *)
Definition synthesize (address : Z) (message : string) : option (list Z) :=
  let messageLength := textMessageLength address (strlen message) in
  let transmission := encodeTransmission address message in
  if messageLength <? Z.of_nat (List.length transmission) then None
  else
    let pcmLength :=
      pcmTransmissionLength SAMPLE_RATE BAUD_RATE messageLength in
    pcm <- pcmEncodeTransmission SAMPLE_RATE BAUD_RATE transmission
             messageLength ;;
    if Z.of_nat (List.length pcm) =? pcmLength then Some pcm else None.

(** ** Auxiliary notions used in the proofs *)

(** The denominator at the start of the iteration for [column]. *)
Definition aligned (column denominator : Z) : Prop :=
  column <= 20 -> denominator = CRC_GENERATOR * 2 ^ (20 - column).

(** The value of a bit string, most significant bit first. *)
Fixpoint bitsZ (bs : list bool) : Z :=
  match bs with
  | [] => 0
  | b :: bs' => Z.b2z b * 2 ^ Z.of_nat (List.length bs') + bitsZ bs'
  end.

(** The low [n] bits of [x], most significant bit first. *)
Fixpoint toBits (n : nat) (x : Z) : list bool :=
  match n with
  | O => []
  | S n' => Z.testbit x (Z.of_nat n') :: toBits n' x
  end.

(** The seven bits of a character in transmission order, least
    significant bit first. *)
Definition charBits (c : Z) : list bool :=
  map (fun i => Z.testbit c (Z.of_nat i)) (seq 0 7).

(** The bit stream of a C string: its characters up to the first NUL. *)
Fixpoint textBits (s : string) : list bool :=
  match s with
  | EmptyString => []
  | String ch rest =>
      if byte_of ch =? 0 then [] else charBits (byte_of ch) ++ textBits rest
  end.

(** Cutting a bit stream into groups of 20, starting from the pending
    bits [acc]; returns the full groups and the bits left over. *)
Fixpoint group (acc bits : list bool) : list (list bool) * list bool :=
  match bits with
  | [] => ([], acc)
  | b :: bits' =>
      if (List.length (acc ++ [b]) =? 20)%nat
      then let (cs, r) := group [] bits' in ((acc ++ [b]) :: cs, r)
      else group (acc ++ [b]) bits'
  end.

(** The groups of 20 bits of a bit stream, the last one filled up with
    zero bits. *)
Definition chunks (bits : list bool) : list (list bool) :=
  let (cs, r) := group [] bits in
  match r with
  | [] => cs
  | _ :: _ => cs ++ [r ++ repeat false (20 - List.length r)]
  end.

(** The data codeword that carries 20 bits of text. *)
Definition dataWord (chunk : list bool) : Z :=
  encodeCodeword (Z.lor (bitsZ chunk) FLAG_MESSAGE).

(** Laying payload words out in batches: a SYNC word follows every word
    that fills position 15 of its batch. *)
Fixpoint frame (position : Z) (ws : list Z) : list Z :=
  match ws with
  | [] => []
  | w :: ws' =>
      if position + 1 =? BATCH_SIZE then w :: SYNC :: frame 0 ws'
      else w :: frame (position + 1) ws'
  end.

(** The state of the packer with the pending bits [acc] at batch position
    [position]. *)
Definition packerOf (acc : list bool) (position : Z) : packer :=
  mkPacker (bitsZ acc) (Z.of_nat (List.length acc)) position.

(** The words after the preamble. *)
Definition afterPreamble (transmission : list Z) : list Z :=
  skipn (Z.to_nat (PREAMBLE_LENGTH / 32)) transmission.

(** A data codeword has the message flag, bit 31, set; SYNC and IDLE are
    reserved values. *)
Definition isDataWord (w : Z) : bool :=
  negb (w =? SYNC) && negb (w =? IDLE) && Z.testbit w 31.

Definition dataWords (transmission : list Z) : list Z :=
  filter isDataWord (afterPreamble transmission).

(** The 20 payload bits of a codeword, most significant bit first. *)
Definition payloadBits (w : Z) : list bool :=
  toBits 20 (Z.land (Z.shiftr w 11) 0xFFFFF).

(** A decoder for the text bit stream: every group of seven bits is a
    character, first bit least significant; it stops at a NUL character or
    when fewer than seven bits are left. *)
Fixpoint decodeText (bits : list bool) : string :=
  match bits with
  | b0 :: b1 :: b2 :: b3 :: b4 :: b5 :: b6 :: rest =>
      let ch := Ascii b0 b1 b2 b3 b4 b5 b6 false in
      if byte_of ch =? 0 then EmptyString else String ch (decodeText rest)
  | _ => EmptyString
  end.

(** Characters that survive the 7-bit text encoding: 1 to 127. *)
Definition sevenBit (ch : ascii) : bool :=
  (0 <? byte_of ch) && (byte_of ch <? 128).

Fixpoint sevenBitSafe (s : string) : bool :=
  match s with
  | EmptyString => true
  | String ch rest => sevenBit ch && sevenBitSafe rest
  end.

(** Number of data words for [numChars] characters. *)
Definition textWords (numChars : Z) : Z := (7 * numChars + 19) / 20.

(** The samples the word loop stores for the words [ws]. *)
Definition wave (repeatsPerBit : Z) (ws : list Z) : list Z :=
  flat_map (bitLoop 32 0 repeatsPerBit) ws.

(** The intermediate waveform as the specification describes it: sample
    [s] belongs to the word [s / (32 * repeatsPerBit)] and, within the
    word, to the bit number [(s / repeatsPerBit) mod 32] counted from the
    most significant bit; a 0 bit is +16383 and a 1 bit is -16383. *)
Definition waveformSample (repeatsPerBit : Z) (transmission : list Z) (s : Z)
  : Z :=
  let word := nth (Z.to_nat (s / (32 * repeatsPerBit))) transmission 0 in
  if Z.testbit word (31 - (s / repeatsPerBit) mod 32)
  then -16383 else 16383.

(** The two bytes of a 16-bit sample in two's complement, low byte
    first. *)
Definition littleEndian16 (x : Z) : Z * Z :=
  (x mod 2 ^ 16 mod 256, x mod 2 ^ 16 / 256).

(** The inputs for which no [size_t] computation of
    [pcmTransmissionLength] wraps. *)
Definition lengthFits (sampleRate baudRate transmissionLength : Z) : Prop :=
  0 < sampleRate < 2 ^ 32
  /\ 0 < baudRate
  /\ 0 <= transmissionLength
  /\ transmissionLength * 32 * sampleRate < 2 ^ 32
  /\ transmissionLength * 32 * sampleRate / baudRate * 2 < 2 ^ 32.

(** The inputs of the PCM synthesizer for which, moreover, the baud rate
    divides the symbol rate and the size passed to [malloc] does not
    wrap. *)
Definition pcmDomain (sampleRate baudRate transmissionLength : Z) : Prop :=
  lengthFits sampleRate baudRate transmissionLength
  /\ (baudRate | SYMRATE)
  /\ 2 * transmissionLength * 32 * (SYMRATE / baudRate) < 2 ^ 32.

(** A message of 130 characters, used in the examples. *)
Definition longMessage : string :=
  ("MEET AT THE NORTH GATE AT NINE. BRING THE KEYS, THE MAPS AND THE "
   ++ "SPARE RADIO. CALL BACK ON CHANNEL FOUR WHEN YOU ARE IN RANGE. OUT")%string.

(** The words of [l], which start at index [k] after the preamble, have
    SYNC at the indices that are multiples of 17 and nowhere else. *)
Definition syncLayoutFrom (k : Z) (l : list Z) : Prop :=
  forall i w,
    nth_error l i = Some w -> (w = SYNC <-> (k + Z.of_nat i) mod 17 = 0).

(** Modelled from the spec: the product of two polynomials over GF(2),
    their coefficients given as bits; the low [n] coefficients of [a] are
    taken.  A word leaves remainder zero in the division by the generator
    exactly when it is such a product with the generator. *)
Fixpoint polyMul (n : nat) (a b : Z) : Z :=
  match n with
  | O => 0
  | S n' =>
      Z.lxor (if Z.testbit a (Z.of_nat n')
              then Z.shiftl b (Z.of_nat n') else 0)
             (polyMul n' a b)
  end.

(** The string of [n] characters [ch]. *)
Fixpoint repeatChar (n : nat) (ch : ascii) : string :=
  match n with
  | O => EmptyString
  | S n' => String ch (repeatChar n' ch)
  end.

(** A message of 400000000 characters, whose bit count is above
    [INT_MAX]. *)
Definition hugeMessage : string := repeatChar (Z.to_nat 400000000) "A".

(** The check a receiver makes on a codeword: the CRC of the payload
    bits 31..11 is the field in the bits 10..1, and the parity over the 32
    bits is even. *)
Definition validCodeword (w : Z) : Prop :=
  0 <= w < 2 ^ 32
  /\ crc (Z.shiftr w 11) = Z.land (Z.shiftr w 1) 0x3FF
  /\ parity w = 0.

(** The word with the bits at the given positions set an odd number of
    times: what the xor with it flips in a codeword. *)
Definition flipBits (positions : list Z) : Z :=
  fold_right (fun p e => Z.lxor (2 ^ p) e) 0 positions.

(** What the receiver's check computes on a word: the remainder of the
    division of the bits 31..1 and the parity of the 32 bits. *)
Definition checkBits (w : Z) : Z * Z := (crc_divide (Z.shiftr w 1), parity w).

(** The 32 words with one bit set, each with its check values. *)
Definition columns : list (Z * (Z * Z)) :=
  map (fun p => (2 ^ Z.of_nat p, checkBits (2 ^ Z.of_nat p))) (seq 0 32).

(** Whether every four of them that do not cancel have check values that
    do not cancel either. *)
Definition quadruplesDetected : bool :=
  let cols := columns in
  forallb (fun a => forallb (fun b => forallb (fun c => forallb (fun d =>
    (Z.lxor (fst a) (Z.lxor (fst b) (Z.lxor (fst c) (fst d))) =? 0)
    || negb
         ((Z.lxor (fst (snd a))
             (Z.lxor (fst (snd b)) (Z.lxor (fst (snd c)) (fst (snd d))))
           =? 0)
          && (Z.lxor (snd (snd a))
                (Z.lxor (snd (snd b)) (Z.lxor (snd (snd c)) (snd (snd d))))
              =? 0)))
    cols) cols) cols) cols.

(** Two C strings of the same length whose characters agree in their low
    seven bits. *)
Fixpoint sameLow7 (s t : string) : bool :=
  match s, t with
  | EmptyString, EmptyString => true
  | String a s', String b t' =>
      negb (byte_of a =? 0) && negb (byte_of b =? 0)
      && (byte_of a mod 128 =? byte_of b mod 128)
      && sameLow7 s' t'
  | _, _ => false
  end.

(** No character of [s] is a colon. *)
Fixpoint noColon (s : string) : bool :=
  match s with
  | EmptyString => true
  | String ch rest => negb (byte_of ch =? 58) && noColon rest
  end.

(** The characters the line loop looks for. *)
Definition newline : ascii := ascii_of_N 10.
Definition carriageReturn : ascii := ascii_of_N 13.

(** The line endings the loop takes off. *)
Definition lineEnding (e : string) : Prop :=
  e = EmptyString
  \/ e = String newline EmptyString
  \/ e = String carriageReturn EmptyString
  \/ e = String carriageReturn (String newline EmptyString).

(** A receiver for the words after the preamble.  The address is read
    from the first word that is not IDLE after the first SYNC: its payload
    bits above the two function bits are the address bits above the low
    three, and half the number of IDLE words before it, the frame number,
    gives the low three.  The text is read from the data codewords. *)
Fixpoint leadingIdle (ws : list Z) : nat :=
  match ws with
  | w :: ws' => if w =? IDLE then S (leadingIdle ws') else O
  | [] => O
  end.

Definition decodeAddress (words : list Z) : option Z :=
  match words with
  | w0 :: rest =>
      if w0 =? SYNC then
        match skipn (leadingIdle rest) rest with
        | w :: _ =>
            if Z.testbit w 31 then None
            else Some (Z.lor (Z.shiftl (Z.shiftr w 13) 3)
                             (Z.of_nat (leadingIdle rest) / 2))
        | [] => None
        end
      else None
  | [] => None
  end.

Definition decodeTransmission (transmission : list Z) : option (Z * string) :=
  match decodeAddress (afterPreamble transmission) with
  | Some address =>
      Some (address,
            decodeText (flat_map payloadBits (dataWords transmission)))
  | None => None
  end.

(** The text of a line: characters other than NUL, at least one, the last
    of which is neither a line feed nor a carriage return. *)
Definition lineContent (c : string) : Prop :=
  cstring c = c /\ c <> EmptyString
  /\ endsWith 10 c = false /\ endsWith 13 c = false.

(** * Properties *)

(** Linear arithmetic with division and remainder by constants. *)
Ltac divlia := Z.to_euclidean_division_equations; lia.

(** Range obligations of [u32_small], with 2^32 written out. *)
Ltac fits32 := change (2 ^ 32) with 4294967296; lia.
Ltac fits32_div := change (2 ^ 32) with 4294967296; divlia.
Ltac fits32_nl := change (2 ^ 32) with 4294967296; nia.

(** ** Bit-level facts *)

Section Bits.

Lemma u32_small x : 0 <= x < 2 ^ 32 -> u32 x = x.
Proof. intros H. unfold u32. now apply Z.mod_small. Qed.

Lemma s32_small x : - 2 ^ 31 <= x < 2 ^ 31 -> s32 x = x.
Proof.
  intros H. unfold s32. change (2 ^ 31) with 2147483648 in *.
  change (2 ^ 32) with 4294967296. divlia.
Qed.

Lemma u32_range x : 0 <= u32 x < 2 ^ 32.
Proof. unfold u32. apply Z.mod_pos_bound. lia. Qed.

Lemma testbit_high x k i :
  0 <= k -> 0 <= x < 2 ^ k -> k <= i -> Z.testbit x i = false.
Proof.
  intros Hk Hx Hi.
  rewrite <- (Z.mod_small x (2 ^ k)) by assumption.
  apply Z.mod_pow2_bits_high. lia.
Qed.

Lemma lt_pow2_of_bits x k :
  0 <= k -> 0 <= x ->
  (forall i, k <= i -> Z.testbit x i = false) -> x < 2 ^ k.
Proof.
  intros Hk Hx Hb.
  destruct (Z.eq_dec x 0) as [->|Hnz].
  - apply Z.pow_pos_nonneg; lia.
  - assert (Hpos : 0 < x) by lia.
    destruct (Z_lt_le_dec x (2 ^ k)) as [Hlt|Hge]; [assumption|exfalso].
    apply Z.log2_le_pow2 in Hge; [|assumption].
    pose proof (Z.bit_log2 x Hpos) as Hbit.
    rewrite (Hb (Z.log2 x) Hge) in Hbit. discriminate.
Qed.

Lemma land_shiftr_1 x k :
  0 <= k -> Z.land (Z.shiftr x k) 1 = Z.b2z (Z.testbit x k).
Proof.
  intros Hk.
  change 1 with (Z.ones 1).
  rewrite Z.land_ones by lia.
  rewrite Z.shiftr_div_pow2 by assumption.
  now rewrite Z.testbit_spec'.
Qed.

Lemma lxor_nonneg_range a b k :
  0 <= k -> 0 <= a < 2 ^ k -> 0 <= b < 2 ^ k -> 0 <= Z.lxor a b < 2 ^ k.
Proof.
  intros Hk Ha Hb.
  assert (Hn : 0 <= Z.lxor a b) by (apply Z.lxor_nonneg; lia).
  split; [assumption|].
  apply lt_pow2_of_bits; try assumption.
  intros i Hi. rewrite Z.lxor_spec.
  rewrite (testbit_high a k i), (testbit_high b k i) by assumption.
  reflexivity.
Qed.

(** Two values with the same top bit cancel it under xor. *)
Lemma lxor_clears_top a b k :
  0 <= k -> 0 <= a < 2 ^ (k + 1) -> 0 <= b < 2 ^ (k + 1) ->
  Z.testbit a k = true -> Z.testbit b k = true ->
  0 <= Z.lxor a b < 2 ^ k.
Proof.
  intros Hk Ha Hb Ta Tb.
  assert (Hn : 0 <= Z.lxor a b) by (apply Z.lxor_nonneg; lia).
  split; [assumption|].
  apply lt_pow2_of_bits; try assumption.
  intros i Hi. rewrite Z.lxor_spec.
  destruct (Z.eq_dec i k) as [->|Hne].
  - now rewrite Ta, Tb.
  - rewrite (testbit_high a (k + 1) i), (testbit_high b (k + 1) i) by lia.
    reflexivity.
Qed.

Lemma clear_top_range a k :
  0 <= k -> 0 <= a < 2 ^ (k + 1) -> Z.testbit a k = false -> a < 2 ^ k.
Proof.
  intros Hk Ha Ta.
  apply lt_pow2_of_bits; try lia.
  intros i Hi.
  destruct (Z.eq_dec i k) as [->|Hne]; [assumption|].
  apply (testbit_high a (k + 1)); lia.
Qed.

Lemma land_shifted a b k :
  0 <= k -> 0 <= b < 2 ^ k -> Z.land (a * 2 ^ k) b = 0.
Proof.
  intros Hk Hb.
  apply Z.bits_inj'; intros i Hi; rewrite Z.land_spec, Z.bits_0.
  destruct (Z_lt_le_dec i k) as [Hlt|Hge].
  - now rewrite Z.mul_pow2_bits_low by lia.
  - rewrite (testbit_high b k i) by lia. apply andb_false_r.
Qed.

(** Or-ing into zeroed low bits is an addition. *)
Lemma lor_shifted a b k :
  0 <= k -> 0 <= b < 2 ^ k -> Z.lor (a * 2 ^ k) b = a * 2 ^ k + b.
Proof.
  intros Hk Hb.
  rewrite <- Z.lxor_lor, <- Z.add_nocarry_lxor;
    try reflexivity; now apply land_shifted.
Qed.

(** Xor commutes with masks and shifts. *)
Lemma land_lxor a b c :
  Z.land (Z.lxor a b) c = Z.lxor (Z.land a c) (Z.land b c).
Proof.
  apply Z.bits_inj'. intros i _.
  rewrite !Z.lxor_spec, !Z.land_spec, Z.lxor_spec.
  now destruct (Z.testbit a i), (Z.testbit b i), (Z.testbit c i).
Qed.

Lemma shiftr_lxor a b n :
  0 <= n -> Z.shiftr (Z.lxor a b) n = Z.lxor (Z.shiftr a n) (Z.shiftr b n).
Proof.
  intros Hn. apply Z.bits_inj'. intros i Hi.
  now rewrite Z.lxor_spec, !Z.shiftr_spec, Z.lxor_spec by assumption.
Qed.

Lemma shiftl_lxor a b n :
  0 <= n -> Z.shiftl (Z.lxor a b) n = Z.lxor (Z.shiftl a n) (Z.shiftl b n).
Proof.
  intros Hn. apply Z.bits_inj'. intros i Hi.
  now rewrite Z.lxor_spec, !Z.shiftl_spec, Z.lxor_spec by assumption.
Qed.

Lemma lxor_shuffle p q x y :
  Z.lxor (Z.lxor p q) (Z.lxor x y) = Z.lxor (Z.lxor p x) (Z.lxor q y).
Proof.
  apply Z.bits_inj'. intros i _. rewrite !Z.lxor_spec.
  now destruct (Z.testbit p i), (Z.testbit q i), (Z.testbit x i),
    (Z.testbit y i).
Qed.

End Bits.

(** ** The CRC division *)

Section Crc.

Lemma aligned_start : aligned 0 (u32 (Z.shiftl CRC_GENERATOR 20)).
Proof. intros _. reflexivity. Qed.

Lemma aligned_next column denominator :
  0 <= column <= 20 -> aligned column denominator ->
  aligned (column + 1) (Z.shiftr denominator 1).
Proof.
  intros Hc Ha Hc'. rewrite (Ha ltac:(lia)).
  rewrite Z.shiftr_div_pow2 by lia. change (2 ^ 1) with 2.
  replace (20 - column) with (Z.succ (20 - (column + 1))) by lia.
  rewrite Z.pow_succ_r by lia.
  replace (CRC_GENERATOR * (2 * 2 ^ (20 - (column + 1))))
    with (CRC_GENERATOR * 2 ^ (20 - (column + 1)) * 2) by ring.
  apply Z.div_mul. lia.
Qed.

Lemma aligned_range column denominator :
  0 <= column <= 20 -> aligned column denominator ->
  0 <= denominator < 2 ^ (30 - column + 1)
  /\ Z.testbit denominator (30 - column) = true.
Proof.
  intros Hc Ha. rewrite (Ha ltac:(lia)).
  assert (Hp : 0 < 2 ^ (20 - column)) by (apply Z.pow_pos_nonneg; lia).
  replace (30 - column + 1) with (11 + (20 - column)) by lia.
  rewrite Z.pow_add_r by lia.
  unfold CRC_GENERATOR. change (2 ^ 11) with 2048.
  repeat split; try nia.
  rewrite Z.mul_pow2_bits by lia.
  replace (30 - column - (20 - column)) with 10 by lia. reflexivity.
Qed.

(** Each iteration clears the bit of its column: after the iterations for
    the columns [column], ..., [column + n - 1] the message is below
    [2 ^ (31 - column - n)]. *)
Lemma crc_loop_range n : forall column msg denominator,
  0 <= column -> column + Z.of_nat n <= 21 ->
  aligned column denominator ->
  0 <= msg < 2 ^ (31 - column) ->
  0 <= crc_loop n column msg denominator < 2 ^ (31 - column - Z.of_nat n).
Proof.
  induction n as [|n IH]; intros column msg denominator Hc Hn Ha Hm.
  - cbn [crc_loop]. now rewrite Z.sub_0_r.
  - cbn [crc_loop].
    rewrite land_shiftr_1 by lia.
    destruct (aligned_range column denominator) as [Hd Td];
      [lia|assumption|].
    replace (31 - column - Z.of_nat (S n))
      with (31 - (column + 1) - Z.of_nat n) by lia.
    replace (31 - column) with (30 - column + 1) in Hm by lia.
    apply IH; try lia.
    + apply aligned_next; [lia|assumption].
    + replace (31 - (column + 1)) with (30 - column) by lia.
      destruct (Z.testbit msg (30 - column)) eqn:Tm; cbn [Z.b2z Z.eqb].
      * apply lxor_clears_top; try assumption; lia.
      * split; [lia|]. apply clear_top_range; try assumption; lia.
Qed.

(** The loop only looks at the bits 30 down to 10, so a value below
    [2 ^ 10] that is xor-ed into the message passes through unchanged. *)
Lemma crc_loop_low n : forall column msg denominator r,
  0 <= column -> column + Z.of_nat n <= 21 -> 0 <= r < 2 ^ 10 ->
  crc_loop n column (Z.lxor msg r) denominator
  = Z.lxor (crc_loop n column msg denominator) r.
Proof.
  induction n as [|n IH]; intros column msg denominator r Hc Hn Hr.
  - reflexivity.
  - cbn [crc_loop].
    rewrite !land_shiftr_1 by lia.
    rewrite Z.lxor_spec, (testbit_high r 10 (30 - column)) by lia.
    rewrite xorb_false_r.
    destruct (Z.testbit msg (30 - column)); cbn [Z.b2z Z.eqb].
    + rewrite <- IH by lia. f_equal.
      rewrite !Z.lxor_assoc. f_equal. apply Z.lxor_comm.
    + apply IH; lia.
Qed.

Lemma crc_divide_range msg :
  0 <= msg < 2 ^ 31 -> 0 <= crc_divide msg < 2 ^ 10.
Proof.
  intros Hm. unfold crc_divide.
  change (2 ^ 10) with (2 ^ (31 - 0 - Z.of_nat 21)).
  apply crc_loop_range;
    try (change (Z.of_nat 21) with 21; lia); apply aligned_start.
Qed.

Lemma crc_divide_low msg r :
  0 <= r < 2 ^ 10 ->
  crc_divide (Z.lxor msg r) = Z.lxor (crc_divide msg) r.
Proof.
  intros Hr. unfold crc_divide.
  apply crc_loop_low; [lia| change (Z.of_nat 21) with 21; lia | exact Hr].
Qed.

Lemma shiftl_payload m :
  0 <= m < 2 ^ 21 ->
  u32 (Z.shiftl m CRC_BITS) = m * 2 ^ 10 /\ 0 <= m * 2 ^ 10 < 2 ^ 31.
Proof.
  intros Hm. unfold CRC_BITS.
  rewrite Z.shiftl_mul_pow2 by lia.
  change (2 ^ 21) with 2097152 in Hm.
  change (2 ^ 10) with 1024. change (2 ^ 31) with 2147483648.
  rewrite u32_small; [lia|]. change (2 ^ 32) with 4294967296. lia.
Qed.

Lemma crc_bounds m : 0 <= crc m <= 1023.
Proof.
  unfold crc. change 0x3FF with (Z.ones 10).
  rewrite Z.land_ones by lia.
  pose proof (Z.mod_pos_bound
    (crc_divide (u32 (Z.shiftl m CRC_BITS))) (2 ^ 10) eq_refl) as H.
  change (2 ^ 10) with 1024 in *. change (Z.ones 10) with 1023. lia.
Qed.

Lemma crc_is_remainder m :
  0 <= m < 2 ^ 21 -> crc m = crc_divide (m * 2 ^ 10).
Proof.
  intros Hm. unfold crc.
  destruct (shiftl_payload m Hm) as [-> Hr].
  change 0x3FF with (Z.ones 10).
  rewrite Z.land_ones by lia.
  apply Z.mod_small. now apply crc_divide_range.
Qed.

Lemma fullCRC_value m :
  0 <= m < 2 ^ 21 ->
  Z.lor (u32 (Z.shiftl m CRC_BITS)) (crc m) = m * 2 ^ 10 + crc m.
Proof.
  intros Hm. destruct (shiftl_payload m Hm) as [-> _].
  apply lor_shifted; [lia|].
  pose proof (crc_bounds m). change (2 ^ 10) with 1024. lia.
Qed.

(** Dividing the payload followed by its CRC leaves no remainder. *)
Lemma crc_divide_checked m :
  0 <= m < 2 ^ 21 ->
  crc_divide (Z.lor (Z.shiftl m CRC_BITS) (crc m)) = 0.
Proof.
  intros Hm.
  assert (Hc : 0 <= crc m < 2 ^ 10)
    by (pose proof (crc_bounds m); change (2 ^ 10) with 1024; lia).
  unfold CRC_BITS. rewrite Z.shiftl_mul_pow2 by lia.
  rewrite <- Z.lxor_lor by (apply land_shifted; [lia|assumption]).
  rewrite crc_divide_low by exact Hc.
  rewrite <- crc_is_remainder by exact Hm.
  apply Z.lxor_nilpotent.
Qed.

(** The division is linear over xor: the decision taken in a column is
    the xor of the decisions taken for the two operands. *)
Lemma crc_loop_lxor n : forall column a b denominator,
  0 <= column -> column + Z.of_nat n <= 21 ->
  crc_loop n column (Z.lxor a b) denominator
  = Z.lxor (crc_loop n column a denominator)
           (crc_loop n column b denominator).
Proof.
  induction n as [|n IH]; intros column a b denominator Hc Hn.
  - reflexivity.
  - cbn [crc_loop]. rewrite !land_shiftr_1 by lia. rewrite Z.lxor_spec.
    destruct (Z.testbit a (30 - column)), (Z.testbit b (30 - column));
      cbn [xorb Z.b2z Z.eqb]; rewrite <- IH by lia; f_equal.
    + rewrite lxor_shuffle, Z.lxor_nilpotent, Z.lxor_0_r. reflexivity.
    + rewrite !Z.lxor_assoc. f_equal. apply Z.lxor_comm.
    + now rewrite Z.lxor_assoc.
Qed.

Lemma crc_lxor a b :
  0 <= a < 2 ^ 21 -> 0 <= b < 2 ^ 21 ->
  crc (Z.lxor a b) = Z.lxor (crc a) (crc b).
Proof.
  intros Ha Hb.
  assert (Hab : 0 <= Z.lxor a b < 2 ^ 21)
    by (apply lxor_nonneg_range; lia).
  unfold crc.
  destruct (shiftl_payload _ Ha) as [-> _].
  destruct (shiftl_payload _ Hb) as [-> _].
  destruct (shiftl_payload _ Hab) as [-> _].
  rewrite <- !Z.shiftl_mul_pow2, shiftl_lxor by lia.
  unfold crc_divide.
  rewrite crc_loop_lxor by (change (Z.of_nat 21) with 21; lia).
  apply land_lxor.
Qed.

Lemma crc_divide_lxor a b :
  crc_divide (Z.lxor a b) = Z.lxor (crc_divide a) (crc_divide b).
Proof.
  unfold crc_divide.
  apply crc_loop_lxor; change (Z.of_nat 21) with 21; lia.
Qed.

(** The product of polynomials over GF(2). *)
Lemma polyMul_zero n b : polyMul n 0 b = 0.
Proof.
  induction n as [|n IH]; [reflexivity|].
  cbn [polyMul]. now rewrite Z.bits_0, IH.
Qed.

Lemma polyMul_lxor n a a' b :
  polyMul n (Z.lxor a a') b = Z.lxor (polyMul n a b) (polyMul n a' b).
Proof.
  induction n as [|n IH]; [reflexivity|].
  cbn [polyMul]. rewrite IH, Z.lxor_spec.
  destruct (Z.testbit a (Z.of_nat n)), (Z.testbit a' (Z.of_nat n));
    cbn [xorb]; rewrite ?Z.lxor_0_l.
  - rewrite lxor_shuffle, Z.lxor_nilpotent. now rewrite Z.lxor_0_l.
  - now rewrite Z.lxor_assoc.
  - rewrite <- !Z.lxor_assoc.
    now rewrite (Z.lxor_comm (Z.shiftl b (Z.of_nat n)) (polyMul n a b)).
  - reflexivity.
Qed.

Lemma polyMul_pow2 n k b :
  0 <= k ->
  polyMul n (2 ^ k) b = if k <? Z.of_nat n then Z.shiftl b k else 0.
Proof.
  intros Hk. induction n as [|n IH].
  - cbn [polyMul]. destruct (Z.ltb_spec k (Z.of_nat 0)); [lia|reflexivity].
  - cbn [polyMul]. rewrite IH, Z.pow2_bits_eqb by lia.
    destruct (Z.eqb_spec k (Z.of_nat n)) as [E|E];
      destruct (Z.ltb_spec k (Z.of_nat n));
      destruct (Z.ltb_spec k (Z.of_nat (S n))); try lia.
    + rewrite Z.lxor_0_r. now rewrite E.
    + now rewrite Z.lxor_0_l.
    + reflexivity.
Qed.

(** What the division loop leaves differs from the message by a multiple
    of the generator: the columns in which the denominator is subtracted
    are the coefficients of the quotient. *)
Lemma crc_loop_quotient n : forall column msg denominator,
  0 <= column -> column + Z.of_nat n <= 21 ->
  aligned column denominator ->
  exists q,
    0 <= q < 2 ^ (21 - column)
    /\ msg = Z.lxor (crc_loop n column msg denominator)
                    (polyMul 21 q CRC_GENERATOR).
Proof.
  induction n as [|n IH]; intros column msg denominator Hc Hn Ha.
  - exists 0. split; [split; [lia|apply Z.pow_pos_nonneg; lia]|].
    cbn [crc_loop]. now rewrite polyMul_zero, Z.lxor_0_r.
  - cbn [crc_loop]. cbv zeta.
    assert (Hnext : aligned (column + 1) (Z.shiftr denominator 1))
      by (apply aligned_next; [lia|assumption]).
    assert (Hpow : 2 ^ (21 - column) = 2 * 2 ^ (21 - (column + 1))).
    { replace (21 - column) with (Z.succ (21 - (column + 1))) by lia.
      apply Z.pow_succ_r. lia. }
    assert (Hpos : 0 < 2 ^ (21 - (column + 1)))
      by (apply Z.pow_pos_nonneg; lia).
    destruct (Z.land (Z.shiftr msg (30 - column)) 1 =? 0).
    + destruct (IH (column + 1) msg (Z.shiftr denominator 1)
                  ltac:(lia) ltac:(lia) Hnext) as (q & Hq & E).
      exists q. split; [lia|exact E].
    + destruct (IH (column + 1) (Z.lxor msg denominator)
                  (Z.shiftr denominator 1) ltac:(lia) ltac:(lia) Hnext)
        as (q & Hq & E).
      exists (Z.lxor q (2 ^ (20 - column))). split.
      * apply lxor_nonneg_range; [lia| |].
        -- rewrite Hpow. lia.
        -- replace (20 - column) with (21 - (column + 1)) by lia.
           rewrite Hpow. lia.
      * rewrite polyMul_lxor, polyMul_pow2 by lia.
        replace (20 - column <? Z.of_nat 21) with true
          by (symmetry; apply Z.ltb_lt; change (Z.of_nat 21) with 21; lia).
        rewrite Z.shiftl_mul_pow2 by lia.
        rewrite <- (Ha ltac:(lia)).
        rewrite <- Z.lxor_assoc, <- E.
        now rewrite Z.lxor_assoc, Z.lxor_nilpotent, Z.lxor_0_r.
Qed.

(** The message followed by its CRC is a multiple of the generator. *)
Lemma crc_quotient m :
  0 <= m < 2 ^ 21 ->
  exists q,
    0 <= q < 2 ^ 21
    /\ Z.lor (Z.shiftl m CRC_BITS) (crc m) = polyMul 21 q CRC_GENERATOR.
Proof.
  intros Hm.
  assert (Hc : 0 <= crc m < 2 ^ 10)
    by (pose proof (crc_bounds m); change (2 ^ 10) with 1024; lia).
  destruct (crc_loop_quotient 21 0 (m * 2 ^ 10)
              (u32 (Z.shiftl CRC_GENERATOR 20))
              ltac:(lia) ltac:(change (Z.of_nat 21) with 21; lia)
              aligned_start) as (q & Hq & E).
  exists q. split; [exact Hq|].
  unfold CRC_BITS. rewrite Z.shiftl_mul_pow2 by lia.
  rewrite <- Z.lxor_lor by (apply land_shifted; [lia|assumption]).
  rewrite (crc_is_remainder m Hm). unfold crc_divide.
  rewrite E at 1.
  rewrite (Z.lxor_comm (crc_loop _ _ _ _)), Z.lxor_assoc.
  now rewrite Z.lxor_nilpotent, Z.lxor_0_r.
Qed.

End Crc.

(** ** Parity *)

Section Parity.

Lemma land_1_bit x : Z.land x 1 = Z.b2z (Z.testbit x 0).
Proof. rewrite <- (land_shiftr_1 x 0) by lia. now rewrite Z.shiftr_0_r. Qed.

Lemma lxor_bit p b :
  p = 0 \/ p = 1 -> Z.lxor p (Z.b2z b) = (p + Z.b2z b) mod 2.
Proof. intros [-> | ->]; destruct b; reflexivity. Qed.

Lemma popcount_S n x :
  popcount (S n) x
  = ((if Z.testbit x 0 then 1 else 0) + popcount n (Z.shiftr x 1))%nat.
Proof.
  unfold popcount.
  rewrite <- cons_seq, <- seq_shift. cbn [filter].
  assert (E : forall l,
    List.length (filter (fun i => Z.testbit x (Z.of_nat i)) (map S l))
    = List.length
        (filter (fun i => Z.testbit (Z.shiftr x 1) (Z.of_nat i)) l)).
  { induction l as [|a l IH]; [reflexivity|]. cbn [map filter].
    rewrite Z.shiftr_spec by lia.
    replace (Z.of_nat a + 1) with (Z.of_nat (S a)) by lia.
    destruct (Z.testbit x (Z.of_nat (S a))); cbn [List.length];
      now rewrite IH. }
  change (Z.of_nat 0) with 0.
  destruct (Z.testbit x 0); cbn [List.length]; now rewrite E.
Qed.

Lemma parity_loop_popcount n : forall p x,
  p = 0 \/ p = 1 ->
  parity_loop n p x = (p + Z.of_nat (popcount n x)) mod 2.
Proof.
  induction n as [|n IH]; intros p x Hp.
  - cbn [parity_loop]. unfold popcount. cbn.
    destruct Hp as [-> | ->]; reflexivity.
  - cbn [parity_loop]. rewrite land_1_bit, popcount_S.
    rewrite IH.
    + rewrite lxor_bit by assumption.
      rewrite Zplus_mod_idemp_l.
      f_equal. destruct (Z.testbit x 0); cbn [Z.b2z]; lia.
    + rewrite lxor_bit by assumption.
      pose proof (Z.mod_pos_bound (p + Z.b2z (Z.testbit x 0)) 2) as H.
      lia.
Qed.

(** [parity] returns 1 exactly when the number of set bits is odd. *)
Lemma parity_popcount x : parity x = Z.of_nat (popcount 32 x) mod 2.
Proof. unfold parity. rewrite parity_loop_popcount by now left. reflexivity. Qed.

Lemma parity_bit x : parity x = 0 \/ parity x = 1.
Proof.
  rewrite parity_popcount.
  pose proof (Z.mod_pos_bound (Z.of_nat (popcount 32 x)) 2). lia.
Qed.

Lemma popcount_snoc n x :
  popcount (S n) x
  = (popcount n x + if Z.testbit x (Z.of_nat n) then 1 else 0)%nat.
Proof.
  unfold popcount. rewrite seq_S, filter_app, length_app. cbn [filter Nat.add].
  now destruct (Z.testbit x (Z.of_nat n)).
Qed.

Lemma popcount_top x :
  0 <= x < 2 ^ 31 -> popcount 32 x = popcount 31 x.
Proof.
  intros Hx. rewrite (popcount_snoc 31).
  rewrite (testbit_high x 31) by (try assumption; lia). lia.
Qed.

Lemma parity_appended f :
  0 <= f < 2 ^ 31 -> parity (f * 2 + parity f) = 0.
Proof.
  intros Hf.
  rewrite (parity_popcount (f * 2 + _)), popcount_S.
  assert (Hs : Z.shiftr (f * 2 + parity f) 1 = f).
  { rewrite Z.shiftr_div_pow2 by lia. change (2 ^ 1) with 2.
    destruct (parity_bit f) as [-> | ->].
    - rewrite Z.add_0_r. apply Z.div_mul. lia.
    - symmetry. apply (Z.div_unique _ 2 f 1); lia. }
  assert (Hb : Z.b2z (Z.testbit (f * 2 + parity f) 0) = parity f).
  { rewrite <- land_1_bit. change 1 with (Z.ones 1) at 1.
    rewrite Z.land_ones by lia. change (2 ^ 1) with 2.
    destruct (parity_bit f) as [-> | ->].
    - rewrite Z.add_0_r. apply Z.mod_mul. lia.
    - rewrite Z.add_comm, Z.mod_add by lia. reflexivity. }
  assert (Hn :
    Z.of_nat (if Z.testbit (f * 2 + parity f) 0 then 1 else 0)%nat
    = parity f).
  { destruct (Z.testbit (f * 2 + parity f) 0); cbn [Z.b2z] in Hb;
      rewrite <- Hb; reflexivity. }
  rewrite Hs, <- popcount_top by assumption.
  rewrite Nat2Z.inj_add, Hn, parity_popcount.
  rewrite Zplus_mod_idemp_l.
  replace (Z.of_nat (popcount 32 f) + Z.of_nat (popcount 32 f))
    with (Z.of_nat (popcount 32 f) * 2) by lia.
  apply Z.mod_mul. lia.
Qed.

(** The parity is linear over xor. *)
Lemma parity_loop_lxor n : forall p q a b,
  parity_loop n (Z.lxor p q) (Z.lxor a b)
  = Z.lxor (parity_loop n p a) (parity_loop n q b).
Proof.
  induction n as [|n IH]; intros p q a b; [reflexivity|].
  cbn [parity_loop].
  rewrite land_lxor, shiftr_lxor, lxor_shuffle by lia. apply IH.
Qed.

Lemma parity_lxor a b : parity (Z.lxor a b) = Z.lxor (parity a) (parity b).
Proof.
  unfold parity. rewrite <- parity_loop_lxor. reflexivity.
Qed.

Lemma parity_loop_zero n : forall p, parity_loop n p 0 = p.
Proof.
  induction n as [|n IH]; intros p; [reflexivity|].
  cbn [parity_loop]. change (Z.land 0 1) with 0. change (Z.shiftr 0 1) with 0.
  rewrite Z.lxor_0_r. apply IH.
Qed.

Lemma parity_loop_pow2 n : forall p k,
  0 <= k < Z.of_nat n -> parity_loop n p (2 ^ k) = Z.lxor p 1.
Proof.
  induction n as [|n IH]; intros p k Hk; [lia|].
  cbn [parity_loop].
  destruct (Z.eq_dec k 0) as [->|Hne].
  - change (2 ^ 0) with 1. change (Z.land 1 1) with 1.
    change (Z.shiftr 1 1) with 0. apply parity_loop_zero.
  - rewrite land_1_bit, Z.pow2_bits_eqb by lia.
    replace (k =? 0) with false by (symmetry; apply Z.eqb_neq; lia).
    cbn [Z.b2z]. rewrite Z.lxor_0_r.
    rewrite Z.shiftr_div_pow2, <- Z.pow_sub_r by lia.
    apply IH. lia.
Qed.

Lemma parity_pow2 k : 0 <= k < 32 -> parity (2 ^ k) = 1.
Proof.
  intros Hk. unfold parity.
  rewrite parity_loop_pow2 by (change (Z.of_nat 32) with 32; lia).
  reflexivity.
Qed.

End Parity.

(** ** Codewords *)

(** From here on the loops are used through the lemmas above only. *)
#[global] Opaque crc_divide crc parity.

Section Codeword.

Lemma fullCRC_range m :
  0 <= m < 2 ^ 21 -> 0 <= m * 2 ^ 10 + crc m < 2 ^ 31.
Proof.
  intros Hm. pose proof (crc_bounds m).
  change (2 ^ 21) with 2097152 in Hm.
  change (2 ^ 10) with 1024. change (2 ^ 31) with 2147483648. lia.
Qed.

(** The layout of a codeword: payload, CRC and parity bit. *)
Lemma encodeCodeword_value m :
  0 <= m < 2 ^ 21 ->
  encodeCodeword m
  = m * 2 ^ 11 + crc m * 2 + parity (m * 2 ^ 10 + crc m).
Proof.
  intros Hm. unfold encodeCodeword.
  rewrite fullCRC_value by assumption.
  pose proof (fullCRC_range m Hm) as Hf.
  pose proof (parity_bit (m * 2 ^ 10 + crc m)) as Hp.
  generalize dependent (parity (m * 2 ^ 10 + crc m)). intros p Hp.
  generalize dependent (crc m). intros c Hf.
  rewrite Z.shiftl_mul_pow2 by lia.
  change (2 ^ 31) with 2147483648 in Hf.
  rewrite u32_small
    by (change (2 ^ 1) with 2; change (2 ^ 32) with 4294967296; lia).
  rewrite lor_shifted by (try lia; change (2 ^ 1) with 2; lia).
  change (2 ^ 11) with 2048. change (2 ^ 10) with 1024.
  change (2 ^ 1) with 2. lia.
Qed.

Lemma encodeCodeword_range m :
  0 <= m < 2 ^ 21 -> m * 2 ^ 11 <= encodeCodeword m < (m + 1) * 2 ^ 11.
Proof.
  intros Hm. rewrite encodeCodeword_value by assumption.
  pose proof (crc_bounds m) as Hc.
  pose proof (parity_bit (m * 2 ^ 10 + crc m)) as Hp.
  generalize dependent (parity (m * 2 ^ 10 + crc m)). intros p Hp.
  generalize dependent (crc m). intros c Hc.
  change (2 ^ 11) with 2048. lia.
Qed.

Lemma encodeCodeword_payload m :
  0 <= m < 2 ^ 21 -> Z.shiftr (encodeCodeword m) 11 = m.
Proof.
  intros Hm. rewrite Z.shiftr_div_pow2 by lia.
  pose proof (encodeCodeword_range m Hm) as Hr.
  generalize dependent (encodeCodeword m). intros w Hr.
  symmetry. apply (Z.div_unique _ (2 ^ 11) m (w - m * 2 ^ 11));
    change (2 ^ 11) with 2048 in *; lia.
Qed.

Lemma encodeCodeword_fullCRC m :
  0 <= m < 2 ^ 21 ->
  Z.shiftr (encodeCodeword m) 1 = m * 2 ^ 10 + crc m.
Proof.
  intros Hm. rewrite encodeCodeword_value by assumption.
  rewrite Z.shiftr_div_pow2 by lia. change (2 ^ 1) with 2.
  pose proof (parity_bit (m * 2 ^ 10 + crc m)) as Hp.
  generalize dependent (parity (m * 2 ^ 10 + crc m)). intros p Hp.
  generalize (crc m). intros c.
  symmetry. apply (Z.div_unique _ 2 _ p); [lia|].
  change (2 ^ 11) with 2048. change (2 ^ 10) with 1024. lia.
Qed.

(** The codeword as a xor of its three fields. *)
Lemma encodeCodeword_fields m :
  0 <= m < 2 ^ 21 ->
  encodeCodeword m
  = Z.lxor (Z.shiftl (Z.lxor (Z.shiftl m 10) (crc m)) 1)
           (parity (Z.lxor (Z.shiftl m 10) (crc m))).
Proof.
  intros Hm. unfold encodeCodeword.
  destruct (shiftl_payload m Hm) as [E Hr]. rewrite E.
  pose proof (crc_bounds m) as Hc.
  assert (Hc' : 0 <= crc m < 2 ^ 10) by (change (2 ^ 10) with 1024; lia).
  rewrite (Z.shiftl_mul_pow2 m 10) by lia.
  rewrite <- (Z.lxor_lor (m * 2 ^ 10))
    by (apply land_shifted; [lia|assumption]).
  assert (Hf : 0 <= Z.lxor (m * 2 ^ 10) (crc m) < 2 ^ 31)
    by (apply lxor_nonneg_range; [lia|assumption|];
        change (2 ^ 10) with 1024 in Hc'; change (2 ^ 31) with 2147483648;
        lia).
  pose proof (parity_bit (Z.lxor (m * 2 ^ 10) (crc m))) as Hp.
  generalize dependent (parity (Z.lxor (m * 2 ^ 10) (crc m))). intros p Hp.
  generalize dependent (Z.lxor (m * 2 ^ 10) (crc m)). intros f Hf.
  rewrite Z.shiftl_mul_pow2 by lia.
  change (2 ^ 31) with 2147483648 in Hf.
  rewrite u32_small
    by (change (2 ^ 1) with 2; change (2 ^ 32) with 4294967296; lia).
  symmetry. apply Z.lxor_lor. apply land_shifted; [lia|].
  change (2 ^ 1) with 2. lia.
Qed.

(** The code is linear: the codeword of a xor is the xor of the
    codewords. *)
Lemma encodeCodeword_lxor a b :
  0 <= a < 2 ^ 21 -> 0 <= b < 2 ^ 21 ->
  encodeCodeword (Z.lxor a b)
  = Z.lxor (encodeCodeword a) (encodeCodeword b).
Proof.
  intros Ha Hb.
  assert (Hab : 0 <= Z.lxor a b < 2 ^ 21)
    by (apply lxor_nonneg_range; lia).
  rewrite !encodeCodeword_fields by assumption.
  rewrite crc_lxor, (shiftl_lxor a b) by (try assumption; lia).
  rewrite (lxor_shuffle (Z.shiftl a 10)).
  generalize (Z.lxor (Z.shiftl a 10) (crc a)).
  generalize (Z.lxor (Z.shiftl b 10) (crc b)). intros g f.
  rewrite parity_lxor, shiftl_lxor by lia.
  apply lxor_shuffle.
Qed.

End Codeword.

#[global] Opaque encodeCodeword.

(** ** The text packer *)

Section Packer.

Lemma bitsZ_snoc l b : bitsZ (l ++ [b]) = 2 * bitsZ l + Z.b2z b.
Proof.
  induction l as [|a l IH].
  - cbn. lia.
  - cbn [app bitsZ]. rewrite IH, length_app. cbn [List.length].
    replace (Z.of_nat (List.length l + 1)) with (Z.succ (Z.of_nat (List.length l)))
      by lia.
    rewrite Z.pow_succ_r by lia. ring.
Qed.

Lemma bitsZ_range l : 0 <= bitsZ l < 2 ^ Z.of_nat (List.length l).
Proof.
  induction l as [|a l IH].
  - cbn. lia.
  - cbn [bitsZ List.length]. rewrite Nat2Z.inj_succ, Z.pow_succ_r by lia.
    destruct a; cbn [Z.b2z]; lia.
Qed.

Lemma bitsZ_lt l n :
  (List.length l <= n)%nat -> 0 <= bitsZ l < 2 ^ Z.of_nat n.
Proof.
  intros Hl. pose proof (bitsZ_range l) as H.
  assert (2 ^ Z.of_nat (List.length l) <= 2 ^ Z.of_nat n)
    by (apply Z.pow_le_mono_r; lia).
  lia.
Qed.

Lemma bitsZ_zeros l k :
  bitsZ (l ++ repeat false k) = bitsZ l * 2 ^ Z.of_nat k.
Proof.
  induction k as [|k IH].
  - cbn [repeat]. rewrite app_nil_r. cbn. lia.
  - cbn [repeat]. rewrite repeat_cons, app_assoc, bitsZ_snoc, IH.
    rewrite Nat2Z.inj_succ, Z.pow_succ_r by lia. cbn [Z.b2z]. ring.
Qed.

Lemma next_position pos :
  0 <= pos < 16 ->
  (if pos + 1 =? BATCH_SIZE then 0 else pos + 1) = (pos + 1) mod 16.
Proof.
  intros Hp. unfold BATCH_SIZE.
  destruct (Z.eqb_spec (pos + 1) 16) as [E|E].
  - rewrite E. reflexivity.
  - rewrite Z.mod_small; lia.
Qed.

Lemma writeWord_frame word pos :
  0 <= pos < 16 ->
  writeWord word pos
  = (frame pos [encodeCodeword (Z.lor word FLAG_MESSAGE)], (pos + 1) mod 16).
Proof.
  intros Hp. unfold writeWord. cbn [frame].
  rewrite u32_small by fits32.
  rewrite <- next_position by assumption.
  now destruct (pos + 1 =? BATCH_SIZE).
Qed.

(** One iteration of the bit loop appends one bit to the pending bits and
    stores a data word when that makes 20. *)
Lemma pushBit_packerOf c i acc pos :
  0 <= i -> (List.length acc < 20)%nat -> 0 <= pos < 16 ->
  pushBit c i (packerOf acc pos)
  = let acc' := acc ++ [Z.testbit c i] in
    if (List.length acc' =? 20)%nat
    then (frame pos [dataWord acc'], packerOf [] ((pos + 1) mod 16))
    else ([], packerOf acc' pos).
Proof.
  intros Hi Hl Hp. unfold pushBit, packerOf.
  cbn [currentWord currentNumBits wordPosition].
  rewrite land_shiftr_1 by assumption.
  rewrite Z.shiftl_mul_pow2 by lia.
  pose proof (bitsZ_lt acc 19 ltac:(lia)) as Hb.
  change (2 ^ Z.of_nat 19) with 524288 in Hb.
  rewrite (u32_small (bitsZ acc * 2 ^ 1))
    by (change (2 ^ 1) with 2; change (2 ^ 32) with 4294967296; lia).
  rewrite lor_shifted
    by (try lia; change (2 ^ 1) with 2;
        destruct (Z.testbit c i); cbn [Z.b2z]; lia).
  change (2 ^ 1) with 2.
  replace (bitsZ acc * 2 + Z.b2z (Z.testbit c i))
    with (bitsZ (acc ++ [Z.testbit c i])) by (rewrite bitsZ_snoc; ring).
  rewrite u32_small by fits32.
  cbv zeta. rewrite length_app. cbn [List.length].
  unfold TEXT_BITS_PER_WORD.
  destruct (Nat.eqb_spec (List.length acc + 1) 20) as [E|E].
  - replace (Z.of_nat (List.length acc) + 1 =? 20) with true
      by (symmetry; apply Z.eqb_eq; lia).
    rewrite writeWord_frame by assumption. reflexivity.
  - replace (Z.of_nat (List.length acc) + 1 =? 20) with false
      by (symmetry; apply Z.eqb_neq; lia).
    do 3 f_equal. lia.
Qed.

Lemma group_rest_length bits : forall acc,
  (List.length acc < 20)%nat ->
  (List.length (snd (group acc bits)) < 20)%nat.
Proof.
  induction bits as [|b bits IH]; intros acc Hl; cbn [group].
  - exact Hl.
  - destruct (Nat.eqb_spec (List.length (acc ++ [b])) 20) as [E|E].
    + specialize (IH [] ltac:(cbn; lia)).
      destruct (group [] bits). exact IH.
    + apply IH. rewrite length_app in *. cbn [List.length] in *. lia.
Qed.

Lemma group_app b1 : forall acc b2,
  group acc (b1 ++ b2)
  = let (cs1, r1) := group acc b1 in
    let (cs2, r2) := group r1 b2 in (cs1 ++ cs2, r2).
Proof.
  induction b1 as [|b b1 IH]; intros acc b2; cbn [app group].
  - now destruct (group acc b2).
  - destruct (List.length (acc ++ [b]) =? 20)%nat.
    + rewrite IH. destruct (group [] b1) as [cs1 r1].
      now destruct (group r1 b2).
    + apply IH.
Qed.

Lemma frame_app l1 : forall pos l2,
  0 <= pos < 16 ->
  frame pos (l1 ++ l2)
  = frame pos l1 ++ frame ((pos + Z.of_nat (List.length l1)) mod 16) l2.
Proof.
  induction l1 as [|w l1 IH]; intros pos l2 Hp.
  - cbn [app frame List.length]. rewrite Z.add_0_r, Z.mod_small by lia.
    reflexivity.
  - cbn [app frame List.length]. unfold BATCH_SIZE.
    destruct (Z.eqb_spec (pos + 1) 16) as [E|E].
    + rewrite IH by lia. cbn [app]. do 4 f_equal.
      rewrite Nat2Z.inj_succ.
      replace (pos + Z.succ (Z.of_nat (List.length l1)))
        with (0 + Z.of_nat (List.length l1) + 1 * 16) by lia.
      symmetry. apply Z.mod_add. lia.
    + rewrite IH by lia. cbn [app]. do 3 f_equal. f_equal. lia.
Qed.

(** What a run of the packer over [bits] stores and leaves behind. *)
Lemma encodeChar_group n : forall i c acc pos,
  0 <= i -> (List.length acc < 20)%nat -> 0 <= pos < 16 ->
  encodeChar n i c (packerOf acc pos)
  = let (cs, r) :=
      group acc (map (fun k => Z.testbit c (i + Z.of_nat k)) (seq 0 n)) in
    (frame pos (map dataWord cs),
     packerOf r ((pos + Z.of_nat (List.length cs)) mod 16)).
Proof.
  induction n as [|n IH]; intros i c acc pos Hi Hl Hp.
  - cbn [encodeChar seq map group frame List.length].
    rewrite Z.add_0_r, Z.mod_small by lia. reflexivity.
  - cbn [encodeChar]. rewrite pushBit_packerOf by assumption. cbv zeta.
    rewrite <- cons_seq, <- seq_shift. cbn [map]. rewrite map_map.
    cbn [group].
    change (Z.of_nat 0) with 0. rewrite Z.add_0_r.
    replace (map (fun x => Z.testbit c (i + Z.of_nat (S x))) (seq 0 n))
      with (map (fun k => Z.testbit c (i + 1 + Z.of_nat k)) (seq 0 n))
      by (apply map_ext; intros a; f_equal; lia).
    destruct (Nat.eqb_spec (List.length (acc ++ [Z.testbit c i])) 20)
      as [E|E].
    + assert (Hq : 0 <= (pos + 1) mod 16 < 16)
        by (apply Z.mod_pos_bound; lia).
      rewrite IH by (try assumption; cbn; lia).
      destruct (group [] _) as [cs r].
      cbn [map List.length]. f_equal.
      * cbn [frame]. unfold BATCH_SIZE.
        rewrite <- (next_position pos Hp). unfold BATCH_SIZE.
        now destruct (pos + 1 =? 16).
      * f_equal. rewrite Nat2Z.inj_succ.
        rewrite Zplus_mod_idemp_l. f_equal. lia.
    + rewrite IH;
        [ | lia | rewrite length_app in *; cbn [List.length] in *; lia
          | assumption ].
      now destruct (group _ _).
Qed.

Lemma encodeASCII_loop_group str : forall acc pos,
  (List.length acc < 20)%nat -> 0 <= pos < 16 ->
  encodeASCII_loop str (packerOf acc pos)
  = let (cs, r) := group acc (textBits str) in
    (frame pos (map dataWord cs),
     packerOf r ((pos + Z.of_nat (List.length cs)) mod 16)).
Proof.
  induction str as [|ch rest IH]; intros acc pos Hl Hp.
  - cbn [encodeASCII_loop textBits group map frame List.length].
    rewrite Z.add_0_r, Z.mod_small by lia. reflexivity.
  - cbn [encodeASCII_loop textBits].
    destruct (byte_of ch =? 0).
    + cbn [group map frame List.length].
      rewrite Z.add_0_r, Z.mod_small by lia. reflexivity.
    + change (Z.to_nat TEXT_BITS_PER_CHAR) with 7%nat.
      rewrite encodeChar_group by (try assumption; lia).
      change (map (fun k => Z.testbit (byte_of ch) (0 + Z.of_nat k))
                  (seq 0 7)) with (charBits (byte_of ch)).
      rewrite group_app.
      pose proof (group_rest_length (charBits (byte_of ch)) acc Hl) as Hr.
      destruct (group acc (charBits (byte_of ch))) as [cs1 r1].
      cbn [snd] in Hr.
      assert (Hq : 0 <= (pos + Z.of_nat (List.length cs1)) mod 16 < 16)
        by (apply Z.mod_pos_bound; lia).
      rewrite IH by assumption.
      destruct (group r1 (textBits rest)) as [cs2 r2].
      rewrite map_app, frame_app, length_map, length_app by assumption.
      f_equal. f_equal. rewrite Zplus_mod_idemp_l. f_equal. lia.
Qed.

(** The text packer cuts the bit stream of the string into groups of 20
    bits, encodes each as a data codeword and lays them out in batches. *)
Lemma encodeASCII_frame off str :
  0 <= off < 16 ->
  encodeASCII off str = frame off (map dataWord (chunks (textBits str))).
Proof.
  intros Ho. unfold encodeASCII, chunks.
  change (mkPacker 0 0 off) with (packerOf [] off).
  rewrite encodeASCII_loop_group by (try assumption; cbn; lia).
  pose proof (group_rest_length (textBits str) [] ltac:(cbn; lia)) as Hr.
  destruct (group [] (textBits str)) as [cs r]. cbn [snd] in Hr.
  unfold packerOf. cbn [currentWord currentNumBits wordPosition].
  destruct r as [|b r]; [reflexivity|].
  replace (0 <? Z.of_nat (List.length (b :: r))) with true
    by (symmetry; apply Z.ltb_lt; cbn [List.length]; lia).
  assert (Hq : 0 <= (off + Z.of_nat (List.length cs)) mod 16 < 16)
    by (apply Z.mod_pos_bound; lia).
  rewrite writeWord_frame by assumption. cbn [fst].
  rewrite map_app, frame_app, length_map by assumption. cbn [map].
  do 4 f_equal. unfold dataWord. do 2 f_equal.
  rewrite bitsZ_zeros, Z.shiftl_mul_pow2 by lia.
  replace (Z.of_nat (20 - List.length (b :: r)))
    with (20 - Z.of_nat (List.length (b :: r))) by lia.
  apply u32_small.
  pose proof (bitsZ_zeros (b :: r) (20 - List.length (b :: r))) as Hz.
  pose proof (bitsZ_lt ((b :: r) ++ repeat false (20 - List.length (b :: r)))
                20) as Hb.
  rewrite length_app, repeat_length in Hb. specialize (Hb ltac:(lia)).
  rewrite Hz in Hb.
  replace (Z.of_nat (20 - List.length (b :: r)))
    with (20 - Z.of_nat (List.length (b :: r))) in Hb by lia.
  change (2 ^ Z.of_nat 20) with 1048576 in Hb.
  change (2 ^ 32) with 4294967296. lia.
Qed.

End Packer.

(** ** Word counts *)

Section Length.

Lemma strlen_nonneg s : 0 <= strlen s.
Proof.
  induction s as [|ch rest IH]; cbn [strlen]; [lia|].
  destruct (byte_of ch =? 0); lia.
Qed.

Lemma textBits_length s :
  Z.of_nat (List.length (textBits s)) = 7 * strlen s.
Proof.
  induction s as [|ch rest IH]; cbn [textBits strlen]; [reflexivity|].
  destruct (byte_of ch =? 0); [reflexivity|].
  rewrite length_app, Nat2Z.inj_add, IH.
  unfold charBits. rewrite length_map, length_seq. lia.
Qed.

Lemma group_count bits : forall acc,
  (List.length acc < 20)%nat ->
  (20 * List.length (fst (group acc bits))
   + List.length (snd (group acc bits))
   = List.length acc + List.length bits)%nat.
Proof.
  induction bits as [|b bits IH]; intros acc Hl; cbn [group].
  - cbn [fst snd List.length]. lia.
  - destruct (Nat.eqb_spec (List.length (acc ++ [b])) 20) as [E|E];
      rewrite length_app in E; cbn [List.length] in E.
    + specialize (IH [] ltac:(cbn; lia)).
      destruct (group [] bits) as [cs r].
      cbn [fst snd List.length] in *. lia.
    + specialize (IH (acc ++ [b])). rewrite length_app in IH.
      cbn [List.length] in *. lia.
Qed.

Lemma chunks_length bits :
  Z.of_nat (List.length (chunks bits))
  = (Z.of_nat (List.length bits) + 19) / 20.
Proof.
  unfold chunks.
  pose proof (group_count bits [] ltac:(cbn; lia)) as Hc.
  pose proof (group_rest_length bits [] ltac:(cbn; lia)) as Hr.
  destruct (group [] bits) as [cs r]. cbn [fst snd List.length] in *.
  destruct r as [|b r].
  - cbn [List.length] in Hc.
    apply (Z.div_unique _ 20 _ 19); lia.
  - rewrite length_app. cbn [List.length] in *.
    apply (Z.div_unique _ 20 _ (Z.of_nat (List.length r))); lia.
Qed.

Lemma frame_length ws : forall pos,
  0 <= pos < 16 ->
  Z.of_nat (List.length (frame pos ws))
  = Z.of_nat (List.length ws) + (pos + Z.of_nat (List.length ws)) / 16.
Proof.
  induction ws as [|w ws IH]; intros pos Hp; cbn [frame List.length].
  - rewrite Z.add_0_r, Z.div_small by lia. reflexivity.
  - unfold BATCH_SIZE.
    destruct (Z.eqb_spec (pos + 1) 16) as [E|E]; cbn [List.length];
      rewrite !Nat2Z.inj_succ, IH by lia.
    + replace (pos + Z.succ (Z.of_nat (List.length ws)))
        with (0 + Z.of_nat (List.length ws) + 1 * 16) by lia.
      rewrite Z.div_add by lia. lia.
    + replace (pos + Z.succ (Z.of_nat (List.length ws)))
        with (pos + 1 + Z.of_nat (List.length ws)) by lia.
      lia.
Qed.

Lemma encodeASCII_length off str :
  0 <= off < 16 ->
  Z.of_nat (List.length (encodeASCII off str))
  = textWords (strlen str) + (off + textWords (strlen str)) / 16.
Proof.
  intros Ho. rewrite encodeASCII_frame by assumption.
  rewrite frame_length by assumption.
  rewrite length_map, chunks_length, textBits_length. reflexivity.
Qed.

Lemma addressOffset_value address :
  addressOffset (u32 address) = 2 * (address mod 8).
Proof.
  unfold addressOffset, FRAME_SIZE, u32 at 2.
  change 0x7 with (Z.ones 3). rewrite Z.land_ones by lia.
  change (2 ^ 3) with 8.
  rewrite Z.mod_mod_divide by (exists (2 ^ 29); reflexivity).
  pose proof (Z.mod_pos_bound address 8 ltac:(lia)).
  rewrite u32_small by fits32. lia.
Qed.

Lemma transmissionBody_length address message :
  Z.of_nat (List.length (transmissionBody address message))
  = 3 + 2 * (address mod 8) + textWords (strlen message)
    + (2 * (address mod 8) + 1 + textWords (strlen message)) / 16.
Proof.
  unfold transmissionBody. cbv zeta.
  rewrite addressOffset_value.
  pose proof (Z.mod_pos_bound address 8 ltac:(lia)) as Ha.
  rewrite (u32_small (2 * (address mod 8) + 1))
    by fits32.
  rewrite !length_app, repeat_length. cbn [List.length].
  rewrite !Nat2Z.inj_add, encodeASCII_length by lia.
  rewrite Z2Nat.id by lia. change (Z.of_nat 1) with 1. lia.
Qed.

Lemma paddingLength_value written :
  0 <= written -> paddingLength written = 17 - written mod 17.
Proof.
  intros Hw. unfold paddingLength, BATCH_SIZE.
  change (u32 (16 + 1)) with 17.
  pose proof (Z.mod_pos_bound written 17 ltac:(lia)).
  rewrite (u32_small (written mod 17))
    by fits32.
  apply u32_small. change (2 ^ 32) with 4294967296. lia.
Qed.

(** The number of words of a transmission, through the length of its
    message only. *)
Lemma encodeTransmission_length address message :
  let written :=
    u32 (3 + 2 * (address mod 8) + textWords (strlen message)
         + (2 * (address mod 8) + 1 + textWords (strlen message)) / 16) in
  Z.of_nat (List.length (encodeTransmission address message))
  = 18 + (3 + 2 * (address mod 8) + textWords (strlen message)
          + (2 * (address mod 8) + 1 + textWords (strlen message)) / 16)
    + (17 - written mod 17).
Proof.
  cbv zeta. unfold encodeTransmission. cbv zeta.
  rewrite !length_app, !repeat_length, !Nat2Z.inj_add.
  rewrite transmissionBody_length.
  rewrite paddingLength_value by apply u32_range.
  pose proof (Z.mod_pos_bound
    (u32 (3 + 2 * (address mod 8) + textWords (strlen message)
          + (2 * (address mod 8) + 1 + textWords (strlen message)) / 16))
    17 ltac:(lia)).
  change (Z.of_nat (Z.to_nat (PREAMBLE_LENGTH / 32))) with 18.
  rewrite Z2Nat.id by lia. lia.
Qed.

End Length.

(** ** The length calculator and the assembler *)

Section Agreement.

Lemma textMessageLength_value address numChars :
  0 <= numChars -> numChars * 7 + 19 <= INT_MAX ->
  textMessageLength address numChars
  = 18 + 17 * ((2 * (address mod 8) + 2 + textWords numChars) / 16 + 1).
Proof.
  intros Hn Hmax. unfold textMessageLength. cbv zeta.
  rewrite addressOffset_value.
  unfold TEXT_BITS_PER_CHAR, TEXT_BITS_PER_WORD, BATCH_SIZE, INT_MAX in *.
  change (PREAMBLE_LENGTH / 32) with 18. change (20 - 1) with 19.
  rewrite (s32_small (numChars * 7))
    by (change (2 ^ 31) with 2147483648; lia).
  rewrite (s32_small (numChars * 7 + 19))
    by (change (2 ^ 31) with 2147483648; lia).
  rewrite Z.quot_div_nonneg by lia.
  replace (numChars * 7 + 19) with (7 * numChars + 19) by lia.
  fold (textWords numChars).
  assert (Hd : 0 <= textWords numChars <= 107374182)
    by (unfold textWords; divlia).
  generalize dependent (textWords numChars). intros d Hd.
  pose proof (Z.mod_pos_bound address 8 ltac:(lia)) as Ho.
  generalize dependent (address mod 8). intros o Ho.
  change (2 ^ 32) with 4294967296 in *.
  rewrite (u32_small (0 + 2 * o)) by fits32_div.
  rewrite (u32_small (0 + 2 * o + 1))
    by fits32_div.
  rewrite (u32_small d) by fits32_div.
  rewrite (u32_small (0 + 2 * o + 1 + d))
    by fits32_div.
  rewrite (u32_small (0 + 2 * o + 1 + d + 1))
    by fits32_div.
  set (w := 0 + 2 * o + 1 + d + 1).
  assert (Hw : 0 <= w <= 107374200) by (subst w; lia).
  replace (2 * o + 2 + d) with w by (subst w; lia).
  clearbody w.
  rewrite (u32_small (16 - w mod 16))
    by fits32_div.
  rewrite (u32_small (w + (16 - w mod 16)))
    by fits32_div.
  replace (w + (16 - w mod 16)) with (16 * (w / 16 + 1)) by divlia.
  replace (16 * (w / 16 + 1) / 16) with (w / 16 + 1) by divlia.
  rewrite (u32_small (16 * (w / 16 + 1) + (w / 16 + 1)))
    by fits32_div.
  rewrite u32_small by fits32_div.
  divlia.
Qed.

Lemma encodeTransmission_count address message :
  strlen message * 7 + 19 <= INT_MAX ->
  Z.of_nat (List.length (encodeTransmission address message))
  = 18 + 17 * ((2 * (address mod 8) + 2 + textWords (strlen message)) / 16
               + 1).
Proof.
  intros Hmax. rewrite encodeTransmission_length. cbv zeta.
  pose proof (strlen_nonneg message) as Hn.
  assert (Hd : 0 <= textWords (strlen message) <= 107374182)
    by (unfold textWords, INT_MAX in *; divlia).
  generalize dependent (textWords (strlen message)). intros d Hd.
  pose proof (Z.mod_pos_bound address 8 ltac:(lia)) as Ho.
  generalize dependent (address mod 8). intros o Ho.
  rewrite u32_small by fits32_div.
  divlia.
Qed.

End Agreement.

(** ** The layout of a transmission *)

Section Layout.

Lemma afterPreamble_encodeTransmission address message :
  afterPreamble (encodeTransmission address message)
  = transmissionBody address message
    ++ repeat IDLE
         (Z.to_nat
            (paddingLength
               (u32 (Z.of_nat
                       (List.length (transmissionBody address message)))))).
Proof. reflexivity. Qed.

Lemma addressPayload_value address :
  0 <= address < 2 ^ 21 ->
  addressPayload address = address / 8 * 4 + 3
  /\ 0 <= addressPayload address < 2 ^ 20.
Proof.
  intros Ha. unfold addressPayload, FLAG_TEXT_DATA.
  rewrite Z.shiftl_mul_pow2, Z.shiftr_div_pow2 by lia.
  rewrite lor_shifted by (change (2 ^ 2) with 4; lia).
  change (2 ^ 21) with 2097152 in Ha.
  change (2 ^ 3) with 8. change (2 ^ 2) with 4.
  change (2 ^ 20) with 1048576. divlia.
Qed.

Lemma addressPayload_fields address :
  0 <= address < 2 ^ 21 ->
  Z.shiftr (addressPayload address) 2 = Z.shiftr address 3
  /\ Z.land (addressPayload address) 3 = 3.
Proof.
  intros Ha. destruct (addressPayload_value address Ha) as [-> _].
  pose proof (Z.land_ones (address / 8 * 4 + 3) 2 ltac:(lia)) as E.
  change (Z.ones 2) with 3 in E. rewrite E.
  rewrite !Z.shiftr_div_pow2 by lia.
  change (2 ^ 3) with 8. change (2 ^ 2) with 4. divlia.
Qed.

End Layout.

(** ** The text carried by the data codewords *)

Section Text.

Lemma testbit_shifted_sum b r n i :
  0 <= n -> 0 <= r < 2 ^ n -> 0 <= i ->
  Z.testbit (Z.b2z b * 2 ^ n + r) i
  = if i =? n then b else if i <? n then Z.testbit r i else false.
Proof.
  intros Hn Hr Hi.
  rewrite <- lor_shifted, Z.lor_spec by assumption.
  destruct (Z.eqb_spec i n) as [->|Hne].
  - rewrite Z.mul_pow2_bits, Z.sub_diag, Z.b2z_bit0 by lia.
    rewrite (testbit_high r n n) by lia. apply orb_false_r.
  - destruct (Z.ltb_spec i n) as [Hlt|Hge].
    + now rewrite Z.mul_pow2_bits_low by lia.
    + rewrite Z.mul_pow2_bits by lia.
      rewrite (testbit_high r n i) by lia.
      rewrite (testbit_high (Z.b2z b) 1 (i - n));
        [reflexivity | lia | destruct b; cbn; lia | lia].
Qed.

Lemma toBits_ext n : forall x y,
  (forall i, 0 <= i < Z.of_nat n -> Z.testbit x i = Z.testbit y i) ->
  toBits n x = toBits n y.
Proof.
  induction n as [|n IH]; intros x y H; cbn [toBits]; [reflexivity|].
  f_equal.
  - apply H. lia.
  - apply IH. intros i Hi. apply H. lia.
Qed.

Lemma toBits_bitsZ l : toBits (List.length l) (bitsZ l) = l.
Proof.
  induction l as [|b l IH]; [reflexivity|].
  cbn [List.length toBits bitsZ].
  pose proof (bitsZ_range l) as Hr.
  f_equal.
  - rewrite testbit_shifted_sum by lia. now rewrite Z.eqb_refl.
  - transitivity (toBits (List.length l) (bitsZ l)); [|exact IH].
    apply toBits_ext. intros i Hi.
    rewrite testbit_shifted_sum by lia.
    destruct (Z.eqb_spec i (Z.of_nat (List.length l))) as [E|E]; [lia|].
    destruct (Z.ltb_spec i (Z.of_nat (List.length l))); [reflexivity|lia].
Qed.

Lemma flagged_chunk chunk :
  List.length chunk = 20%nat ->
  Z.lor (bitsZ chunk) FLAG_MESSAGE = 2 ^ 20 + bitsZ chunk
  /\ 0 <= bitsZ chunk < 2 ^ 20.
Proof.
  intros Hl. pose proof (bitsZ_range chunk) as Hr. rewrite Hl in Hr.
  change (Z.of_nat 20) with 20 in Hr. split; [|assumption].
  rewrite Z.lor_comm. change FLAG_MESSAGE with (1 * 2 ^ 20).
  rewrite lor_shifted by (try assumption; lia). lia.
Qed.

Lemma dataWord_payload chunk :
  List.length chunk = 20%nat ->
  Z.shiftr (dataWord chunk) 11 = 2 ^ 20 + bitsZ chunk.
Proof.
  intros Hl. destruct (flagged_chunk chunk Hl) as [E Hr].
  unfold dataWord. rewrite E. apply encodeCodeword_payload.
  change (2 ^ 20) with 1048576 in *. change (2 ^ 21) with 2097152. lia.
Qed.

(** The payload bits of a data codeword are the 20 bits it was built
    from. *)
Lemma payloadBits_dataWord chunk :
  List.length chunk = 20%nat -> payloadBits (dataWord chunk) = chunk.
Proof.
  intros Hl. unfold payloadBits. rewrite dataWord_payload by assumption.
  destruct (flagged_chunk chunk Hl) as [_ Hr].
  change 0xFFFFF with (Z.ones 20). rewrite Z.land_ones by lia.
  replace (2 ^ 20 + bitsZ chunk) with (bitsZ chunk + 1 * 2 ^ 20) by lia.
  rewrite Z.mod_add, Z.mod_small by (try assumption; lia).
  rewrite <- Hl at 1. apply toBits_bitsZ.
Qed.

Lemma isDataWord_dataWord chunk :
  List.length chunk = 20%nat -> isDataWord (dataWord chunk) = true.
Proof.
  intros Hl.
  assert (Hb : Z.testbit (dataWord chunk) 31 = true).
  { replace 31 with (20 + 11) by lia.
    rewrite <- Z.shiftr_spec by lia.
    rewrite dataWord_payload by assumption.
    destruct (flagged_chunk chunk Hl) as [_ Hr].
    replace (2 ^ 20 + bitsZ chunk) with (Z.b2z true * 2 ^ 20 + bitsZ chunk)
      by (cbn [Z.b2z]; lia).
    rewrite testbit_shifted_sum by (try assumption; lia).
    reflexivity. }
  unfold isDataWord. rewrite Hb.
  destruct (Z.eqb_spec (dataWord chunk) SYNC) as [E|_];
    [rewrite E in Hb; discriminate|].
  destruct (Z.eqb_spec (dataWord chunk) IDLE) as [E|_];
    [rewrite E in Hb; discriminate|].
  reflexivity.
Qed.

Lemma filter_frame ws : forall pos,
  Forall (fun w => isDataWord w = true) ws ->
  filter isDataWord (frame pos ws) = ws.
Proof.
  induction ws as [|w ws IH]; intros pos H; [reflexivity|].
  inversion H as [|? ? Hw Hws]; subst.
  cbn [frame].
  destruct (pos + 1 =? BATCH_SIZE); cbn [filter]; rewrite Hw.
  - change (isDataWord SYNC) with false. cbv iota. now rewrite IH.
  - now rewrite IH.
Qed.

Lemma filter_idle n : filter isDataWord (repeat IDLE n) = [].
Proof. induction n as [|n IH]; [reflexivity|]. cbn [repeat filter]. exact IH. Qed.

Lemma group_concat bits : forall acc,
  (List.length acc < 20)%nat ->
  Forall (fun c => List.length c = 20%nat) (fst (group acc bits))
  /\ List.concat (fst (group acc bits)) ++ snd (group acc bits)
     = acc ++ bits.
Proof.
  induction bits as [|b bits IH]; intros acc Hl; cbn [group].
  - cbn [fst snd List.concat app]. split; [constructor|].
    now rewrite app_nil_r.
  - destruct (Nat.eqb_spec (List.length (acc ++ [b])) 20) as [E|E].
    + destruct (IH [] ltac:(cbn; lia)) as [Hf Hc].
      destruct (group [] bits) as [cs r]. cbn [fst snd List.concat] in *.
      split; [now constructor|].
      rewrite <- !app_assoc. cbn [app] in *. now rewrite Hc.
    + rewrite length_app in E. cbn [List.length] in E.
      destruct (IH (acc ++ [b])) as [Hf Hc];
        [rewrite length_app; cbn [List.length]; lia|].
      split; [assumption|]. rewrite Hc, <- app_assoc. reflexivity.
Qed.

Lemma chunks_spec bits :
  Forall (fun c => List.length c = 20%nat) (chunks bits)
  /\ exists k,
       (k < 20)%nat /\ List.concat (chunks bits) = bits ++ repeat false k.
Proof.
  unfold chunks.
  destruct (group_concat bits [] ltac:(cbn; lia)) as [Hf Hc].
  pose proof (group_rest_length bits [] ltac:(cbn; lia)) as Hr.
  destruct (group [] bits) as [cs r]. cbn [fst snd app] in *.
  destruct r as [|b r].
  - split; [assumption|]. exists 0%nat. split; [lia|].
    cbn [repeat]. rewrite app_nil_r in *. assumption.
  - split.
    + apply Forall_app. split; [assumption|]. constructor; [|constructor].
      rewrite length_app, repeat_length. lia.
    + exists (20 - List.length (b :: r))%nat. split; [cbn [List.length]; lia|].
      rewrite concat_app. cbn [List.concat]. rewrite app_nil_r, app_assoc.
      now rewrite Hc.
Qed.

Lemma payloadBits_chunks cs :
  Forall (fun c => List.length c = 20%nat) cs ->
  flat_map payloadBits (map dataWord cs) = List.concat cs
  /\ Forall (fun w => isDataWord w = true) (map dataWord cs).
Proof.
  induction 1 as [|c cs Hc Hcs [IH1 IH2]]; [split; [reflexivity|constructor]|].
  cbn [map flat_map List.concat]. split.
  - now rewrite payloadBits_dataWord, IH1.
  - constructor; [now apply isDataWord_dataWord|assumption].
Qed.

(** The data codewords of a transmission are those of the text packer. *)
Lemma dataWords_encodeTransmission address message :
  0 <= address < 2 ^ 21 ->
  dataWords (encodeTransmission address message)
  = map dataWord (chunks (textBits message)).
Proof.
  intros Ha. unfold dataWords.
  rewrite afterPreamble_encodeTransmission. unfold transmissionBody.
  cbv zeta. rewrite addressOffset_value.
  pose proof (Z.mod_pos_bound address 8 ltac:(lia)) as Ho.
  rewrite (u32_small (2 * (address mod 8) + 1))
    by fits32.
  rewrite encodeASCII_frame by lia.
  destruct (addressPayload_value address Ha) as [_ Hp].
  rewrite (u32_small (addressPayload address))
    by (change (2 ^ 20) with 1048576 in Hp;
        change (2 ^ 32) with 4294967296; lia).
  assert (Hadr : isDataWord (encodeCodeword (addressPayload address))
                 = false).
  { unfold isDataWord.
    rewrite (testbit_high (encodeCodeword (addressPayload address)) 31);
      [apply andb_false_r | lia | | lia].
    pose proof (encodeCodeword_range (addressPayload address)) as Hr.
    change (2 ^ 20) with 1048576 in Hp. change (2 ^ 21) with 2097152 in Hr.
    change (2 ^ 11) with 2048 in Hr. change (2 ^ 31) with 2147483648.
    specialize (Hr ltac:(lia)).
    generalize dependent (encodeCodeword (addressPayload address)).
    generalize dependent (addressPayload address). intros; lia. }
  destruct (chunks_spec (textBits message)) as [Hf _].
  destruct (payloadBits_chunks _ Hf) as [_ Hd].
  rewrite !filter_app, !filter_idle, filter_frame by assumption.
  cbn [filter]. rewrite Hadr.
  change (isDataWord SYNC) with false. change (isDataWord IDLE) with false.
  cbn [app]. now rewrite !app_nil_r.
Qed.

Lemma charBits_ascii a0 a1 a2 a3 a4 a5 a6 a7 :
  charBits (byte_of (Ascii a0 a1 a2 a3 a4 a5 a6 a7))
  = [a0; a1; a2; a3; a4; a5; a6].
Proof.
  destruct a0, a1, a2, a3, a4, a5, a6, a7; reflexivity.
Qed.

Lemma sevenBit_ascii a0 a1 a2 a3 a4 a5 a6 a7 :
  sevenBit (Ascii a0 a1 a2 a3 a4 a5 a6 a7) = true ->
  a7 = false /\ (byte_of (Ascii a0 a1 a2 a3 a4 a5 a6 false) =? 0) = false.
Proof.
  destruct a0, a1, a2, a3, a4, a5, a6, a7; cbn; intros H;
    (discriminate H || (split; reflexivity)).
Qed.

Lemma textBits_safe message :
  sevenBitSafe message = true ->
  textBits message
  = flat_map (fun ch => charBits (byte_of ch)) (list_ascii_of_string message).
Proof.
  induction message as [|ch rest IH]; [reflexivity|].
  cbn [sevenBitSafe textBits list_ascii_of_string flat_map].
  intros H. apply andb_prop in H as [Hc Hr].
  unfold sevenBit in Hc. apply andb_prop in Hc as [Hpos _].
  apply Z.ltb_lt in Hpos.
  destruct (Z.eqb_spec (byte_of ch) 0) as [E|_]; [lia|].
  now rewrite IH.
Qed.

Lemma decodeText_zeros k : decodeText (repeat false k) = EmptyString.
Proof. do 7 (destruct k as [|k]; [reflexivity|]). reflexivity. Qed.

Lemma decodeText_textBits message : forall k,
  sevenBitSafe message = true ->
  decodeText (textBits message ++ repeat false k) = message.
Proof.
  induction message as [|ch rest IH]; intros k H.
  - cbn [textBits app]. apply decodeText_zeros.
  - cbn [sevenBitSafe] in H. apply andb_prop in H as [Hc Hr].
    cbn [textBits].
    destruct ch as [a0 a1 a2 a3 a4 a5 a6 a7].
    destruct (sevenBit_ascii _ _ _ _ _ _ _ _ Hc) as [-> Hnz].
    rewrite Hnz, charBits_ascii. cbn [app decodeText].
    rewrite Hnz. now rewrite IH.
Qed.

End Text.

(** ** The PCM synthesizer *)

Section Pcm.

Lemma sampleOf_bit b : sampleOf (Z.b2z b) = if b then -16383 else 16383.
Proof. now destruct b. Qed.

Lemma bitLoop_length n : forall bitNum R val,
  List.length (bitLoop n bitNum R val) = (n * Z.to_nat R)%nat.
Proof.
  induction n as [|n IH]; intros bitNum R val; cbn [bitLoop]; [reflexivity|].
  rewrite length_app, repeat_length, IH. lia.
Qed.

(** Sample [s] of the samples stored for one word. *)
Lemma bitLoop_nth n : forall bitNum R val s,
  0 < R -> 0 <= s < Z.of_nat n * R ->
  nth_error (bitLoop n bitNum R val) (Z.to_nat s)
  = Some (sampleOf (Z.land (Z.shiftr val (31 - (bitNum + s / R))) 1)).
Proof.
  induction n as [|n IH]; intros bitNum R val s HR Hs; [lia|].
  cbn [bitLoop].
  destruct (Z_lt_le_dec s R) as [Hlt|Hge].
  - rewrite nth_error_app1 by (rewrite repeat_length; lia).
    rewrite nth_error_repeat by lia.
    rewrite Z.div_small, Z.add_0_r by lia. reflexivity.
  - rewrite nth_error_app2 by (rewrite repeat_length; lia).
    rewrite repeat_length, <- Z2Nat.inj_sub by lia.
    rewrite IH by lia.
    replace (s - R) with (s + -1 * R) by lia.
    rewrite Z.div_add by lia.
    do 5 f_equal. lia.
Qed.

Lemma skipn_nth_error {A} k : forall (l : list A) v,
  nth_error l k = Some v -> skipn k l = v :: skipn (S k) l.
Proof.
  induction k as [|k IH]; intros [|a l] v H; try discriminate.
  - now injection H as ->.
  - cbn [nth_error] in H. cbn [skipn]. now apply IH.
Qed.

Lemma wordLoop_wave R n : forall i transmission,
  0 <= i -> (Z.to_nat i + n <= List.length transmission)%nat ->
  wordLoop n i R transmission
  = Some (wave R (firstn n (skipn (Z.to_nat i) transmission))).
Proof.
  induction n as [|n IH]; intros i transmission Hi Hn; [reflexivity|].
  cbn [wordLoop].
  destruct (nth_error transmission (Z.to_nat i)) as [val|] eqn:E.
  - cbn [bind]. rewrite IH by lia. cbn [bind].
    rewrite (skipn_nth_error _ _ _ E). cbn [firstn].
    replace (Z.to_nat (i + 1)) with (S (Z.to_nat i)) by lia.
    reflexivity.
  - apply nth_error_None in E. lia.
Qed.

Lemma wave_length R ws :
  List.length (wave R ws) = (List.length ws * 32 * Z.to_nat R)%nat.
Proof.
  induction ws as [|w ws IH]; [reflexivity|].
  unfold wave in *. cbn [flat_map List.length].
  rewrite length_app, IH, bitLoop_length. lia.
Qed.

(** The samples stored by the word loop are the waveform of the
    specification. *)
Lemma wave_nth R ws : forall s,
  0 < R -> 0 <= s < Z.of_nat (List.length ws) * 32 * R ->
  nth_error (wave R ws) (Z.to_nat s) = Some (waveformSample R ws s).
Proof.
  induction ws as [|w ws IH]; intros s HR Hs; [cbn in Hs; lia|].
  unfold wave in *. cbn [flat_map].
  cbn [List.length] in Hs. rewrite Nat2Z.inj_succ in Hs.
  destruct (Z_lt_le_dec s (32 * R)) as [Hlt|Hge].
  - rewrite nth_error_app1 by (rewrite bitLoop_length; lia).
    rewrite bitLoop_nth by (try assumption; change (Z.of_nat 32) with 32; lia).
    assert (Hq : 0 <= s / R < 32)
      by (split; [apply Z.div_pos; lia
                 | apply Z.div_lt_upper_bound; lia]).
    rewrite land_shiftr_1 by lia. rewrite sampleOf_bit.
    unfold waveformSample.
    rewrite (Z.div_small s (32 * R)), (Z.mod_small (s / R) 32) by lia.
    reflexivity.
  - rewrite nth_error_app2 by (rewrite bitLoop_length; lia).
    rewrite bitLoop_length.
    replace (Z.to_nat s - 32 * Z.to_nat R)%nat with (Z.to_nat (s - 32 * R))
      by lia.
    rewrite IH by (try assumption; lia).
    unfold waveformSample.
    replace (s - 32 * R) with (s + -1 * (32 * R)) by lia.
    rewrite Z.div_add by lia.
    replace (s + -1 * (32 * R)) with (s + -32 * R) by lia.
    rewrite Z.div_add by lia.
    replace (s / R + -32) with (s / R + -1 * 32) by lia.
    rewrite Z.mod_add by lia.
    assert (Hw : 1 <= s / (32 * R))
      by (apply Z.div_le_lower_bound; lia).
    replace (Z.to_nat (s / (32 * R))) with (S (Z.to_nat (s / (32 * R) + -1)))
      by lia.
    reflexivity.
Qed.

(** The resampling loop succeeds when every index it reads is inside
    [samples], and then stores two bytes per iteration. *)
Lemma resampleLoop_some n : forall i sampleRate samples,
  0 <= i ->
  (forall k, 0 <= k < Z.of_nat n ->
     0 <= readIndex sampleRate (i + 2 * k) < Z.of_nat (List.length samples)) ->
  exists out,
    resampleLoop n i sampleRate samples = Some out
    /\ List.length out = (2 * n)%nat
    /\ forall k, 0 <= k < Z.of_nat n ->
       exists x,
         nth_error samples (Z.to_nat (readIndex sampleRate (i + 2 * k)))
         = Some x
         /\ nth_error out (Z.to_nat (2 * k)) = Some (Z.land x 0xFF)
         /\ nth_error out (Z.to_nat (2 * k + 1))
            = Some (Z.land (Z.shiftr x 8) 0xFF).
Proof.
  induction n as [|n IH]; intros i sampleRate samples Hi Hidx.
  - exists []. repeat split. intros k Hk. lia.
  - cbn [resampleLoop].
    destruct (nth_error samples (Z.to_nat (readIndex sampleRate i)))
      as [x|] eqn:E.
    + destruct (IH (i + 2) sampleRate samples ltac:(lia)) as [out [Ho [Hl Hb]]].
      { intros k Hk. replace (i + 2 + 2 * k) with (i + 2 * (k + 1)) by lia.
        apply Hidx. lia. }
      cbn [bind]. rewrite Ho. cbn [bind]. eexists. split; [reflexivity|].
      split; [cbn [List.length]; lia|].
      intros k Hk.
      destruct (Z.eq_dec k 0) as [->|Hne].
      * exists x. rewrite Z.mul_0_r, Z.add_0_r. now split.
      * destruct (Hb (k - 1) ltac:(lia)) as [y [Hy [H0 H1]]].
        exists y.
        replace (i + 2 * k) with (i + 2 + 2 * (k - 1)) by lia.
        split; [assumption|].
        replace (Z.to_nat (2 * k)) with (S (S (Z.to_nat (2 * (k - 1)))))
          by lia.
        replace (Z.to_nat (2 * k + 1))
          with (S (S (Z.to_nat (2 * (k - 1) + 1)))) by lia.
        now split.
    + apply nth_error_None in E.
      specialize (Hidx 0 ltac:(lia)). rewrite Z.mul_0_r, Z.add_0_r in Hidx.
      lia.
Qed.

Lemma u32_le x : 0 <= x -> 0 <= u32 x <= x.
Proof.
  intros Hx. unfold u32. split.
  - apply Z.mod_pos_bound. reflexivity.
  - apply Z.mod_le; [assumption|reflexivity].
Qed.

Lemma repeats_positive baudRate :
  0 < baudRate -> (baudRate | SYMRATE) ->
  0 < SYMRATE / baudRate /\ SYMRATE / baudRate * baudRate = SYMRATE.
Proof.
  intros Hb [q Hq]. rewrite Hq, Z.div_mul by lia.
  split; [|reflexivity]. unfold SYMRATE in Hq. nia.
Qed.

(** Without wrap-around [pcmTransmissionLength] is the formula over the
    integers. *)
Lemma pcmTransmissionLength_value sampleRate baudRate n :
  lengthFits sampleRate baudRate n ->
  pcmTransmissionLength sampleRate baudRate n
  = n * 32 * sampleRate / baudRate * 2.
Proof.
  intros (Hsr & Hbr & Hn & H1 & H2).
  unfold pcmTransmissionLength.
  change (2 ^ 32) with 4294967296 in *.
  rewrite (u32_small (n * 32)) by fits32_nl.
  rewrite (u32_small (n * 32 * sampleRate))
    by fits32_nl.
  assert (Hq : 0 <= n * 32 * sampleRate / baudRate)
    by (apply Z.div_pos; nia).
  generalize dependent (n * 32 * sampleRate / baudRate). intros q H2 Hq.
  rewrite (u32_small q) by fits32.
  apply u32_small. change (2 ^ 32) with 4294967296. lia.
Qed.

(** Inside [pcmDomain] the two size computations are exact. *)
Lemma pcm_sizes sampleRate baudRate n :
  pcmDomain sampleRate baudRate n ->
  pcmTransmissionLength sampleRate baudRate n
  = n * 32 * sampleRate / baudRate * 2
  /\ allocatedSamples baudRate n = n * 32 * (SYMRATE / baudRate).
Proof.
  intros (Hfit & Hdiv & H3).
  split; [now apply pcmTransmissionLength_value|].
  destruct Hfit as (Hsr & Hbr & Hn & H1 & H2).
  destruct (repeats_positive baudRate Hbr Hdiv) as [HR _].
  unfold allocatedSamples. cbv zeta.
  generalize dependent (SYMRATE / baudRate). intros R H3 HR.
  change (2 ^ 32) with 4294967296 in *.
  rewrite (u32_small (2 * n)) by fits32_nl.
  rewrite (u32_small (2 * n * 32))
    by fits32_nl.
  rewrite (u32_small (2 * n * 32 * R))
    by fits32_nl.
  replace (2 * n * 32 * R) with (n * 32 * R * 2) by ring.
  apply Z.div_mul. lia.
Qed.

(** Inside [pcmDomain] every index the resampling loop reads is below the
    number of samples stored. *)
Lemma readIndex_in_bounds sampleRate baudRate n k :
  pcmDomain sampleRate baudRate n ->
  0 <= k < n * 32 * sampleRate / baudRate ->
  0 <= readIndex sampleRate (0 + 2 * k) < n * 32 * (SYMRATE / baudRate).
Proof.
  intros ((Hsr & Hbr & Hn & H1 & H2) & Hdiv & H3) Hk.
  destruct (repeats_positive baudRate Hbr Hdiv) as [HR HRb].
  unfold readIndex. rewrite Z.add_0_l.
  replace (2 * k / 2) with k
    by (rewrite Z.mul_comm, Z.div_mul; lia).
  pose proof (u32_le (k * SYMRATE) ltac:(unfold SYMRATE; lia)) as Hu.
  generalize dependent (u32 (k * SYMRATE)). intros x Hu.
  split; [apply Z.div_pos; lia|].
  apply Z.div_lt_upper_bound; [lia|].
  pose proof (Z.mul_div_le (n * 32 * sampleRate) baudRate Hbr) as Hm.
  generalize dependent (n * 32 * sampleRate / baudRate). intros M _ Hk Hm.
  rewrite <- HRb in Hu. clear HRb H3 Hdiv.
  set (R := SYMRATE / baudRate) in *. clearbody R.
  assert (Hb : (k + 1) * baudRate <= n * 32 * sampleRate) by nia.
  assert (Hc : (k + 1) * baudRate * R <= n * 32 * sampleRate * R)
    by (apply Z.mul_le_mono_nonneg_r; lia).
  nia.
Qed.

(** What [pcmEncodeTransmission] stores, inside [pcmDomain]: as many bytes
    as [pcmTransmissionLength] says, and for each output sample the two
    bytes of the waveform sample at the index read. *)
Lemma pcmEncodeTransmission_bytes sampleRate baudRate transmission n :
  pcmDomain sampleRate baudRate n ->
  n = Z.of_nat (List.length transmission) ->
  exists out,
    pcmEncodeTransmission sampleRate baudRate transmission n = Some out
    /\ Z.of_nat (List.length out)
       = pcmTransmissionLength sampleRate baudRate n
    /\ forall k,
         0 <= k < pcmTransmissionLength sampleRate baudRate n / 2 ->
         let x := waveformSample (SYMRATE / baudRate) transmission
                    (readIndex sampleRate (2 * k)) in
         nth_error out (Z.to_nat (2 * k)) = Some (Z.land x 0xFF)
         /\ nth_error out (Z.to_nat (2 * k + 1))
            = Some (Z.land (Z.shiftr x 8) 0xFF).
Proof.
  intros Hdom Hlen.
  destruct (pcm_sizes _ _ _ Hdom) as [HL HA].
  pose proof Hdom as ((Hsr & Hbr & Hn & H1 & H2) & Hdiv & H3).
  destruct (repeats_positive baudRate Hbr Hdiv) as [HR _].
  unfold pcmEncodeTransmission. cbv zeta. rewrite HA, HL.
  assert (HM : 0 <= n * 32 * sampleRate / baudRate)
    by (apply Z.div_pos; nia).
  pose proof (fun k => readIndex_in_bounds _ _ _ k Hdom) as Hidx.
  set (M := n * 32 * sampleRate / baudRate) in *.
  set (R := SYMRATE / baudRate) in *.
  rewrite (wordLoop_wave R (Z.to_nat n) 0 transmission) by lia.
  change (Z.to_nat 0) with 0%nat. cbn [skipn bind].
  replace (Z.to_nat n) with (List.length transmission) by lia.
  rewrite firstn_all.
  assert (Hw : Z.of_nat (List.length (wave R transmission)) = n * 32 * R)
    by (rewrite wave_length; nia).
  rewrite Hw.
  replace (n * 32 * R <? n * 32 * R) with false
    by (symmetry; apply Z.ltb_irrefl).
  replace ((M * 2 + 1) / 2) with M
    by (apply (Z.div_unique _ 2 M 1); lia).
  replace (M * 2 / 2) with M by (symmetry; apply Z.div_mul; lia).
  destruct (resampleLoop_some (Z.to_nat M) 0 sampleRate (wave R transmission))
    as [out [Ho [Hl Hb]]]; [lia| |].
  { intros k Hk. rewrite Hw. apply Hidx. lia. }
  exists out. split; [assumption|]. split; [lia|].
  intros k Hk. cbv zeta.
  destruct (Hb k ltac:(lia)) as [x [Hx [H0 H']]].
  rewrite Z.add_0_l in Hx.
  specialize (Hidx k Hk). rewrite Z.add_0_l in Hidx.
  rewrite wave_nth in Hx by (try assumption; lia).
  injection Hx as <-. now split.
Qed.

End Pcm.

(** ** The places of the SYNC words *)

Section Sync.

Lemma syncLayoutFrom_app k l1 l2 :
  syncLayoutFrom k l1 ->
  syncLayoutFrom (k + Z.of_nat (List.length l1)) l2 ->
  syncLayoutFrom k (l1 ++ l2).
Proof.
  intros H1 H2 i w Hi.
  destruct (Nat.lt_ge_cases i (List.length l1)) as [Hlt|Hge].
  - rewrite nth_error_app1 in Hi by assumption. now apply H1.
  - rewrite nth_error_app2 in Hi by assumption.
    apply H2 in Hi.
    replace (k + Z.of_nat (List.length l1)
             + Z.of_nat (i - List.length l1))
      with (k + Z.of_nat i) in Hi by lia.
    exact Hi.
Qed.

Lemma syncLayoutFrom_one k w :
  (w = SYNC <-> k mod 17 = 0) -> syncLayoutFrom k [w].
Proof.
  intros H [|[|i]] v Hi; cbn in Hi; try discriminate.
  injection Hi as <-. now rewrite Z.add_0_r.
Qed.

Lemma syncLayoutFrom_idle k n :
  (forall i, 0 <= i < Z.of_nat n -> (k + i) mod 17 <> 0) ->
  syncLayoutFrom k (repeat IDLE n).
Proof.
  intros H i w Hi.
  assert (Hlt : (i < n)%nat).
  { rewrite <- (repeat_length IDLE n). apply nth_error_Some. congruence. }
  rewrite nth_error_repeat in Hi by assumption. injection Hi as <-.
  split; [discriminate|]. intros E. exfalso. apply (H (Z.of_nat i)); lia.
Qed.

Lemma syncLayoutFrom_frame ws : forall k pos,
  0 <= pos < 16 -> k mod 17 = pos + 1 ->
  Forall (fun w => w <> SYNC) ws ->
  syncLayoutFrom k (frame pos ws).
Proof.
  induction ws as [|w ws IH]; intros k pos Hp Hk Hws.
  - intros [|i] v Hi; discriminate.
  - inversion Hws as [|? ? Hw Hws']; subst. cbn [frame]. unfold BATCH_SIZE.
    destruct (Z.eqb_spec (pos + 1) 16) as [E|E].
    + apply (syncLayoutFrom_app k [w; SYNC]).
      * apply (syncLayoutFrom_app k [w] [SYNC]).
        -- apply syncLayoutFrom_one. split; [contradiction|lia].
        -- apply syncLayoutFrom_one. cbn [List.length].
           split; [intros _|reflexivity]. divlia.
      * apply IH; [lia| |assumption]. cbn [List.length]. divlia.
    + apply (syncLayoutFrom_app k [w]).
      * apply syncLayoutFrom_one. split; [contradiction|lia].
      * apply IH; [lia| |assumption]. cbn [List.length]. divlia.
Qed.

Lemma dataWord_not_sync cs :
  Forall (fun c => List.length c = 20%nat) cs ->
  Forall (fun w => w <> SYNC) (map dataWord cs).
Proof.
  intros H. destruct (payloadBits_chunks cs H) as [_ Hd].
  apply Forall_forall. intros w Hw E. subst w.
  rewrite Forall_forall in Hd. specialize (Hd _ Hw). discriminate.
Qed.

(** Up to and including the terminating IDLE word, the SYNC words of a
    transmission are exactly the words at the multiples of 17. *)
Lemma transmissionBody_sync address message :
  0 <= address < 2 ^ 21 ->
  syncLayoutFrom 0 (transmissionBody address message).
Proof.
  intros Ha.
  pose proof (transmissionBody_length address message) as Hlen.
  unfold transmissionBody in *. cbv zeta in *.
  rewrite addressOffset_value in *.
  pose proof (Z.mod_pos_bound address 8 ltac:(lia)) as Ho.
  set (o := address mod 8) in *.
  rewrite (u32_small (2 * o + 1)) in *
    by fits32.
  rewrite encodeASCII_frame in * by lia.
  destruct (chunks_spec (textBits message)) as [Hf _].
  pose proof (dataWord_not_sync _ Hf) as Hns.
  set (ws := map dataWord (chunks (textBits message))) in *.
  pose proof (frame_length ws (2 * o + 1) ltac:(lia)) as Hfl.
  assert (Hadr : encodeCodeword (u32 (addressPayload address)) <> SYNC).
  { destruct (addressPayload_value address Ha) as [_ Hp].
    destruct (addressPayload_fields address Ha) as [_ Hlo].
    rewrite u32_small
      by (change (2 ^ 20) with 1048576 in Hp;
          change (2 ^ 32) with 4294967296; lia).
    intros E.
    pose proof (encodeCodeword_payload (addressPayload address)) as Hpay.
    rewrite E in Hpay. rewrite <- Hpay in Hlo.
    - vm_compute in Hlo. discriminate.
    - change (2 ^ 20) with 1048576 in Hp. change (2 ^ 21) with 2097152.
      lia. }
  apply syncLayoutFrom_app; [apply syncLayoutFrom_one; now split|].
  apply syncLayoutFrom_app.
  { apply syncLayoutFrom_idle. intros i Hi. cbn [List.length].
    rewrite Z2Nat.id in Hi by lia. divlia. }
  rewrite repeat_length, Z2Nat.id by lia. cbn [List.length].
  apply syncLayoutFrom_app.
  { apply syncLayoutFrom_one. split; [contradiction|]. divlia. }
  cbn [List.length].
  apply syncLayoutFrom_app.
  { apply syncLayoutFrom_frame; [lia| divlia |assumption]. }
  apply syncLayoutFrom_one. split; [discriminate|].
  rewrite Hfl. generalize (Z.of_nat (List.length ws)). intros d. divlia.
Qed.

(** The padding keeps the layout exactly when it does not start at a
    multiple of 17. *)
Lemma encodeTransmission_sync address message :
  0 <= address < 2 ^ 21 ->
  strlen message * 7 + 19 <= INT_MAX ->
  Z.of_nat (List.length (transmissionBody address message)) mod 17 <> 0 ->
  syncLayoutFrom 0 (afterPreamble (encodeTransmission address message)).
Proof.
  intros Ha Hmax Hw.
  rewrite afterPreamble_encodeTransmission.
  apply syncLayoutFrom_app; [now apply transmissionBody_sync|].
  pose proof (transmissionBody_length address message) as Hlen.
  pose proof (strlen_nonneg message) as Hn.
  assert (Hd : 0 <= textWords (strlen message) <= 107374182)
    by (unfold textWords, INT_MAX in *; divlia).
  pose proof (Z.mod_pos_bound address 8 ltac:(lia)) as Ho.
  set (written := Z.of_nat (List.length (transmissionBody address message)))
    in *.
  assert (Hr : 0 <= written < 2 ^ 32)
    by fits32_div.
  rewrite u32_small, paddingLength_value by lia.
  apply syncLayoutFrom_idle. intros i Hi.
  rewrite Z.add_0_l. rewrite Z2Nat.id in Hi by divlia. divlia.
Qed.

(** The padding always has between 1 and 17 words: the count after the
    preamble is the least multiple of 17 strictly above the number of words
    up to the terminating IDLE word. *)
Lemma afterPreamble_count address message :
  strlen message * 7 + 19 <= INT_MAX ->
  let written :=
    Z.of_nat (List.length (transmissionBody address message)) in
  Z.of_nat (List.length (afterPreamble (encodeTransmission address message)))
  = 17 * (written / 17 + 1).
Proof.
  intros Hmax. cbv zeta.
  rewrite afterPreamble_encodeTransmission, length_app, repeat_length.
  pose proof (transmissionBody_length address message) as Hlen.
  pose proof (strlen_nonneg message) as Hn.
  assert (Hd : 0 <= textWords (strlen message) <= 107374182)
    by (unfold textWords, INT_MAX in *; divlia).
  pose proof (Z.mod_pos_bound address 8 ltac:(lia)) as Ho.
  set (written := Z.of_nat (List.length (transmissionBody address message)))
    in *.
  assert (Hr : 0 <= written < 2 ^ 32) by fits32_div.
  rewrite Nat2Z.inj_add. fold written.
  rewrite u32_small, paddingLength_value by lia.
  rewrite Z2Nat.id by divlia. divlia.
Qed.

End Sync.

(** ** Further facts on codewords and transmissions *)

Section Validity.

Lemma encodeCodeword_valid m :
  0 <= m < 2 ^ 21 -> validCodeword (encodeCodeword m).
Proof.
  intros Hm. unfold validCodeword.
  pose proof (crc_bounds m) as Hc.
  pose proof (encodeCodeword_range m Hm) as Hr.
  rewrite encodeCodeword_payload, encodeCodeword_fullCRC by assumption.
  refine (conj _ (conj _ _)).
  - change (2 ^ 21) with 2097152 in Hm. change (2 ^ 11) with 2048 in Hr.
    generalize dependent (encodeCodeword m). intros. fits32.
  - change 0x3FF with (Z.ones 10). rewrite Z.land_ones by lia.
    rewrite Z.add_comm, Z.mod_add by lia.
    symmetry. apply Z.mod_small. change (2 ^ 10) with 1024. lia.
  - rewrite encodeCodeword_value by assumption.
    replace (m * 2 ^ 11 + crc m * 2) with ((m * 2 ^ 10 + crc m) * 2)
      by (change (2 ^ 11) with (2 ^ 10 * 2); ring).
    apply parity_appended. now apply fullCRC_range.
Qed.

Lemma validCodeword_sync : validCodeword SYNC.
Proof. vm_compute. intuition discriminate. Qed.

Lemma validCodeword_idle : validCodeword IDLE.
Proof. vm_compute. intuition discriminate. Qed.

Lemma dataWord_valid chunk :
  List.length chunk = 20%nat -> validCodeword (dataWord chunk).
Proof.
  intros Hl. destruct (flagged_chunk chunk Hl) as [E Hr].
  unfold dataWord. rewrite E. apply encodeCodeword_valid.
  change (2 ^ 20) with 1048576 in *. change (2 ^ 21) with 2097152. lia.
Qed.

Lemma Forall_frame (P : Z -> Prop) ws : forall pos,
  P SYNC -> Forall P ws -> Forall P (frame pos ws).
Proof.
  induction ws as [|w ws IH]; intros pos Hs H; [constructor|].
  inversion H; subst. cbn [frame].
  destruct (pos + 1 =? BATCH_SIZE); repeat constructor; auto.
Qed.

Lemma Forall_repeat {A} (P : A -> Prop) x n : P x -> Forall P (repeat x n).
Proof. intros H. induction n; cbn [repeat]; constructor; auto. Qed.

(** The words of the text packer are valid codewords, each either SYNC or
    a data codeword. *)
Lemma encodeASCII_words off str :
  0 <= off < 16 ->
  Forall (fun w => validCodeword w /\ (w = SYNC \/ isDataWord w = true))
    (encodeASCII off str).
Proof.
  intros Ho. rewrite encodeASCII_frame by assumption.
  apply Forall_frame; [split; [apply validCodeword_sync|now left]|].
  destruct (chunks_spec (textBits str)) as [Hf _].
  induction Hf as [|c cs Hc Hcs IH]; cbn [map]; constructor; [|exact IH].
  split; [now apply dataWord_valid|right; now apply isDataWord_dataWord].
Qed.

Lemma afterPreamble_valid address message :
  0 <= address < 2 ^ 21 ->
  Forall validCodeword (afterPreamble (encodeTransmission address message)).
Proof.
  intros Ha. rewrite afterPreamble_encodeTransmission.
  unfold transmissionBody. cbv zeta. rewrite addressOffset_value.
  pose proof (Z.mod_pos_bound address 8 ltac:(lia)) as Ho.
  rewrite (u32_small (2 * (address mod 8) + 1)) by fits32.
  destruct (addressPayload_value address Ha) as [_ Hp].
  rewrite (u32_small (addressPayload address))
    by (change (2 ^ 20) with 1048576 in Hp; fits32).
  repeat (apply Forall_app; split).
  - apply Forall_cons; [|apply Forall_nil]. apply validCodeword_sync.
  - apply Forall_repeat, validCodeword_idle.
  - apply Forall_cons; [|apply Forall_nil]. apply encodeCodeword_valid.
    change (2 ^ 20) with 1048576 in Hp. change (2 ^ 21) with 2097152. lia.
  - eapply Forall_impl; [|apply encodeASCII_words; lia].
    now intros w [H _].
  - apply Forall_cons; [|apply Forall_nil]. apply validCodeword_idle.
  - apply Forall_repeat, validCodeword_idle.
Qed.

End Validity.

(** ** Error detection *)

Section Errors.

(** The parity of a word from its low bit and the parity of the rest. *)
Lemma parity_low_bit w :
  0 <= w < 2 ^ 32 -> parity w = (w mod 2 + parity (w / 2)) mod 2.
Proof.
  intros Hw.
  assert (Hg : 0 <= w / 2 < 2 ^ 31)
    by (change (2 ^ 32) with 4294967296 in Hw;
        change (2 ^ 31) with 2147483648; divlia).
  rewrite !parity_popcount, (popcount_top (w / 2) Hg).
  change 32%nat with (S 31). rewrite popcount_S.
  replace (Z.shiftr w 1) with (w / 2)
    by (rewrite Z.shiftr_div_pow2 by lia; reflexivity).
  rewrite <- (Z.bit0_mod w).
  generalize (popcount 31 (w / 2)). intros n.
  destruct (Z.testbit w 0); cbn [Z.b2z]; divlia.
Qed.

(** The CRC comparison of the check is the test that the division of the
    31 bits leaves no remainder. *)
Lemma crc_check_iff g :
  0 <= g < 2 ^ 31 ->
  crc (Z.shiftr g 10) = Z.land g 0x3FF <-> crc_divide g = 0.
Proof.
  intros Hg.
  assert (Hh : 0 <= Z.shiftr g 10 < 2 ^ 21).
  { rewrite Z.shiftr_div_pow2 by lia.
    change (2 ^ 31) with 2147483648 in Hg. change (2 ^ 10) with 1024.
    change (2 ^ 21) with 2097152. divlia. }
  assert (Hr : 0 <= Z.land g 0x3FF < 2 ^ 10).
  { change 0x3FF with (Z.ones 10). rewrite Z.land_ones by lia.
    apply Z.mod_pos_bound. reflexivity. }
  assert (E : g = Z.lxor (Z.shiftr g 10 * 2 ^ 10) (Z.land g 0x3FF)).
  { rewrite Z.lxor_lor by (now apply land_shifted).
    rewrite lor_shifted by (try assumption; lia).
    change 0x3FF with (Z.ones 10). rewrite Z.land_ones by lia.
    rewrite Z.shiftr_div_pow2 by lia.
    change (2 ^ 10) with 1024. divlia. }
  rewrite (crc_is_remainder _ Hh).
  rewrite E at 3. rewrite (crc_divide_low _ _ Hr).
  generalize (crc_divide (Z.shiftr g 10 * 2 ^ 10)). intros c.
  generalize (Z.land g 0x3FF). intros r.
  symmetry. apply Z.lxor_eq_0_iff.
Qed.

Lemma validCodeword_checkBits w :
  validCodeword w <-> 0 <= w < 2 ^ 32 /\ checkBits w = (0, 0).
Proof.
  unfold validCodeword, checkBits.
  assert (H : 0 <= w < 2 ^ 32 ->
              (crc (Z.shiftr w 11) = Z.land (Z.shiftr w 1) 0x3FF
               <-> crc_divide (Z.shiftr w 1) = 0)).
  { intros Hw. replace (Z.shiftr w 11) with (Z.shiftr (Z.shiftr w 1) 10)
      by (rewrite Z.shiftr_shiftr by lia; reflexivity).
    apply crc_check_iff. rewrite Z.shiftr_div_pow2 by lia.
    change (2 ^ 32) with 4294967296 in Hw. change (2 ^ 31) with 2147483648.
    change (2 ^ 1) with 2. divlia. }
  split.
  - intros (Hw & Hc & Hp). split; [assumption|].
    apply H in Hc; [|assumption]. now rewrite Hc, Hp.
  - intros (Hw & E). apply pair_equal_spec in E as [Hc Hp].
    refine (conj Hw (conj _ Hp)). now apply H.
Qed.

Lemma checkBits_lxor a b :
  checkBits (Z.lxor a b)
  = (Z.lxor (fst (checkBits a)) (fst (checkBits b)),
     Z.lxor (snd (checkBits a)) (snd (checkBits b))).
Proof.
  unfold checkBits. cbn [fst snd].
  now rewrite shiftr_lxor, crc_divide_lxor, parity_lxor by lia.
Qed.

(** A valid codeword is the codeword of its payload bits. *)
Lemma validCodeword_encoded w :
  validCodeword w -> encodeCodeword (Z.shiftr w 11) = w.
Proof.
  intros (Hw & Hc & Hp).
  assert (Hm : 0 <= Z.shiftr w 11 < 2 ^ 21).
  { rewrite Z.shiftr_div_pow2 by lia.
    change (2 ^ 32) with 4294967296 in Hw. change (2 ^ 11) with 2048.
    change (2 ^ 21) with 2097152. divlia. }
  rewrite (encodeCodeword_value _ Hm), Hc.
  rewrite (parity_low_bit w Hw) in Hp.
  assert (E : Z.shiftr w 11 * 2 ^ 10 + Z.land (Z.shiftr w 1) 0x3FF = w / 2).
  { change 0x3FF with (Z.ones 10). rewrite Z.land_ones by lia.
    rewrite !Z.shiftr_div_pow2 by lia.
    change (2 ^ 10) with 1024. change (2 ^ 11) with 2048.
    change (2 ^ 1) with 2. divlia. }
  rewrite E.
  destruct (parity_bit (w / 2)) as [Hq | Hq]; rewrite Hq in *;
    change 0x3FF with (Z.ones 10); rewrite Z.land_ones by lia;
    rewrite !Z.shiftr_div_pow2 by lia;
    change (2 ^ 10) with 1024; change (2 ^ 11) with 2048;
    change (2 ^ 1) with 2; divlia.
Qed.

Lemma quadruplesDetected_true : quadruplesDetected = true.
Proof. vm_compute. reflexivity. Qed.

Lemma columns_In p :
  0 <= p < 32 -> In (2 ^ p, checkBits (2 ^ p)) columns.
Proof.
  intros Hp. unfold columns. apply in_map_iff. exists (Z.to_nat p).
  rewrite Z2Nat.id by lia. split; [reflexivity|]. apply in_seq. lia.
Qed.

(** Four flipped bits that do not cancel never pass the check. *)
Lemma four_flips a b c d :
  0 <= a < 32 -> 0 <= b < 32 -> 0 <= c < 32 -> 0 <= d < 32 ->
  flipBits [a; b; c; d] <> 0 ->
  checkBits (flipBits [a; b; c; d]) <> (0, 0).
Proof.
  intros Ha Hb Hc Hd Hne.
  pose proof quadruplesDetected_true as H.
  unfold quadruplesDetected in H. cbv zeta in H.
  rewrite forallb_forall in H. specialize (H _ (columns_In a Ha)).
  cbv beta in H.
  rewrite forallb_forall in H. specialize (H _ (columns_In b Hb)).
  cbv beta in H.
  rewrite forallb_forall in H. specialize (H _ (columns_In c Hc)).
  cbv beta in H.
  rewrite forallb_forall in H. specialize (H _ (columns_In d Hd)).
  cbv beta in H. cbn [fst snd] in H.
  unfold flipBits in *. cbn [fold_right] in *.
  rewrite Z.lxor_0_r in *.
  rewrite !checkBits_lxor. cbn [fst snd].
  apply orb_true_iff in H as [H | H].
  - apply Z.eqb_eq in H. contradiction.
  - apply negb_true_iff, andb_false_iff in H.
    intros E. apply pair_equal_spec in E as [E1 E2].
    destruct H as [H | H]; apply Z.eqb_neq in H; contradiction.
Qed.

Lemma flipBits_range ps :
  Forall (fun p => 0 <= p < 32) ps -> 0 <= flipBits ps < 2 ^ 32.
Proof.
  induction 1 as [|p ps Hp _ IH]; cbn [flipBits fold_right].
  - change (2 ^ 32) with 4294967296. lia.
  - apply lxor_nonneg_range; [lia| |exact IH].
    split; [apply Z.pow_nonneg; lia|apply Z.pow_lt_mono_r; lia].
Qed.

Lemma flipBits_parity ps :
  Forall (fun p => 0 <= p < 32) ps ->
  parity (flipBits ps) = Z.of_nat (List.length ps) mod 2.
Proof.
  induction 1 as [|p ps Hp _ IH]; cbn [flipBits fold_right List.length].
  - reflexivity.
  - rewrite parity_lxor, (parity_pow2 p Hp).
    fold (flipBits ps). rewrite IH.
    generalize (List.length ps). intros n.
    destruct (Z.mod_pos_bound (Z.of_nat n) 2 ltac:(lia)) as [H0 H2].
    assert (E : Z.of_nat n mod 2 = 0 \/ Z.of_nat n mod 2 = 1) by lia.
    destruct E as [E | E]; rewrite E;
      [change (Z.lxor 1 0) with 1|change (Z.lxor 1 1) with 0];
      rewrite Nat2Z.inj_succ; divlia.
Qed.

Lemma flipBits_testbit ps q :
  Forall (fun p => 0 <= p < 32) ps -> ~ In q ps ->
  Z.testbit (flipBits ps) q = false.
Proof.
  induction 1 as [|p ps Hp _ IH]; intros Hq; cbn [flipBits fold_right].
  - apply Z.bits_0.
  - fold (flipBits ps). rewrite Z.lxor_spec, IH by (intros H; apply Hq; now right).
    rewrite Z.pow2_bits_eqb by lia.
    destruct (Z.eqb_spec p q) as [->|]; [|reflexivity].
    exfalso. apply Hq. now left.
Qed.

(** Flipping distinct bits changes the word. *)
Lemma flipBits_NoDup ps :
  Forall (fun p => 0 <= p < 32) ps -> NoDup ps -> ps <> [] ->
  flipBits ps <> 0.
Proof.
  intros Hr Hd Hne E. destruct ps as [|p ps]; [now apply Hne|].
  inversion Hr as [|? ? Hp Hr']; subst. inversion Hd as [|? ? Hn Hd']; subst.
  assert (H : Z.testbit (flipBits (p :: ps)) p = true).
  { cbn [flipBits fold_right]. fold (flipBits ps).
    rewrite Z.lxor_spec, (flipBits_testbit ps p Hr' Hn).
    rewrite Z.pow2_bits_eqb by lia. now rewrite Z.eqb_refl. }
  rewrite E, Z.bits_0 in H. discriminate.
Qed.

(** Up to five flipped bits that do not cancel never pass the check. *)
Lemma flips_detected ps :
  Forall (fun p => 0 <= p < 32) ps -> (List.length ps <= 5)%nat ->
  flipBits ps <> 0 -> checkBits (flipBits ps) <> (0, 0).
Proof.
  intros Hr Hl Hne E.
  pose proof (flipBits_parity ps Hr) as Hp.
  assert (Hq : parity (flipBits ps) = 0)
    by (apply pair_equal_spec in E as [_ E]; exact E).
  rewrite Hq in Hp.
  destruct ps as [|a [|b [|c [|d [|e [|f ps]]]]]];
    cbn [List.length] in Hl, Hp; try lia; try discriminate Hp.
  - now apply Hne.
  - inversion Hr as [|? ? Ha Hr1]; subst. inversion Hr1 as [|? ? Hb _]; subst.
    assert (E4 : flipBits [a; b; 0; 0] = flipBits [a; b]).
    { cbn [flipBits fold_right].
      change (Z.lxor (2 ^ 0) (Z.lxor (2 ^ 0) 0)) with 0. reflexivity. }
    apply (four_flips a b 0 0); try lia; rewrite E4; assumption.
  - inversion Hr as [|? ? Ha Hr1]; subst. inversion Hr1 as [|? ? Hb Hr2]; subst.
    inversion Hr2 as [|? ? Hc Hr3]; subst. inversion Hr3 as [|? ? Hd _]; subst.
    now apply (four_flips a b c d).
Qed.

End Errors.

(** ** Further facts on the text packer *)

Section PackerFacts.

Lemma pushBit_low7 c c' i st :
  0 <= i < 7 -> c mod 128 = c' mod 128 -> pushBit c i st = pushBit c' i st.
Proof.
  intros Hi Hc. unfold pushBit.
  rewrite !land_shiftr_1 by lia.
  rewrite <- (Z.mod_pow2_bits_low c 7 i), <- (Z.mod_pow2_bits_low c' 7 i)
    by lia.
  change (2 ^ 7) with 128. now rewrite Hc.
Qed.

Lemma encodeChar_low7 n : forall i c c' st,
  0 <= i -> i + Z.of_nat n <= 7 -> c mod 128 = c' mod 128 ->
  encodeChar n i c st = encodeChar n i c' st.
Proof.
  induction n as [|n IH]; intros i c c' st Hi Hn Hc; [reflexivity|].
  cbn [encodeChar]. rewrite (pushBit_low7 c c') by (try assumption; lia).
  destruct (pushBit c' i st) as [ws st'].
  now rewrite (IH (i + 1) c c') by (try assumption; lia).
Qed.

Lemma encodeASCII_loop_low7 s : forall t st,
  sameLow7 s t = true -> encodeASCII_loop s st = encodeASCII_loop t st.
Proof.
  induction s as [|a s IH]; intros [|b t] st H; try discriminate;
    [reflexivity|].
  cbn [sameLow7] in H.
  apply andb_prop in H as [H Hst]. apply andb_prop in H as [H Hm].
  apply andb_prop in H as [Ha Hb].
  apply negb_true_iff in Ha, Hb. apply Z.eqb_eq in Hm.
  cbn [encodeASCII_loop]. cbv zeta. rewrite Ha, Hb.
  change (Z.to_nat TEXT_BITS_PER_CHAR) with 7%nat.
  rewrite (encodeChar_low7 7 0 (byte_of a) (byte_of b))
    by (try assumption; change (Z.of_nat 7) with 7; lia).
  destruct (encodeChar 7 0 (byte_of b) st) as [ws st'].
  now rewrite (IH t st' Hst).
Qed.

Lemma sameLow7_strlen s : forall t,
  sameLow7 s t = true -> strlen s = strlen t.
Proof.
  induction s as [|a s IH]; intros [|b t] H; try discriminate;
    [reflexivity|].
  cbn [sameLow7] in H.
  apply andb_prop in H as [H Hst]. apply andb_prop in H as [H Hm].
  apply andb_prop in H as [Ha Hb].
  apply negb_true_iff in Ha, Hb.
  cbn [strlen]. rewrite Ha, Hb. now rewrite (IH t Hst).
Qed.

(** The state the character loop ends in. *)
Lemma encodeASCII_loop_state off str :
  0 <= off < 16 ->
  let st := snd (encodeASCII_loop str (mkPacker 0 0 off)) in
  currentNumBits st = (7 * strlen str) mod 20
  /\ wordPosition st = (off + 7 * strlen str / 20) mod 16
  /\ 0 <= currentWord st < 2 ^ currentNumBits st.
Proof.
  intros Ho. cbv zeta.
  change (mkPacker 0 0 off) with (packerOf [] off).
  rewrite encodeASCII_loop_group by (try assumption; cbn; lia).
  pose proof (group_count (textBits str) [] ltac:(cbn; lia)) as Hc.
  pose proof (group_rest_length (textBits str) [] ltac:(cbn; lia)) as Hr.
  pose proof (textBits_length str) as Hl.
  destruct (group [] (textBits str)) as [cs r].
  cbn [fst snd List.length packerOf currentNumBits wordPosition currentWord]
    in *.
  assert (Hq : Z.of_nat (List.length cs) = 7 * strlen str / 20)
    by (apply (Z.div_unique _ 20 _ (Z.of_nat (List.length r))); lia).
  refine (conj _ (conj _ (bitsZ_range r))).
  - apply (Z.mod_unique _ 20 (Z.of_nat (List.length cs))); lia.
  - now rewrite Hq.
Qed.

End PackerFacts.

(** ** The line loop *)

Section Lines.

Local Open Scope string_scope.
Local Open Scope Z_scope.

Lemma string_app_assoc s t u : (s ++ t) ++ u = s ++ (t ++ u).
Proof. induction s as [|ch s IH]; cbn [append]; now rewrite ?IH. Qed.

Lemma string_app_nil_r s : s ++ "" = s.
Proof. induction s as [|ch s IH]; cbn [append]; now rewrite ?IH. Qed.

Lemma string_app_length s t :
  String.length (s ++ t) = (String.length s + String.length t)%nat.
Proof. induction s as [|ch s IH]; cbn [append String.length]; now rewrite ?IH. Qed.

Lemma byte_of_inv ch c : byte_of ch = c -> ch = ascii_of_N (Z.to_N c).
Proof.
  intros <-. unfold byte_of. now rewrite N2Z.id, ascii_N_embedding.
Qed.

Lemma strlen_cstring s : strlen (cstring s) = strlen s.
Proof.
  induction s as [|ch s IH]; [reflexivity|]. cbn [cstring strlen].
  destruct (byte_of ch =? 0) eqn:E; [reflexivity|].
  cbn [strlen]. now rewrite E, IH.
Qed.

Lemma cstring_idem s : cstring (cstring s) = cstring s.
Proof.
  induction s as [|ch s IH]; [reflexivity|]. cbn [cstring].
  destruct (byte_of ch =? 0) eqn:E; [reflexivity|].
  cbn [cstring]. now rewrite E, IH.
Qed.

Lemma strlen_nulFree s :
  cstring s = s -> strlen s = Z.of_nat (String.length s).
Proof.
  induction s as [|ch s IH]; [reflexivity|]. cbn [cstring strlen].
  destruct (byte_of ch =? 0); [discriminate|].
  intros H. injection H as H. rewrite (IH H). cbn [String.length]. lia.
Qed.

Lemma strlen_zero s : cstring s = s -> (strlen s =? 0) = true -> s = "".
Proof.
  intros H E. apply Z.eqb_eq in E. rewrite (strlen_nulFree s H) in E.
  destruct s; [reflexivity|cbn [String.length] in E; lia].
Qed.

Lemma cstring_app s t :
  cstring (s ++ t) = (s ++ t) -> cstring s = s /\ cstring t = t.
Proof.
  induction s as [|ch s IH]; cbn [append cstring]; [now split|].
  destruct (byte_of ch =? 0); [discriminate|].
  intros H. injection H as H. destruct (IH H) as [-> ->]. now split.
Qed.

(** A string that ends with the character [c] is the rest followed by that
    character. *)
Lemma endsWith_dropLast c s :
  endsWith c s = true ->
  s = dropLast s ++ String (ascii_of_N (Z.to_N c)) "".
Proof.
  unfold endsWith. induction s as [|ch s IH]; [discriminate|].
  cbn [lastChar dropLast]. destruct s as [|ch' s].
  - intros H. apply Z.eqb_eq in H. now rewrite (byte_of_inv ch c H).
  - intros H. cbn [append]. f_equal. now apply IH.
Qed.

Lemma dropLast_length s :
  Z.of_nat (String.length (dropLast s))
  = Z.max 0 (Z.of_nat (String.length s) - 1).
Proof.
  induction s as [|ch s IH]; [reflexivity|].
  cbn [dropLast]. destruct s as [|ch' s]; [reflexivity|].
  cbn [String.length] in *. lia.
Qed.

(** What [stripLine] returns. *)
Lemma stripLine_inr line l :
  stripLine line = inr l ->
  cstring l = l /\ l <> ""
  /\ exists e, lineEnding e /\ cstring line = l ++ e.
Proof.
  unfold stripLine. cbv zeta.
  pose proof (cstring_idem line) as Hc.
  set (t := cstring line) in *.
  destruct (strlen t =? 0) eqn:E0; [discriminate|].
  assert (Hne : forall u, cstring u = u -> (strlen u =? 0) = false -> u <> "")
    by (intros u _ E ->; discriminate).
  assert (Hcr : forall u e,
    cstring u = u -> (strlen u =? 0) = false ->
    lineEnding e -> (e = "" \/ e = String newline "") -> t = u ++ e ->
    (if endsWith 13 u
     then if strlen (dropLast u) =? 0 then inl SkipLine
          else inr (dropLast u)
     else inr u) = inr l ->
    cstring l = l /\ l <> "" /\ exists e', lineEnding e' /\ t = l ++ e').
  { intros u e Hu Eu He He' Ht.
    destruct (endsWith 13 u) eqn:Ecr.
    - pose proof (endsWith_dropLast 13 u Ecr) as Hd.
      change (ascii_of_N (Z.to_N 13)) with carriageReturn in Hd.
      destruct (strlen (dropLast u) =? 0) eqn:E1; [discriminate|].
      intros H. injection H as <-.
      rewrite Hd in Hu. destruct (cstring_app _ _ Hu) as [Hu' _].
      refine (conj Hu' (conj (Hne _ Hu' E1) _)).
      exists (String carriageReturn e). split.
      + destruct He' as [-> | ->]; unfold lineEnding; auto.
      + rewrite Ht, Hd at 1. now rewrite string_app_assoc.
    - intros H. injection H as <-.
      refine (conj Hu (conj (Hne _ Hu Eu) _)). now exists e. }
  destruct (endsWith 10 t) eqn:Enl.
  - pose proof (endsWith_dropLast 10 t Enl) as Hd.
    change (ascii_of_N (Z.to_N 10)) with newline in Hd.
    destruct (strlen (dropLast t) =? 0) eqn:E1; [discriminate|].
    rewrite Hd in Hc. destruct (cstring_app _ _ Hc) as [Hu _].
    apply (Hcr (dropLast t) (String newline "")); auto.
    unfold lineEnding; auto.
  - apply (Hcr t ""); auto.
    + unfold lineEnding; auto.
    + symmetry. apply string_app_nil_r.
Qed.

Lemma stripLine_inl line r :
  stripLine line = inl r ->
  (r = EndOfInput /\ cstring line = "")
  \/ (r = SkipLine
      /\ exists e, lineEnding e /\ e <> "" /\ cstring line = e).
Proof.
  unfold stripLine. cbv zeta.
  pose proof (cstring_idem line) as Hc.
  set (t := cstring line) in *.
  destruct (strlen t =? 0) eqn:E0.
  { intros H. injection H as <-. left. split; [reflexivity|].
    now apply strlen_zero. }
  destruct (endsWith 10 t) eqn:Enl.
  - pose proof (endsWith_dropLast 10 t Enl) as Hd.
    change (ascii_of_N (Z.to_N 10)) with newline in Hd.
    rewrite Hd in Hc. destruct (cstring_app _ _ Hc) as [Hu _].
    destruct (strlen (dropLast t) =? 0) eqn:E1.
    + intros H. injection H as <-. right. split; [reflexivity|].
      rewrite (strlen_zero _ Hu E1) in Hd.
      exists (String newline ""). unfold lineEnding.
      repeat split; auto. discriminate.
    + destruct (endsWith 13 (dropLast t)) eqn:Ecr; [|discriminate].
      pose proof (endsWith_dropLast 13 _ Ecr) as Hd'.
      change (ascii_of_N (Z.to_N 13)) with carriageReturn in Hd'.
      rewrite Hd' in Hu. destruct (cstring_app _ _ Hu) as [Hu' _].
      destruct (strlen (dropLast (dropLast t)) =? 0) eqn:E2; [|discriminate].
      intros H. injection H as <-. right. split; [reflexivity|].
      rewrite (strlen_zero _ Hu' E2) in Hd'. rewrite Hd' in Hd.
      exists (String carriageReturn (String newline "")). unfold lineEnding.
      repeat split; auto. discriminate.
  - destruct (endsWith 13 t) eqn:Ecr; [|discriminate].
    pose proof (endsWith_dropLast 13 _ Ecr) as Hd.
    change (ascii_of_N (Z.to_N 13)) with carriageReturn in Hd.
    rewrite Hd in Hc. destruct (cstring_app _ _ Hc) as [Hu _].
    destruct (strlen (dropLast t) =? 0) eqn:E1; [|discriminate].
    intros H. injection H as <-. right. split; [reflexivity|].
    rewrite (strlen_zero _ Hu E1) in Hd.
    exists (String carriageReturn ""). unfold lineEnding.
    repeat split; auto. discriminate.
Qed.

(** The search for the colon finds the first one. *)
Lemma colonLoop_spec n : forall i s,
  (String.length s < n)%nat ->
  match colonLoop n i s with
  | None => noColon s = true
  | Some j =>
      exists prefix message,
        s = prefix ++ String ":" message
        /\ noColon prefix = true
        /\ j = i + Z.of_nat (String.length prefix)
  end.
Proof.
  induction n as [|n IH]; intros i s Hn; [lia|].
  cbn [colonLoop]. destruct s as [|ch s]; [reflexivity|].
  cbn [String.length] in Hn.
  destruct (byte_of ch =? 58) eqn:E.
  - exists "", s. apply Z.eqb_eq in E.
    rewrite (byte_of_inv ch 58 E). repeat split. cbn. lia.
  - specialize (IH (i + 1) s ltac:(lia)).
    destruct (colonLoop n (i + 1) s) as [j|].
    + destruct IH as (prefix & message & -> & Hp & ->).
      exists (String ch prefix), message. cbn [append noColon String.length].
      rewrite E, Hp. repeat split. lia.
    + cbn [noColon]. now rewrite E, IH.
Qed.

Lemma noColon_app prefix message :
  noColon (prefix ++ String ":" message) = false.
Proof.
  induction prefix as [|ch prefix IH]; [reflexivity|].
  cbn [append noColon]. rewrite IH. apply andb_false_r.
Qed.

Lemma first_colon_unique p1 : forall m1 p2 m2,
  noColon p1 = true -> noColon p2 = true ->
  p1 ++ String ":" m1 = p2 ++ String ":" m2 -> p1 = p2 /\ m1 = m2.
Proof.
  induction p1 as [|a p1 IH]; intros m1 [|b p2] m2 H1 H2 E;
    cbn [append noColon] in *.
  - injection E as ->. now split.
  - injection E as <- _. discriminate.
  - injection E as -> _. discriminate.
  - injection E as -> E. apply andb_prop in H1 as [_ H1].
    apply andb_prop in H2 as [_ H2].
    destruct (IH _ _ _ H1 H2 E) as [-> ->]. now split.
Qed.

Lemma advance_app prefix : forall message,
  advance (String.length prefix + 1) (prefix ++ String ":" message) = message.
Proof. induction prefix as [|ch prefix IH]; intros message; [reflexivity|apply IH]. Qed.

Lemma stripLine_length line l :
  stripLine line = inr l -> strlen l <= strlen line.
Proof.
  intros H. destruct (stripLine_inr line l H) as (Hl & _ & e & _ & He).
  rewrite <- (strlen_cstring line), (strlen_nulFree l Hl).
  rewrite (strlen_nulFree _ (cstring_idem line)), He, string_app_length. lia.
Qed.

(** The loop body on a line that holds a colon. *)
Lemma processLine_colon strtol line l prefix message :
  strlen line < LINE_SIZE ->
  stripLine line = inr l ->
  l = prefix ++ String ":" message ->
  noColon prefix = true ->
  processLine strtol (Some line)
  = if 2097151 <? u32 (strtol l) then AddressExceeds (u32 (strtol l))
    else Transmit (u32 (strtol l)) message.
Proof.
  intros Hlen Hs Hl Hp. unfold processLine. rewrite Hs.
  pose proof (stripLine_length line l Hs) as Hle.
  destruct (stripLine_inr line l Hs) as (Hc & _ & _).
  rewrite (strlen_nulFree l Hc) in Hle.
  pose proof (colonLoop_spec (Z.to_nat LINE_SIZE) 0 l
                ltac:(unfold LINE_SIZE in *; lia)) as Hcol.
  destruct (colonLoop (Z.to_nat LINE_SIZE) 0 l) as [j|].
  - destruct Hcol as (p' & m' & Hl' & Hp' & ->).
    rewrite Hl in Hl'.
    destruct (first_colon_unique _ _ _ _ Hp Hp' Hl') as [<- <-].
    cbv zeta.
    replace (Z.to_nat (0 + Z.of_nat (String.length prefix) + 1))
      with (String.length prefix + 1)%nat by lia.
    now rewrite Hl, advance_app.
  - rewrite Hl, noColon_app in Hcol. discriminate.
Qed.

Lemma cstring_append s t :
  cstring s = s -> cstring t = t -> cstring (s ++ t) = s ++ t.
Proof.
  intros Hs Ht. induction s as [|ch s IH]; cbn [append cstring] in *;
    [assumption|].
  destruct (byte_of ch =? 0); [discriminate|].
  injection Hs as Hs. now rewrite (IH Hs).
Qed.

Lemma lastChar_snoc s a : lastChar (s ++ String a "") = Some a.
Proof.
  induction s as [|ch s IH]; [reflexivity|].
  cbn [append lastChar]. rewrite IH.
  destruct (s ++ String a "") eqn:E; [|reflexivity].
  destruct s; discriminate.
Qed.

Lemma dropLast_snoc s a : dropLast (s ++ String a "") = s.
Proof.
  induction s as [|ch s IH]; [reflexivity|].
  cbn [append dropLast]. rewrite IH.
  destruct (s ++ String a "") eqn:E; [|reflexivity].
  destruct s; discriminate.
Qed.

Lemma strlen_nonempty c :
  cstring c = c -> c <> "" -> (strlen c =? 0) = false.
Proof.
  intros Hc Hne. apply Z.eqb_neq. intros E. apply Hne.
  apply strlen_zero; [assumption|]. now apply Z.eqb_eq.
Qed.

(** The line ending is taken off the text of a line. *)
Lemma stripLine_content c e :
  lineContent c -> lineEnding e -> stripLine (c ++ e) = inr c.
Proof.
  intros (Hc & Hne & Hnl & Hcr) He.
  pose proof (strlen_nonempty c Hc Hne) as Hlen.
  assert (Hsn : forall a, byte_of a <> 0 ->
            cstring (c ++ String a "") = c ++ String a ""
            /\ (strlen (c ++ String a "") =? 0) = false).
  { intros a Ha.
    assert (H : cstring (c ++ String a "") = c ++ String a "").
    { apply cstring_append; [assumption|]. cbn [cstring].
      now apply Z.eqb_neq in Ha as ->. }
    split; [assumption|]. apply strlen_nonempty; [assumption|].
    destruct c; discriminate. }
  unfold stripLine. cbv zeta.
  destruct He as [-> | [-> | [-> | ->]]].
  - rewrite string_app_nil_r, Hc, Hlen, Hnl, Hcr. reflexivity.
  - destruct (Hsn newline ltac:(discriminate)) as [E1 E2].
    rewrite E1, E2. unfold endsWith at 1. rewrite lastChar_snoc.
    change (byte_of newline =? 10) with true. cbv iota.
    rewrite dropLast_snoc, Hlen, Hcr. reflexivity.
  - destruct (Hsn carriageReturn ltac:(discriminate)) as [E1 E2].
    rewrite E1, E2. unfold endsWith at 1. rewrite lastChar_snoc.
    change (byte_of carriageReturn =? 10) with false. cbv iota.
    unfold endsWith at 1. rewrite lastChar_snoc.
    change (byte_of carriageReturn =? 13) with true. cbv iota.
    rewrite dropLast_snoc, Hlen. reflexivity.
  - change (c ++ String carriageReturn (String newline ""))
      with (c ++ (String carriageReturn "" ++ String newline "")).
    rewrite <- string_app_assoc.
    destruct (Hsn carriageReturn ltac:(discriminate)) as [E1 E2].
    assert (E3 : cstring ((c ++ String carriageReturn "") ++ String newline "")
                 = (c ++ String carriageReturn "") ++ String newline "")
      by (apply cstring_append; [assumption|reflexivity]).
    rewrite E3.
    rewrite (strlen_nonempty _ E3)
      by (destruct (c ++ String carriageReturn ""); discriminate).
    unfold endsWith at 1. rewrite lastChar_snoc.
    change (byte_of newline =? 10) with true. cbv iota.
    rewrite dropLast_snoc, E2.
    unfold endsWith at 1. rewrite lastChar_snoc.
    change (byte_of carriageReturn =? 13) with true. cbv iota.
    rewrite dropLast_snoc, Hlen. reflexivity.
Qed.

(** A bare line ending is not handed on. *)
Lemma stripLine_ending line :
  lineEnding (cstring line) ->
  stripLine line
  = inl (if strlen line =? 0 then EndOfInput else SkipLine).
Proof.
  intros H. rewrite <- (strlen_cstring line). unfold stripLine. cbv zeta.
  destruct H as [-> | [-> | [-> | ->]]]; reflexivity.
Qed.

Lemma noColon_append s t : noColon (s ++ t) = noColon s && noColon t.
Proof.
  induction s as [|ch s IH]; [reflexivity|].
  cbn [append noColon]. now rewrite IH, andb_assoc.
Qed.

Lemma noColon_ending e : lineEnding e -> noColon e = true.
Proof. intros [-> | [-> | [-> | ->]]]; reflexivity. Qed.

(** The loop body on a line without a colon. *)
Lemma processLine_noColon strtol line l :
  strlen line < LINE_SIZE ->
  stripLine line = inr l -> noColon l = true ->
  processLine strtol (Some line) = MalformedLine.
Proof.
  intros Hlen Hs Hl. unfold processLine. rewrite Hs.
  pose proof (stripLine_length line l Hs) as Hle.
  destruct (stripLine_inr line l Hs) as (Hc & _ & _).
  rewrite (strlen_nulFree l Hc) in Hle.
  pose proof (colonLoop_spec (Z.to_nat LINE_SIZE) 0 l
                ltac:(unfold LINE_SIZE in *; lia)) as Hcol.
  destruct (colonLoop (Z.to_nat LINE_SIZE) 0 l) as [j|]; [|reflexivity].
  destruct Hcol as (p' & m' & -> & _ & _).
  rewrite noColon_app in Hl. discriminate.
Qed.

(** A string that holds a colon splits at the first one. *)
Lemma first_colon s :
  noColon s = false ->
  exists prefix message,
    s = prefix ++ String ":" message /\ noColon prefix = true.
Proof.
  induction s as [|ch s IH]; [discriminate|]. cbn [noColon].
  destruct (byte_of ch =? 58) eqn:E.
  - intros _. exists "", s. apply Z.eqb_eq in E.
    rewrite (byte_of_inv ch 58 E). now split.
  - cbn [negb andb]. intros H. destruct (IH H) as (p & m & -> & Hp).
    exists (String ch p), m. cbn [append noColon]. rewrite E, Hp. now split.
Qed.

End Lines.

(** ** Reading a transmission back *)

Section Receiver.

Lemma leadingIdle_repeat k w rest :
  w <> IDLE ->
  leadingIdle (repeat IDLE k ++ w :: rest) = k
  /\ skipn k (repeat IDLE k ++ w :: rest) = w :: rest.
Proof.
  intros Hw. induction k as [|k [IH1 IH2]]; cbn [repeat app leadingIdle skipn].
  - apply Z.eqb_neq in Hw. rewrite Hw. now split.
  - rewrite Z.eqb_refl, IH1. now split.
Qed.

Lemma afterPreamble_head address message :
  0 <= address < 2 ^ 21 ->
  exists rest,
    afterPreamble (encodeTransmission address message)
    = SYNC :: repeat IDLE (Z.to_nat (2 * (address mod 8)))
           ++ encodeCodeword (addressPayload address) :: rest.
Proof.
  intros Ha. destruct (addressPayload_value address Ha) as [_ Hp].
  rewrite afterPreamble_encodeTransmission. unfold transmissionBody.
  cbv zeta. rewrite addressOffset_value.
  rewrite (u32_small (addressPayload address))
    by (change (2 ^ 20) with 1048576 in Hp;
        change (2 ^ 32) with 4294967296; lia).
  cbn [app]. rewrite <- !app_assoc. cbn [app].
  eexists. reflexivity.
Qed.

Lemma decodeAddress_encodeTransmission address message :
  0 <= address < 2 ^ 21 ->
  decodeAddress (afterPreamble (encodeTransmission address message))
  = Some address.
Proof.
  intros Ha. destruct (afterPreamble_head address message Ha) as [rest ->].
  destruct (addressPayload_value address Ha) as [Hv Hp].
  destruct (addressPayload_fields address Ha) as [Hhi Hlo].
  assert (Hq : 0 <= addressPayload address < 2 ^ 21)
    by (change (2 ^ 20) with 1048576 in Hp; change (2 ^ 21) with 2097152;
        lia).
  pose proof (encodeCodeword_payload _ Hq) as Hpay.
  pose proof (encodeCodeword_range _ Hq) as Hr.
  pose proof (Z.mod_pos_bound address 8 ltac:(lia)) as Hm.
  assert (Hidle : encodeCodeword (addressPayload address) <> IDLE).
  { intros E. rewrite E in Hpay. rewrite <- Hpay in Hlo.
    vm_compute in Hlo. discriminate. }
  assert (Hbit : Z.testbit (encodeCodeword (addressPayload address)) 31
                 = false).
  { apply (testbit_high _ 31); [lia| |lia].
    change (2 ^ 20) with 1048576 in Hp. change (2 ^ 11) with 2048 in Hr.
    change (2 ^ 31) with 2147483648.
    generalize dependent (encodeCodeword (addressPayload address)).
    generalize dependent (addressPayload address). intros; lia. }
  assert (Hsh : Z.shiftr (encodeCodeword (addressPayload address)) 13
                = address / 8).
  { replace 13 with (11 + 2) by reflexivity.
    rewrite <- Z.shiftr_shiftr, Hpay, Hhi by lia.
    now rewrite Z.shiftr_div_pow2 by lia. }
  unfold decodeAddress. rewrite Z.eqb_refl.
  destruct (leadingIdle_repeat (Z.to_nat (2 * (address mod 8))) _ rest Hidle)
    as [-> ->].
  rewrite Hbit, Hsh, Z2Nat.id by lia. f_equal.
  rewrite Z.shiftl_mul_pow2 by lia.
  replace (2 * (address mod 8) / 2) with (address mod 8)
    by (rewrite Z.mul_comm, Z.div_mul; lia).
  rewrite lor_shifted by (change (2 ^ 3) with 8; lia).
  change (2 ^ 3) with 8. divlia.
Qed.

Lemma decodeTransmission_encodeTransmission address message :
  0 <= address < 2 ^ 21 -> sevenBitSafe message = true ->
  decodeTransmission (encodeTransmission address message)
  = Some (address, message).
Proof.
  intros Ha Hs. unfold decodeTransmission.
  rewrite (decodeAddress_encodeTransmission address message Ha).
  rewrite dataWords_encodeTransmission by assumption.
  destruct (chunks_spec (textBits message)) as [Hf [k [Hk Hc]]].
  destruct (payloadBits_chunks _ Hf) as [Hp _].
  rewrite Hp, Hc. now rewrite decodeText_textBits.
Qed.

End Receiver.

(** ** The synthesis of one message *)

Section Synthesis.

Lemma pcmDomain_rates n :
  0 <= n <= 6086 -> pcmDomain SAMPLE_RATE BAUD_RATE n.
Proof.
  intros Hn. unfold pcmDomain, lengthFits, SAMPLE_RATE, BAUD_RATE, SYMRATE.
  change (38400 / 512) with 75. change (2 ^ 32) with 4294967296.
  refine (conj (conj _ (conj _ (conj _ (conj _ _)))) (conj _ _));
    try lia; try divlia.
  exists 75. reflexivity.
Qed.

(** The number of words of a message of at most [16225] characters. *)
Lemma textMessageLength_bound address numChars bound :
  0 <= numChars <= bound -> bound <= 16225 ->
  textMessageLength address numChars
  <= 35 + 17 * ((16 + textWords bound) / 16).
Proof.
  intros Hn Hb.
  rewrite textMessageLength_value by (unfold INT_MAX; lia).
  pose proof (Z.mod_pos_bound address 8 ltac:(lia)) as Ha.
  assert (Ht : textWords numChars <= textWords bound)
    by (unfold textWords; apply Z.div_le_mono; lia).
  assert ((2 * (address mod 8) + 2 + textWords numChars) / 16
          <= (16 + textWords bound) / 16)
    by (apply Z.div_le_mono; lia).
  lia.
Qed.

Lemma synthesize_bytes address message :
  strlen message <= 16225 ->
  let n := textMessageLength address (strlen message) in
  let transmission := encodeTransmission address message in
  exists pcm,
    synthesize address message = Some pcm
    /\ Z.of_nat (List.length pcm) = n * 32 * SAMPLE_RATE / BAUD_RATE * 2
    /\ forall k,
         0 <= k < n * 32 * SAMPLE_RATE / BAUD_RATE ->
         let x := waveformSample (SYMRATE / BAUD_RATE) transmission
                    (readIndex SAMPLE_RATE (2 * k)) in
         nth_error pcm (Z.to_nat (2 * k)) = Some (Z.land x 0xFF)
         /\ nth_error pcm (Z.to_nat (2 * k + 1))
            = Some (Z.land (Z.shiftr x 8) 0xFF).
Proof.
  intros Hs. cbv zeta.
  pose proof (strlen_nonneg message) as H0.
  pose proof (textMessageLength_bound address (strlen message) 16225
                ltac:(lia) ltac:(lia)) as Hb.
  change (35 + 17 * ((16 + textWords 16225) / 16)) with 6070 in Hb.
  assert (Hmax : strlen message * 7 + 19 <= INT_MAX)
    by (unfold INT_MAX; lia).
  pose proof (encodeTransmission_count address message Hmax) as Hc.
  rewrite <- (textMessageLength_value address (strlen message)) in Hc
    by assumption.
  assert (Hn : 0 <= textMessageLength address (strlen message)) by lia.
  pose proof (pcmDomain_rates (textMessageLength address (strlen message))
                ltac:(lia)) as Hdom.
  destruct (pcmEncodeTransmission_bytes SAMPLE_RATE BAUD_RATE
              (encodeTransmission address message)
              (textMessageLength address (strlen message))
              Hdom (eq_sym Hc))
    as (pcm & Hp & Hl & Hk).
  destruct (pcm_sizes _ _ _ Hdom) as [HL _].
  exists pcm. unfold synthesize. cbv zeta.
  rewrite Hc, Z.ltb_irrefl, Hp. cbn [bind].
  rewrite Hl, Z.eqb_refl. refine (conj eq_refl (conj _ _)).
  - now rewrite <- HL.
  - intros k Hk'. apply Hk. rewrite HL.
    rewrite Z.div_mul by lia. exact Hk'.
Qed.

End Synthesis.

(** * The claims *)

Lemma strlen_repeatChar n : strlen (repeatChar n "A") = Z.of_nat n.
Proof.
  induction n as [|n IH]; [reflexivity|].
  cbn [repeatChar strlen]. change (byte_of "A" =? 0) with false.
  cbv iota. rewrite IH. lia.
Qed.

Lemma strlen_hugeMessage : strlen hugeMessage = 400000000.
Proof.
  unfold hugeMessage. rewrite strlen_repeatChar. apply Z2Nat.id. lia.
Qed.

(** C1, as stated, fails.  For a message of 400000000 characters the
    [int] product and sum [numChars * 7 + 19] is 2800000019, above
    [INT_MAX]; computed in 32 bits it is -1494967277, whose quotient by 20
    is -74748363, and [textMessageLength] returns 189015350, while
    [encodeTransmission] stores 148750035 words for the address 0:
    18 preamble words, 148750003 words up to the terminating IDLE
    (1 SYNC, the address word, 140000000 data words, 8750000 further SYNC
    words and the IDLE) and 14 padding words. *)
Lemma textMessageLength_overflows :
  strlen hugeMessage = 400000000
  /\ INT_MAX < strlen hugeMessage * TEXT_BITS_PER_CHAR + (TEXT_BITS_PER_WORD - 1)
  /\ textMessageLength 0 (strlen hugeMessage) = 189015350
  /\ Z.of_nat (List.length (encodeTransmission 0 hugeMessage)) = 148750035
  /\ Z.of_nat (List.length (encodeTransmission 0 hugeMessage))
     <> textMessageLength 0 (strlen hugeMessage).
Proof.
  pose proof strlen_hugeMessage as E.
  assert (HT : textMessageLength 0 (strlen hugeMessage) = 189015350)
    by (rewrite E; vm_compute; reflexivity).
  assert (HL : Z.of_nat (List.length (encodeTransmission 0 hugeMessage))
               = 148750035)
    by (rewrite encodeTransmission_length; cbv zeta; rewrite E;
        vm_compute; reflexivity).
  refine (conj E (conj _ (conj HT (conj HL _)))).
  - rewrite E. reflexivity.
  - rewrite HT, HL. discriminate.
Qed.

(** C1.  For every 21-bit address and every message, the number of words
    [encodeTransmission] stores, the 18 preamble words included, is the
    value [textMessageLength] returns for the address and the length of
    the message.  The length is the [int] argument [numChars]; the
    hypothesis on it keeps [numChars * 7 + 19] within [INT_MAX]. *)
Theorem textMessageLength_agrees address message :
  0 <= address < 2 ^ 21 ->
  strlen message * TEXT_BITS_PER_CHAR + (TEXT_BITS_PER_WORD - 1) <= INT_MAX ->
  Z.of_nat (List.length (encodeTransmission address message))
  = textMessageLength address (strlen message).
Proof.
  intros _ Hmax.
  unfold TEXT_BITS_PER_CHAR, TEXT_BITS_PER_WORD in Hmax.
  change (20 - 1) with 19 in Hmax.
  rewrite encodeTransmission_count by assumption.
  rewrite textMessageLength_value by (try assumption; apply strlen_nonneg).
  reflexivity.
Qed.

Lemma textMessageLength_agrees_witness :
  0 <= 1234567 < 2 ^ 21
  /\ strlen "HELLO WORLD" * TEXT_BITS_PER_CHAR + (TEXT_BITS_PER_WORD - 1)
     <= INT_MAX
  /\ Z.of_nat (List.length (encodeTransmission 1234567 "HELLO WORLD"))
     = textMessageLength 1234567 (strlen "HELLO WORLD").
Proof.
  assert (Ha : 0 <= 1234567 < 2 ^ 21) by (cbn; lia).
  assert (Hn : strlen "HELLO WORLD" * TEXT_BITS_PER_CHAR
               + (TEXT_BITS_PER_WORD - 1) <= INT_MAX)
    by (vm_compute; discriminate).
  exact (conj Ha (conj Hn
           (textMessageLength_agrees 1234567 "HELLO WORLD" Ha Hn))).
Defined.

(** C2.  For every 21-bit payload [m]: [crc m] lies in [0, 1023]; the
    division run on [(m << 10) | crc m] leaves remainder zero, and that
    word is a multiple of the generator 1897 as polynomials over GF(2),
    with a quotient of at most 21 coefficients, so that [crc m], of degree
    below 10, is the remainder of [m << 10] in the division by the
    generator; and [encodeCodeword m] is a 32-bit word whose bits 31..11
    are [m], whose bits 10..1 are [crc m] and whose bit 0 is the parity of
    the bits 31..1, so that the whole codeword has an even number of set
    bits. *)
Theorem codeword_crc_parity m :
  0 <= m < 2 ^ 21 ->
  0 <= crc m <= 1023
  /\ crc_divide (Z.lor (Z.shiftl m CRC_BITS) (crc m)) = 0
  /\ (exists q,
        0 <= q < 2 ^ 21
        /\ Z.lor (Z.shiftl m CRC_BITS) (crc m)
           = polyMul 21 q CRC_GENERATOR)
  /\ 0 <= encodeCodeword m < 2 ^ 32
  /\ Z.shiftr (encodeCodeword m) 11 = m
  /\ Z.land (Z.shiftr (encodeCodeword m) 1) 0x3FF = crc m
  /\ Z.land (encodeCodeword m) 1 = parity (Z.shiftr (encodeCodeword m) 1)
  /\ parity (encodeCodeword m) = 0
  /\ Nat.even (popcount 32 (encodeCodeword m)) = true.
Proof.
  intros Hm.
  pose proof (crc_bounds m) as Hc.
  pose proof (fullCRC_range m Hm) as Hf.
  pose proof (encodeCodeword_range m Hm) as Hr.
  pose proof (encodeCodeword_fullCRC m Hm) as Hs.
  assert (Hp : parity (encodeCodeword m) = 0).
  { rewrite encodeCodeword_value by assumption.
    replace (m * 2 ^ 11 + crc m * 2) with ((m * 2 ^ 10 + crc m) * 2)
      by (change (2 ^ 11) with (2 ^ 10 * 2); ring).
    now apply parity_appended. }
  refine (conj Hc (conj _ (conj (crc_quotient m Hm)
            (conj _ (conj _ (conj _ (conj _ (conj Hp _)))))))).
  - now apply crc_divide_checked.
  - change (2 ^ 21) with 2097152 in Hm. change (2 ^ 11) with 2048 in Hr.
    change (2 ^ 32) with 4294967296. lia.
  - now apply encodeCodeword_payload.
  - rewrite Hs. change 0x3FF with (Z.ones 10).
    rewrite Z.land_ones by lia.
    rewrite Z.add_comm, Z.mod_add by lia.
    apply Z.mod_small. change (2 ^ 10) with 1024. lia.
  - rewrite Hs. rewrite encodeCodeword_value by assumption.
    change 1 with (Z.ones 1) at 1. rewrite Z.land_ones by lia.
    replace (m * 2 ^ 11 + crc m * 2) with ((m * 2 ^ 10 + crc m) * 2 ^ 1)
      by (change (2 ^ 11) with (2 ^ 10 * 2); change (2 ^ 1) with 2; ring).
    rewrite Z.add_comm, Z.mod_add by lia.
    apply Z.mod_small. change (2 ^ 1) with 2.
    destruct (parity_bit (m * 2 ^ 10 + crc m)); lia.
  - rewrite parity_popcount in Hp.
    generalize dependent (popcount 32 (encodeCodeword m)). intros n Hn.
    apply Nat.even_spec. exists (Z.to_nat (Z.of_nat n / 2)). divlia.
Qed.

Lemma codeword_crc_parity_witness :
  0 <= 0x12345 < 2 ^ 21
  /\ (0 <= crc 0x12345 <= 1023
      /\ crc_divide (Z.lor (Z.shiftl 0x12345 CRC_BITS) (crc 0x12345)) = 0
      /\ (exists q,
            0 <= q < 2 ^ 21
            /\ Z.lor (Z.shiftl 0x12345 CRC_BITS) (crc 0x12345)
               = polyMul 21 q CRC_GENERATOR)
      /\ 0 <= encodeCodeword 0x12345 < 2 ^ 32
      /\ Z.shiftr (encodeCodeword 0x12345) 11 = 0x12345
      /\ Z.land (Z.shiftr (encodeCodeword 0x12345) 1) 0x3FF = crc 0x12345
      /\ Z.land (encodeCodeword 0x12345) 1
         = parity (Z.shiftr (encodeCodeword 0x12345) 1)
      /\ parity (encodeCodeword 0x12345) = 0
      /\ Nat.even (popcount 32 (encodeCodeword 0x12345)) = true).
Proof.
  assert (Hm : 0 <= 0x12345 < 2 ^ 21) by (cbn; lia).
  exact (conj Hm (codeword_crc_parity 0x12345 Hm)).
Defined.

(** C3.  Evaluation at the address 7 and the empty message, where the words
    up to the terminating IDLE word already fill the first batch: 1 SYNC,
    14 IDLE, the address word and the terminating IDLE make 17 words.
    [encodeTransmission] then stores 17 more IDLE words, 34 words after the
    preamble in all.  For the address 0 and the empty message the count
    after the preamble is 17. *)
Theorem padding_of_full_batch :
  Z.of_nat (List.length (transmissionBody 7 "")) = 17
  /\ paddingLength 17 = 17
  /\ afterPreamble (encodeTransmission 7 "")
     = transmissionBody 7 "" ++ repeat IDLE 17
  /\ Z.of_nat (List.length (afterPreamble (encodeTransmission 7 ""))) = 34
  /\ Z.of_nat (List.length (afterPreamble (encodeTransmission 0 ""))) = 17.
Proof. vm_compute. repeat split. Qed.

(** C4.  Evaluation at the address 7 and the empty message: the word at
    index 17 after the preamble, where the second batch starts, is IDLE and
    not SYNC; the 17 words from there on are all IDLE. *)
Theorem second_batch_without_sync :
  nth_error (afterPreamble (encodeTransmission 7 "")) 0 = Some SYNC
  /\ nth_error (afterPreamble (encodeTransmission 7 "")) 17 = Some IDLE
  /\ IDLE <> SYNC
  /\ skipn 17 (afterPreamble (encodeTransmission 7 "")) = repeat IDLE 17.
Proof. vm_compute. repeat split. discriminate. Qed.

(** C5.  For every 21-bit address, the words after the preamble are SYNC,
    then [(address mod 8) * 2] IDLE words, then the address codeword
    [encodeCodeword (((address >> 3) << 2) | 3)]; the codeword is neither
    IDLE nor SYNC, its flag bit 31 is clear, its payload is the one encoded,
    and the payload holds the address bits above the low three followed by
    the two bits 11. *)
Theorem address_word_placement address message :
  0 <= address < 2 ^ 21 ->
  let payload := Z.lor (Z.shiftl (Z.shiftr address 3) 2) 3 in
  let cw := encodeCodeword payload in
  addressOffset address = address mod 8 * 2
  /\ (exists rest,
        afterPreamble (encodeTransmission address message)
        = SYNC :: repeat IDLE (Z.to_nat (address mod 8 * 2)) ++ cw :: rest)
  /\ cw <> IDLE /\ cw <> SYNC
  /\ Z.testbit cw 31 = false
  /\ Z.shiftr cw 11 = payload
  /\ Z.shiftr payload 2 = Z.shiftr address 3
  /\ Z.land payload 3 = 3.
Proof.
  intros Ha. cbv zeta.
  change (Z.lor (Z.shiftl (Z.shiftr address 3) 2) 3)
    with (addressPayload address).
  destruct (addressPayload_value address Ha) as [Hv Hp].
  destruct (addressPayload_fields address Ha) as [Hhi Hlo].
  assert (Hq : 0 <= addressPayload address < 2 ^ 21)
    by (change (2 ^ 20) with 1048576 in Hp; change (2 ^ 21) with 2097152;
        lia).
  pose proof (encodeCodeword_payload _ Hq) as Hpay.
  pose proof (encodeCodeword_range _ Hq) as Hr.
  assert (Hu : u32 address = address)
    by (apply u32_small; change (2 ^ 21) with 2097152 in Ha;
        change (2 ^ 32) with 4294967296; lia).
  refine (conj _ (conj _ (conj _ (conj _ (conj _
            (conj Hpay (conj Hhi Hlo))))))).
  - rewrite <- Hu at 1. rewrite addressOffset_value. lia.
  - rewrite afterPreamble_encodeTransmission. unfold transmissionBody.
    cbv zeta. rewrite addressOffset_value.
    rewrite (u32_small (addressPayload address))
      by (change (2 ^ 20) with 1048576 in Hp;
          change (2 ^ 32) with 4294967296; lia).
    replace (2 * (address mod 8)) with (address mod 8 * 2) by lia.
    cbn [app]. rewrite <- !app_assoc. cbn [app].
    eexists. reflexivity.
  - intros E. rewrite E in Hpay. rewrite <- Hpay in Hlo.
    vm_compute in Hlo. discriminate.
  - intros E. rewrite E in Hpay. rewrite <- Hpay in Hlo.
    vm_compute in Hlo. discriminate.
  - apply (testbit_high _ 31); [lia| |lia].
    change (2 ^ 20) with 1048576 in Hp. change (2 ^ 11) with 2048 in Hr.
    change (2 ^ 31) with 2147483648.
    generalize dependent (encodeCodeword (addressPayload address)).
    generalize dependent (addressPayload address). intros; lia.
Qed.

Lemma address_word_placement_witness :
  0 <= 1234567 < 2 ^ 21
  /\ (let payload := Z.lor (Z.shiftl (Z.shiftr 1234567 3) 2) 3 in
      let cw := encodeCodeword payload in
      addressOffset 1234567 = 1234567 mod 8 * 2
      /\ (exists rest,
            afterPreamble (encodeTransmission 1234567 "HELLO WORLD")
            = SYNC :: repeat IDLE (Z.to_nat (1234567 mod 8 * 2)) ++ cw :: rest)
      /\ cw <> IDLE /\ cw <> SYNC
      /\ Z.testbit cw 31 = false
      /\ Z.shiftr cw 11 = payload
      /\ Z.shiftr payload 2 = Z.shiftr 1234567 3
      /\ Z.land payload 3 = 3).
Proof.
  assert (Ha : 0 <= 1234567 < 2 ^ 21) by (cbn; lia).
  exact (conj Ha (address_word_placement 1234567 "HELLO WORLD" Ha)).
Defined.

(** C10.  [textMessageLength] depends on the address through
    [address mod 8] only, and the number of words [encodeTransmission]
    stores depends on the message through its length only. *)
Theorem word_count_dependencies address address' numChars message message' :
  0 <= address < 2 ^ 21 -> 0 <= address' < 2 ^ 21 ->
  address mod 8 = address' mod 8 ->
  strlen message = strlen message' ->
  textMessageLength address numChars = textMessageLength address' numChars
  /\ List.length (encodeTransmission address message)
     = List.length (encodeTransmission address message')
  /\ List.length (encodeTransmission address message)
     = List.length (encodeTransmission address' message').
Proof.
  intros _ _ Ha Hs. split; [|split].
  - unfold textMessageLength. cbv zeta.
    rewrite !addressOffset_value, Ha. reflexivity.
  - apply Nat2Z.inj. rewrite !encodeTransmission_length. cbv zeta.
    now rewrite Hs.
  - apply Nat2Z.inj. rewrite !encodeTransmission_length. cbv zeta.
    now rewrite Hs, Ha.
Qed.

Lemma word_count_dependencies_witness :
  0 <= 1234567 < 2 ^ 21 /\ 0 <= 15 < 2 ^ 21
  /\ 1234567 mod 8 = 15 mod 8
  /\ strlen "HELLO" = strlen "WORLD"
  /\ (textMessageLength 1234567 40 = textMessageLength 15 40
      /\ List.length (encodeTransmission 1234567 "HELLO")
         = List.length (encodeTransmission 1234567 "WORLD")
      /\ List.length (encodeTransmission 1234567 "HELLO")
         = List.length (encodeTransmission 15 "WORLD")).
Proof.
  assert (Ha : 0 <= 1234567 < 2 ^ 21) by (cbn; lia).
  assert (Hb : 0 <= 15 < 2 ^ 21) by (cbn; lia).
  assert (Hm : 1234567 mod 8 = 15 mod 8) by reflexivity.
  assert (Hs : strlen "HELLO" = strlen "WORLD") by reflexivity.
  exact (conj Ha (conj Hb (conj Hm (conj Hs
    (word_count_dependencies 1234567 15 40 "HELLO" "WORLD" Ha Hb Hm Hs))))).
Defined.

(** C6.  For every 21-bit address and every message of characters 1 to
    127, the payload bits of the data codewords of the transmission, in
    order and most significant bit first, are the characters of the
    message as groups of seven bits, least significant bit first, followed
    by fewer than 20 zero bits; the decoder that reads the groups back
    returns the message; and an empty message gives no data codeword. *)
Theorem text_round_trip address message :
  0 <= address < 2 ^ 21 ->
  sevenBitSafe message = true ->
  let bits :=
    flat_map payloadBits (dataWords (encodeTransmission address message)) in
  (exists k,
     (k < 20)%nat
     /\ bits
        = flat_map (fun ch => charBits (byte_of ch))
            (list_ascii_of_string message)
          ++ repeat false k)
  /\ decodeText bits = message
  /\ dataWords (encodeTransmission address EmptyString) = [].
Proof.
  intros Ha Hs. cbv zeta.
  rewrite !dataWords_encodeTransmission by assumption.
  destruct (chunks_spec (textBits message)) as [Hf [k [Hk Hc]]].
  destruct (payloadBits_chunks _ Hf) as [Hp _].
  rewrite Hp, Hc. split; [|split].
  - exists k. split; [assumption|]. now rewrite textBits_safe.
  - now apply decodeText_textBits.
  - reflexivity.
Qed.

Lemma text_round_trip_witness :
  0 <= 1234567 < 2 ^ 21
  /\ sevenBitSafe "HELLO WORLD" = true
  /\ (let bits :=
        flat_map payloadBits
          (dataWords (encodeTransmission 1234567 "HELLO WORLD")) in
      (exists k,
         (k < 20)%nat
         /\ bits
            = flat_map (fun ch => charBits (byte_of ch))
                (list_ascii_of_string "HELLO WORLD")
              ++ repeat false k)
      /\ decodeText bits = "HELLO WORLD"%string
      /\ dataWords (encodeTransmission 1234567 EmptyString) = []).
Proof.
  assert (Ha : 0 <= 1234567 < 2 ^ 21) by (cbn; lia).
  assert (Hs : sevenBitSafe "HELLO WORLD" = true) by reflexivity.
  exact (conj Ha (conj Hs (text_round_trip 1234567 "HELLO WORLD" Ha Hs))).
Defined.

(** ** The PCM claims *)

Lemma land_255 x : Z.land x 0xFF = x mod 256.
Proof. change 0xFF with (Z.ones 8). now rewrite Z.land_ones by lia. Qed.

Lemma bytes_littleEndian16 x :
  (Z.land x 0xFF, Z.land (Z.shiftr x 8) 0xFF) = littleEndian16 x.
Proof.
  unfold littleEndian16. rewrite !land_255, Z.shiftr_div_pow2 by lia.
  change (2 ^ 16) with 65536. change (2 ^ 8) with 256.
  f_equal; divlia.
Qed.

Lemma waveformSample_level R transmission s :
  waveformSample R transmission s = 16383
  \/ waveformSample R transmission s = -16383.
Proof.
  unfold waveformSample. cbv zeta.
  destruct (Z.testbit _ _); [now right|now left].
Qed.

Lemma pcmDomain_default : pcmDomain 22050 512 86.
Proof.
  unfold pcmDomain, lengthFits. repeat split; try reflexivity;
    try discriminate.
  exists 75. reflexivity.
Qed.

(** C7, as stated, fails.  On the 32-bit [size_t] the product
    [6087 * 32 * 22050] wraps, so for the default rates and 6087 words
    [pcmTransmissionLength] returns 76 and not 16777292 (for 2^31 words at
    the sample rate 2^31 the product is a multiple of 2^64 and the result
    is 0 whatever the width of [size_t]); and for the baud rate 1000,
    which does not divide the symbol rate, [pcmEncodeTransmission] reads
    outside its sample buffer. *)
Lemma pcmTransmissionLength_wraps :
  pcmTransmissionLength 22050 512 6087 = 76
  /\ 6087 * 32 * 22050 / 512 * 2 = 16777292
  /\ pcmTransmissionLength (2 ^ 31) 1 (2 ^ 31) = 0
  /\ 2 ^ 31 * 32 * 2 ^ 31 / 1 * 2 = 2 ^ 68
  /\ pcmEncodeTransmission 38400 1000 [SYNC] 1 = None.
Proof. vm_compute. repeat split. Qed.

(** C7, amended.  For positive rates and a word count [n] for which the
    [size_t] computation does not wrap, [pcmTransmissionLength] is
    [n * 32 * sampleRate / baudRate * 2] with floor division from left to
    right; and when moreover the baud rate divides 38400 and the
    allocation size does not wrap, [pcmEncodeTransmission] on [n] words
    stores exactly that many bytes. *)
Theorem pcm_length_exact sampleRate baudRate transmission n :
  lengthFits sampleRate baudRate n ->
  n = Z.of_nat (List.length transmission) ->
  pcmTransmissionLength sampleRate baudRate n
  = n * 32 * sampleRate / baudRate * 2
  /\ ((baudRate | SYMRATE) ->
      2 * n * 32 * (SYMRATE / baudRate) < 2 ^ 32 ->
      exists out,
        pcmEncodeTransmission sampleRate baudRate transmission n = Some out
        /\ Z.of_nat (List.length out)
           = pcmTransmissionLength sampleRate baudRate n).
Proof.
  intros Hfit Hn. split; [now apply pcmTransmissionLength_value|].
  intros Hdiv Halloc.
  destruct (pcmEncodeTransmission_bytes sampleRate baudRate transmission n)
    as [out [Ho [Hl _]]];
    [exact (conj Hfit (conj Hdiv Halloc)) | assumption |].
  exists out. now split.
Qed.

Lemma pcm_length_exact_witness :
  lengthFits 22050 512 86
  /\ 86 = Z.of_nat (List.length (encodeTransmission 0 longMessage))
  /\ (pcmTransmissionLength 22050 512 86 = 86 * 32 * 22050 / 512 * 2
      /\ ((512 | SYMRATE) ->
          2 * 86 * 32 * (SYMRATE / 512) < 2 ^ 32 ->
          exists out,
            pcmEncodeTransmission 22050 512
              (encodeTransmission 0 longMessage) 86 = Some out
            /\ Z.of_nat (List.length out)
               = pcmTransmissionLength 22050 512 86)).
Proof.
  assert (Hfit : lengthFits 22050 512 86)
    by (unfold lengthFits; vm_compute; intuition discriminate).
  assert (Hn : 86 = Z.of_nat (List.length (encodeTransmission 0 longMessage)))
    by (vm_compute; reflexivity).
  exact (conj Hfit (conj Hn
           (pcm_length_exact 22050 512 (encodeTransmission 0 longMessage) 86
              Hfit Hn))).
Defined.

(** C8, as stated, fails.  For the baud rate 1000 the waveform of one
    word has 1216 samples, while output sample 1216 of the 1228 asks for
    the sample at index 1216: [pcmEncodeTransmission] reads outside its
    buffer.  And for the default rates and the 86 words of a 130-character
    message, [111849 * 38400] wraps on the 32-bit [size_t]: output sample
    111849 is read at index 1 instead of 194784, and the low byte stored
    is 1 where the waveform sample has the low byte 255. *)
Lemma pcm_sample_mismatch :
  (pcmTransmissionLength 38400 1000 1 / 2 = 1228
   /\ Z.of_nat (List.length (wave (SYMRATE / 1000) [SYNC])) = 1216
   /\ 1216 * SYMRATE / 38400 = 1216
   /\ pcmEncodeTransmission 38400 1000 [SYNC] 1 = None)
  /\ (let transmission := encodeTransmission 0 longMessage in
      111849 < pcmTransmissionLength 22050 512 86 / 2
      /\ readIndex 22050 (2 * 111849) = 1
      /\ 111849 * SYMRATE / 22050 = 194784
      /\ (exists out,
            pcmEncodeTransmission 22050 512 transmission 86 = Some out
            /\ nth_error out (Z.to_nat (2 * 111849)) = Some 1)
      /\ fst (littleEndian16
                (waveformSample (SYMRATE / 512) transmission 194784))
         = 255).
Proof.
  split; [vm_compute; repeat split|].
  cbv zeta.
  assert (Hn : 86 = Z.of_nat (List.length (encodeTransmission 0 longMessage)))
    by (vm_compute; reflexivity).
  destruct (pcmEncodeTransmission_bytes 22050 512
              (encodeTransmission 0 longMessage) 86 pcmDomain_default Hn)
    as [out [Ho [_ Hb]]].
  refine (conj _ (conj _ (conj _ (conj _ _)))).
  - vm_compute. reflexivity.
  - vm_compute. reflexivity.
  - vm_compute. reflexivity.
  - exists out. split; [assumption|].
    destruct (Hb 111849) as [H0 _]; [vm_compute; split; congruence|].
    rewrite H0. vm_compute. reflexivity.
  - vm_compute. reflexivity.
Qed.

(** C8, amended.  For rates and a word count in [pcmDomain] (the baud rate
    divides 38400 and no size computation wraps), every output sample
    index [i] below [pcmTransmissionLength / 2] with [i * 38400] below
    2^32 has at the bytes [2 i] and [2 i + 1] the little-endian 16-bit
    value of the waveform sample [floor (i * 38400 / sampleRate)], where
    the waveform takes the 32 bits of each codeword most significant first,
    each [38400 / baudRate] times, +16383 for a 0 bit and -16383 for a 1
    bit. *)
Theorem pcm_samples sampleRate baudRate transmission n :
  pcmDomain sampleRate baudRate n ->
  n = Z.of_nat (List.length transmission) ->
  exists out,
    pcmEncodeTransmission sampleRate baudRate transmission n = Some out
    /\ forall i,
         0 <= i < pcmTransmissionLength sampleRate baudRate n / 2 ->
         i * SYMRATE < 2 ^ 32 ->
         let x := waveformSample (SYMRATE / baudRate) transmission
                    (i * SYMRATE / sampleRate) in
         nth_error out (Z.to_nat (2 * i)) = Some (fst (littleEndian16 x))
         /\ nth_error out (Z.to_nat (2 * i + 1))
            = Some (snd (littleEndian16 x))
         /\ (x = 16383 \/ x = -16383).
Proof.
  intros Hdom Hn.
  destruct (pcmEncodeTransmission_bytes _ _ _ _ Hdom Hn) as [out [Ho [_ Hb]]].
  exists out. split; [assumption|].
  intros i Hi Hw. cbv zeta.
  destruct (Hb i Hi) as [H0 H1]. cbv zeta in H0, H1.
  assert (Hidx : readIndex sampleRate (2 * i) = i * SYMRATE / sampleRate).
  { unfold readIndex.
    replace (2 * i / 2) with i by (rewrite Z.mul_comm, Z.div_mul; lia).
    rewrite u32_small by (unfold SYMRATE in *; lia). reflexivity. }
  rewrite Hidx in H0, H1.
  rewrite <- bytes_littleEndian16. cbn [fst snd].
  split; [assumption|]. split; [assumption|].
  apply waveformSample_level.
Qed.

Lemma pcm_samples_witness :
  pcmDomain 22050 512 86
  /\ 86 = Z.of_nat (List.length (encodeTransmission 0 longMessage))
  /\ exists out,
       pcmEncodeTransmission 22050 512 (encodeTransmission 0 longMessage) 86
       = Some out
       /\ forall i,
            0 <= i < pcmTransmissionLength 22050 512 86 / 2 ->
            i * SYMRATE < 2 ^ 32 ->
            let x := waveformSample (SYMRATE / 512)
                       (encodeTransmission 0 longMessage)
                       (i * SYMRATE / 22050) in
            nth_error out (Z.to_nat (2 * i)) = Some (fst (littleEndian16 x))
            /\ nth_error out (Z.to_nat (2 * i + 1))
               = Some (snd (littleEndian16 x))
            /\ (x = 16383 \/ x = -16383).
Proof.
  assert (Hn : 86 = Z.of_nat (List.length (encodeTransmission 0 longMessage)))
    by (vm_compute; reflexivity).
  assert (Hd : pcmDomain 22050 512 86).
  { unfold pcmDomain, lengthFits.
    refine (conj _ (conj (ex_intro _ 75 eq_refl) _));
      vm_compute; intuition discriminate. }
  exact (conj Hd (conj Hn
           (pcm_samples 22050 512 (encodeTransmission 0 longMessage) 86
              Hd Hn))).
Defined.

(** C9, as stated, fails.  For the sample rate 22050, the baud rate 1000
    and one word, [malloc] makes room for 32 * 38 = 1216 samples, and the
    resampling loop, at byte offset 1398 of the 1410 it produces, reads the
    sample at index 1217: [pcmEncodeTransmission] has no defined result. *)
Lemma pcm_read_out_of_bounds :
  allocatedSamples 1000 1 = 1216
  /\ 1 * 32 * (SYMRATE / 1000) = 1216
  /\ pcmTransmissionLength 22050 1000 1 = 1410
  /\ readIndex 22050 1398 = 1217
  /\ pcmEncodeTransmission 22050 1000 [SYNC] 1 = None.
Proof. vm_compute. repeat split. Qed.

(** C9, amended.  The core functions are total.  For a sample rate, a baud
    rate and a word count in [pcmDomain] (positive rates, the baud rate
    divides 38400, no size computation wraps), every index the resampling
    loop reads is below the [n * 32 * (38400 / baudRate)] samples
    allocated, and [pcmEncodeTransmission] returns after storing exactly
    [pcmTransmissionLength] bytes; and [encodeTransmission] stores exactly
    [textMessageLength] words for a 21-bit address and a message whose
    length keeps the [int] arithmetic within [INT_MAX]. *)
Theorem pcm_reads_in_bounds sampleRate baudRate transmission n :
  pcmDomain sampleRate baudRate n ->
  n = Z.of_nat (List.length transmission) ->
  allocatedSamples baudRate n = n * 32 * (SYMRATE / baudRate)
  /\ (forall i,
        0 <= i < pcmTransmissionLength sampleRate baudRate n ->
        i mod 2 = 0 ->
        0 <= readIndex sampleRate i < allocatedSamples baudRate n)
  /\ (exists out,
        pcmEncodeTransmission sampleRate baudRate transmission n = Some out
        /\ Z.of_nat (List.length out)
           = pcmTransmissionLength sampleRate baudRate n)
  /\ (forall address message,
        0 <= address < 2 ^ 21 ->
        strlen message * 7 + 19 <= INT_MAX ->
        Z.of_nat (List.length (encodeTransmission address message))
        = textMessageLength address (strlen message)).
Proof.
  intros Hdom Hn.
  destruct (pcm_sizes _ _ _ Hdom) as [HL HA].
  refine (conj HA (conj _ (conj _ _))).
  - intros i Hi Heven. rewrite HA.
    replace i with (0 + 2 * (i / 2)) by divlia.
    apply readIndex_in_bounds; [assumption|].
    rewrite HL in Hi. divlia.
  - destruct (pcmEncodeTransmission_bytes _ _ _ _ Hdom Hn)
      as [out [Ho [Hl _]]].
    exists out. now split.
  - intros address message _ Hmax.
    rewrite encodeTransmission_count by assumption.
    rewrite textMessageLength_value by (try assumption; apply strlen_nonneg).
    reflexivity.
Qed.

Lemma pcm_reads_in_bounds_witness :
  pcmDomain 22050 512 86
  /\ 86 = Z.of_nat (List.length (encodeTransmission 0 longMessage))
  /\ (allocatedSamples 512 86 = 86 * 32 * (SYMRATE / 512)
      /\ (forall i,
            0 <= i < pcmTransmissionLength 22050 512 86 ->
            i mod 2 = 0 ->
            0 <= readIndex 22050 i < allocatedSamples 512 86)
      /\ (exists out,
            pcmEncodeTransmission 22050 512
              (encodeTransmission 0 longMessage) 86 = Some out
            /\ Z.of_nat (List.length out)
               = pcmTransmissionLength 22050 512 86)
      /\ (forall address message,
            0 <= address < 2 ^ 21 ->
            strlen message * 7 + 19 <= INT_MAX ->
            Z.of_nat (List.length (encodeTransmission address message))
            = textMessageLength address (strlen message))).
Proof.
  assert (Hn : 86 = Z.of_nat (List.length (encodeTransmission 0 longMessage)))
    by (vm_compute; reflexivity).
  assert (Hd : pcmDomain 22050 512 86).
  { unfold pcmDomain, lengthFits.
    refine (conj _ (conj (ex_intro _ 75 eq_refl) _));
      vm_compute; intuition discriminate. }
  exact (conj Hd (conj Hn
           (pcm_reads_in_bounds 22050 512 (encodeTransmission 0 longMessage)
              86 Hd Hn))).
Defined.

(** * Further properties *)

(** ** Codewords *)

(** X1.  [parity] returns 1 exactly when the number of set bits among the
    32 low bits of its argument is odd, and 0 exactly when it is even. *)
Theorem parity_counts_set_bits x :
  (parity x = 1 <-> Nat.odd (popcount 32 x) = true)
  /\ (parity x = 0 <-> Nat.even (popcount 32 x) = true).
Proof.
  rewrite parity_popcount.
  generalize (popcount 32 x). intros n. split; split.
  - intros H. apply Nat.odd_spec. exists (Z.to_nat (Z.of_nat n / 2)). divlia.
  - intros H. apply Nat.odd_spec in H as [k ->]. divlia.
  - intros H. apply Nat.even_spec. exists (Z.to_nat (Z.of_nat n / 2)). divlia.
  - intros H. apply Nat.even_spec in H as [k ->]. divlia.
Qed.

(** X2.  The CRC and the codeword encoder are linear over xor: for 21-bit
    payloads [a] and [b] the CRC of [a xor b] is the xor of the CRCs, and
    the codeword of [a xor b] is the xor of the codewords. *)
Theorem codeword_linear a b :
  0 <= a < 2 ^ 21 -> 0 <= b < 2 ^ 21 ->
  crc (Z.lxor a b) = Z.lxor (crc a) (crc b)
  /\ encodeCodeword (Z.lxor a b)
     = Z.lxor (encodeCodeword a) (encodeCodeword b).
Proof.
  intros Ha Hb. split; [now apply crc_lxor|now apply encodeCodeword_lxor].
Qed.

Lemma codeword_linear_witness :
  0 <= 0x12345 < 2 ^ 21 /\ 0 <= 0x0F0F0F < 2 ^ 21
  /\ (crc (Z.lxor 0x12345 0x0F0F0F) = Z.lxor (crc 0x12345) (crc 0x0F0F0F)
      /\ encodeCodeword (Z.lxor 0x12345 0x0F0F0F)
         = Z.lxor (encodeCodeword 0x12345) (encodeCodeword 0x0F0F0F)).
Proof.
  assert (Ha : 0 <= 0x12345 < 2 ^ 21) by (cbn; lia).
  assert (Hb : 0 <= 0x0F0F0F < 2 ^ 21) by (cbn; lia).
  exact (conj Ha (conj Hb (codeword_linear 0x12345 0x0F0F0F Ha Hb))).
Defined.

(** ** Transmissions *)

(** X3.  For a 21-bit address every word [encodeTransmission] stores is a
    32-bit value, and every word after the preamble - SYNC and IDLE
    included - passes the receiver's check: the CRC of its bits 31..11 is
    its field in the bits 10..1 and its parity is even. *)
Theorem transmission_words_valid address message :
  0 <= address < 2 ^ 21 ->
  Forall (fun w => 0 <= w < 2 ^ 32) (encodeTransmission address message)
  /\ Forall validCodeword
       (afterPreamble (encodeTransmission address message)).
Proof.
  intros Ha. pose proof (afterPreamble_valid address message Ha) as Hv.
  split; [|exact Hv].
  change (encodeTransmission address message)
    with (repeat 0xAAAAAAAA 18
          ++ afterPreamble (encodeTransmission address message)).
  apply Forall_app. split.
  - apply Forall_repeat. vm_compute. intuition discriminate.
  - eapply Forall_impl; [|exact Hv]. now intros w [H _].
Qed.

Lemma transmission_words_valid_witness :
  0 <= 1234567 < 2 ^ 21
  /\ (Forall (fun w => 0 <= w < 2 ^ 32)
        (encodeTransmission 1234567 "HELLO WORLD")
      /\ Forall validCodeword
           (afterPreamble (encodeTransmission 1234567 "HELLO WORLD"))).
Proof.
  assert (Ha : 0 <= 1234567 < 2 ^ 21) by (cbn; lia).
  exact (conj Ha (transmission_words_valid 1234567 "HELLO WORLD" Ha)).
Defined.

(** X4.  For a batch position [initial_offset] in 0..15, [encodeASCII]
    stores [ceil (7 n / 20)] data codewords for the [n] characters of the
    string and one SYNC word each time the position reaches 16: the count
    it returns is [d + (initial_offset + d) / 16] with [d] the number of
    data codewords, and every word stored is SYNC or a data codeword with
    the message flag set. *)
Theorem encodeASCII_count initial_offset str :
  0 <= initial_offset < 16 ->
  let d := (7 * strlen str + 19) / 20 in
  Z.of_nat (List.length (encodeASCII initial_offset str))
  = d + (initial_offset + d) / 16
  /\ Z.of_nat (List.length (filter isDataWord (encodeASCII initial_offset str)))
     = d
  /\ Forall (fun w => w = SYNC \/ isDataWord w = true)
       (encodeASCII initial_offset str).
Proof.
  intros Ho. cbv zeta. refine (conj _ (conj _ _)).
  - now apply encodeASCII_length.
  - rewrite encodeASCII_frame by assumption.
    destruct (chunks_spec (textBits str)) as [Hf _].
    destruct (payloadBits_chunks _ Hf) as [_ Hd].
    rewrite filter_frame by assumption.
    now rewrite length_map, chunks_length, textBits_length.
  - eapply Forall_impl; [|now apply encodeASCII_words].
    now intros w [_ H].
Qed.

Lemma encodeASCII_count_witness :
  0 <= 15 < 16
  /\ (let d := (7 * strlen "HELLO WORLD" + 19) / 20 in
      Z.of_nat (List.length (encodeASCII 15 "HELLO WORLD"))
      = d + (15 + d) / 16
      /\ Z.of_nat (List.length (filter isDataWord
                                  (encodeASCII 15 "HELLO WORLD")))
         = d
      /\ Forall (fun w => w = SYNC \/ isDataWord w = true)
           (encodeASCII 15 "HELLO WORLD")).
Proof.
  assert (Ho : 0 <= 15 < 16) by lia.
  exact (conj Ho (encodeASCII_count 15 "HELLO WORLD" Ho)).
Defined.

(** X5.  Only the low seven bits of a character are transmitted: two
    strings of the same length whose characters are not NUL and agree
    modulo 128 give the same words, from [encodeASCII] at any offset and
    from [encodeTransmission] for any address. *)
Theorem high_bit_ignored s t initial_offset address :
  sameLow7 s t = true ->
  encodeASCII initial_offset s = encodeASCII initial_offset t
  /\ encodeTransmission address s = encodeTransmission address t.
Proof.
  intros H.
  assert (E : forall off, encodeASCII off s = encodeASCII off t)
    by (intros off; unfold encodeASCII;
        now rewrite (encodeASCII_loop_low7 s t _ H)).
  split; [apply E|].
  unfold encodeTransmission, transmissionBody. now rewrite E.
Qed.

Lemma high_bit_ignored_witness :
  sameLow7 "Hi" (String (ascii_of_N 200) (String (ascii_of_N 233) EmptyString))
  = true
  /\ (encodeASCII 3 "Hi"
      = encodeASCII 3
          (String (ascii_of_N 200) (String (ascii_of_N 233) EmptyString))
      /\ encodeTransmission 42 "Hi"
         = encodeTransmission 42
             (String (ascii_of_N 200)
                (String (ascii_of_N 233) EmptyString))).
Proof.
  assert (H : sameLow7 "Hi"
                (String (ascii_of_N 200)
                   (String (ascii_of_N 233) EmptyString)) = true)
    by reflexivity.
  exact (conj H (high_bit_ignored _ _ 3 42 H)).
Defined.

(** X6.  The state in which the character loop of [encodeASCII] ends, for
    a start position in 0..15 and a string of [n] characters: the number
    of pending bits is [7 n mod 20], below 20; the batch position is
    [(initial_offset + 7 n / 20) mod 16], below 16; and the pending word is
    below [2 ^ currentNumBits]. *)
Theorem packer_final_state initial_offset str :
  0 <= initial_offset < 16 ->
  let st := snd (encodeASCII_loop str (mkPacker 0 0 initial_offset)) in
  currentNumBits st = (7 * strlen str) mod 20
  /\ wordPosition st = (initial_offset + 7 * strlen str / 20) mod 16
  /\ 0 <= currentWord st < 2 ^ currentNumBits st.
Proof. apply encodeASCII_loop_state. Qed.

Lemma packer_final_state_witness :
  0 <= 15 < 16
  /\ (let st := snd (encodeASCII_loop "HELLO WORLD" (mkPacker 0 0 15)) in
      currentNumBits st = (7 * strlen "HELLO WORLD") mod 20
      /\ wordPosition st = (15 + 7 * strlen "HELLO WORLD" / 20) mod 16
      /\ 0 <= currentWord st < 2 ^ currentNumBits st).
Proof.
  assert (Ho : 0 <= 15 < 16) by lia.
  exact (conj Ho (packer_final_state 15 "HELLO WORLD" Ho)).
Defined.

(** ** Error detection *)

(** X7.  A 32-bit word passes the receiver's check - the CRC of its bits
    31..11 is its field in the bits 10..1 and its parity is even - exactly
    when it is the codeword [encodeCodeword] builds from its bits 31..11:
    decoding the payload of a valid word and encoding it again gives the
    word back, and no other word is valid. *)
Theorem valid_iff_encoded w :
  validCodeword w
  <-> 0 <= w < 2 ^ 32 /\ encodeCodeword (Z.shiftr w 11) = w.
Proof.
  split.
  - intros H. split; [apply H|now apply validCodeword_encoded].
  - intros [Hw E]. rewrite <- E. apply encodeCodeword_valid.
    rewrite Z.shiftr_div_pow2 by lia.
    change (2 ^ 32) with 4294967296 in Hw. change (2 ^ 11) with 2048.
    change (2 ^ 21) with 2097152. divlia.
Qed.

(** X8.  The valid codewords are closed under xor: when a valid codeword
    is received with the bits of a 32-bit error pattern [e] flipped, the
    result passes the check exactly when [e] is itself a valid codeword. *)
Theorem undetected_errors_are_codewords w e :
  validCodeword w -> 0 <= e < 2 ^ 32 ->
  validCodeword (Z.lxor w e) <-> validCodeword e.
Proof.
  intros Hv He. apply validCodeword_checkBits in Hv as [Hw Hc].
  rewrite !validCodeword_checkBits, checkBits_lxor, Hc. cbn [fst snd].
  rewrite !Z.lxor_0_l, <- surjective_pairing.
  pose proof (lxor_nonneg_range w e 32 ltac:(lia) Hw He). tauto.
Qed.

Lemma undetected_errors_are_codewords_witness :
  validCodeword SYNC /\ 0 <= IDLE < 2 ^ 32
  /\ (validCodeword (Z.lxor SYNC IDLE) <-> validCodeword IDLE).
Proof.
  assert (Hv : validCodeword SYNC) by (vm_compute; intuition discriminate).
  assert (He : 0 <= IDLE < 2 ^ 32) by (vm_compute; intuition discriminate).
  exact (conj Hv (conj He (undetected_errors_are_codewords SYNC IDLE Hv He))).
Defined.

(** X9.  Flipping between one and five distinct bits of a valid codeword
    always gives a word that fails the receiver's check: the CRC with the
    generator 1897 and the parity bit detect every error of up to five
    bits in a codeword. *)
Theorem errors_detected w positions :
  validCodeword w ->
  Forall (fun p => 0 <= p < 32) positions ->
  NoDup positions ->
  (1 <= List.length positions <= 5)%nat ->
  ~ validCodeword (Z.lxor w (flipBits positions)).
Proof.
  intros Hv Hr Hd Hl Hbad.
  assert (Hne : flipBits positions <> 0).
  { apply flipBits_NoDup; try assumption.
    intros ->. cbn [List.length] in Hl. lia. }
  apply (undetected_errors_are_codewords w _ Hv (flipBits_range _ Hr)) in Hbad.
  apply validCodeword_checkBits in Hbad as [_ Hc].
  apply (flips_detected positions Hr); [lia|assumption|assumption].
Qed.

Lemma errors_detected_witness :
  validCodeword IDLE
  /\ Forall (fun p => 0 <= p < 32) [0; 7; 12; 31]
  /\ NoDup [0; 7; 12; 31]
  /\ (1 <= List.length [0; 7; 12; 31] <= 5)%nat
  /\ ~ validCodeword (Z.lxor IDLE (flipBits [0; 7; 12; 31])).
Proof.
  assert (Hv : validCodeword IDLE) by (vm_compute; intuition discriminate).
  assert (Hr : Forall (fun p => 0 <= p < 32) [0; 7; 12; 31])
    by (repeat constructor; lia).
  assert (Hd : NoDup [0; 7; 12; 31])
    by (repeat constructor; cbn [In]; lia).
  assert (Hl : (1 <= List.length [0; 7; 12; 31] <= 5)%nat)
    by (cbn [List.length]; lia).
  exact (conj Hv (conj Hr (conj Hd (conj Hl
           (errors_detected IDLE [0; 7; 12; 31] Hv Hr Hd Hl))))).
Defined.

(** ** Lengths and batches *)

(** X10.  For a string length within [INT_MAX], [textMessageLength] is the
    18 preamble words and a whole number of batches of 17 words, at least
    one and at most [2 + ceil (7 n / 20) / 16]; and a longer message never
    gives a smaller count. *)
Theorem textMessageLength_batches address numChars numChars' :
  0 <= numChars <= numChars' -> numChars' * 7 + 19 <= INT_MAX ->
  (exists batches,
     1 <= batches <= 2 + textWords numChars / 16
     /\ textMessageLength address numChars = 18 + 17 * batches)
  /\ textMessageLength address numChars
     <= textMessageLength address numChars'.
Proof.
  intros Hn Hmax.
  rewrite !textMessageLength_value by lia.
  pose proof (Z.mod_pos_bound address 8 ltac:(lia)) as Ha.
  assert (Ht : 0 <= textWords numChars <= textWords numChars').
  { unfold textWords. split; [apply Z.div_pos; lia|].
    apply Z.div_le_mono; lia. }
  split.
  - exists ((2 * (address mod 8) + 2 + textWords numChars) / 16 + 1).
    split; [|reflexivity].
    destruct Ht as [Ht _].
    generalize dependent (textWords numChars). intros t Ht.
    generalize dependent (address mod 8). intros a Ha. divlia.
  - assert ((2 * (address mod 8) + 2 + textWords numChars) / 16
            <= (2 * (address mod 8) + 2 + textWords numChars') / 16)
      by (apply Z.div_le_mono; lia).
    lia.
Qed.

Lemma textMessageLength_batches_witness :
  0 <= 11 <= 40 /\ 40 * 7 + 19 <= INT_MAX
  /\ ((exists batches,
         1 <= batches <= 2 + textWords 11 / 16
         /\ textMessageLength 1234567 11 = 18 + 17 * batches)
      /\ textMessageLength 1234567 11 <= textMessageLength 1234567 40).
Proof.
  assert (Hn : 0 <= 11 <= 40) by lia.
  assert (Hmax : 40 * 7 + 19 <= INT_MAX) by (unfold INT_MAX; lia).
  exact (conj Hn (conj Hmax
           (textMessageLength_batches 1234567 11 40 Hn Hmax))).
Defined.

(** X11.  Where the SYNC words are, after the preamble.  With [c] the
    count [2 * (address mod 8) + 2 + ceil (7 n / 20)] of the idle, address,
    data and terminating words: when [c] is not a multiple of 16, SYNC is
    at the indices that are multiples of 17 and nowhere else, so every
    batch starts with SYNC; when [c] is a multiple of 16, the transmission
    ends with 17 IDLE words, a batch without SYNC. *)
Theorem sync_positions address message :
  0 <= address < 2 ^ 21 ->
  strlen message * 7 + 19 <= INT_MAX ->
  let words := afterPreamble (encodeTransmission address message) in
  let c := 2 * (address mod 8) + 2 + textWords (strlen message) in
  (c mod 16 <> 0 ->
   forall i w, nth_error words i = Some w ->
     (w = SYNC <-> Z.of_nat i mod 17 = 0))
  /\ (c mod 16 = 0 ->
      skipn (List.length words - 17) words = repeat IDLE 17).
Proof.
  intros Ha Hmax. cbv zeta.
  pose proof (transmissionBody_length address message) as HL.
  pose proof (strlen_nonneg message) as Hs.
  pose proof (Z.mod_pos_bound address 8 ltac:(lia)) as Hm.
  assert (Ht : 0 <= textWords (strlen message))
    by (unfold textWords; apply Z.div_pos; lia).
  assert (Hiff :
    Z.of_nat (List.length (transmissionBody address message)) mod 17 = 0
    <-> (2 * (address mod 8) + 2 + textWords (strlen message)) mod 16 = 0).
  { rewrite HL. generalize dependent (textWords (strlen message)).
    generalize dependent (address mod 8). intros a _ t _ _. divlia. }
  split.
  - intros Hc i w Hi.
    pose proof (encodeTransmission_sync address message Ha Hmax
                  ltac:(tauto) i w Hi) as H.
    now rewrite Z.add_0_l in H.
  - intros Hc. apply Hiff in Hc.
    rewrite afterPreamble_encodeTransmission.
    assert (Hfit : 0 <= Z.of_nat (List.length (transmissionBody address message))
                   < 2 ^ 32).
    { rewrite HL. unfold textWords in *. unfold INT_MAX in Hmax.
      change (2 ^ 32) with 4294967296.
      clear Hiff Hc HL Ht.
      generalize dependent (strlen message).
      generalize dependent (address mod 8). intros. divlia. }
    rewrite (u32_small _ Hfit), paddingLength_value, Hc by lia.
    change (Z.to_nat (17 - 0)) with 17%nat.
    rewrite length_app, repeat_length.
    replace (List.length (transmissionBody address message) + 17 - 17)%nat
      with (List.length (transmissionBody address message)) by lia.
    now rewrite skipn_app, skipn_all, Nat.sub_diag.
Qed.

Lemma sync_positions_witness :
  0 <= 1234567 < 2 ^ 21
  /\ strlen "HELLO WORLD" * 7 + 19 <= INT_MAX
  /\ (let words :=
        afterPreamble (encodeTransmission 1234567 "HELLO WORLD") in
      let c := 2 * (1234567 mod 8) + 2 + textWords (strlen "HELLO WORLD") in
      (c mod 16 <> 0 ->
       forall i w, nth_error words i = Some w ->
         (w = SYNC <-> Z.of_nat i mod 17 = 0))
      /\ (c mod 16 = 0 ->
          skipn (List.length words - 17) words = repeat IDLE 17)).
Proof.
  assert (Ha : 0 <= 1234567 < 2 ^ 21) by (cbn; lia).
  assert (Hmax : strlen "HELLO WORLD" * 7 + 19 <= INT_MAX)
    by (vm_compute; discriminate).
  exact (conj Ha (conj Hmax (sync_positions 1234567 "HELLO WORLD" Ha Hmax))).
Defined.

(** ** The line loop of POCSAG_Transmit *)

(** X12.  A line [address text : message] followed by any of the line
    endings: when the text of the line holds no NUL, does not end in a
    line feed or a carriage return, and the line fits the buffer, the loop
    body converts the number [strtol] reads from the whole stripped line to
    32 bits, stops with the error [Address exceeds 21 bits] when that is
    above 2097151 (as it is for a negative number), and otherwise encodes
    the characters after the first colon for that address. *)
Theorem line_with_colon (strtol : string -> Z) prefix message e :
  lineContent (prefix ++ String ":" message)%string ->
  noColon prefix = true ->
  lineEnding e ->
  strlen ((prefix ++ String ":" message) ++ e)%string < LINE_SIZE ->
  let text := (prefix ++ String ":" message)%string in
  processLine strtol (Some (text ++ e)%string)
  = if 2097151 <? u32 (strtol text)
    then AddressExceeds (u32 (strtol text))
    else Transmit (u32 (strtol text)) message.
Proof.
  intros Hc Hp He Hlen. cbv zeta.
  apply (processLine_colon strtol _ _ prefix message Hlen); try assumption.
  - now apply stripLine_content.
  - reflexivity.
Qed.

Lemma line_with_colon_witness :
  lineContent ("1234567" ++ String ":" "HELLO WORLD")%string
  /\ noColon "1234567" = true
  /\ lineEnding (String carriageReturn (String newline EmptyString))
  /\ strlen (("1234567" ++ String ":" "HELLO WORLD")
             ++ String carriageReturn (String newline EmptyString))%string
     < LINE_SIZE
  /\ (let text := ("1234567" ++ String ":" "HELLO WORLD")%string in
      processLine (fun _ => 1234567)
        (Some (text ++ String carriageReturn (String newline EmptyString))%string)
      = if 2097151 <? u32 1234567
        then AddressExceeds (u32 1234567)
        else Transmit (u32 1234567) "HELLO WORLD").
Proof.
  assert (Hc : lineContent ("1234567" ++ String ":" "HELLO WORLD")%string)
    by (unfold lineContent; repeat split; discriminate).
  assert (Hp : noColon "1234567" = true) by reflexivity.
  assert (He : lineEnding (String carriageReturn (String newline EmptyString)))
    by (unfold lineEnding; tauto).
  assert (Hlen :
    strlen (("1234567" ++ String ":" "HELLO WORLD")
            ++ String carriageReturn (String newline EmptyString))%string
    < LINE_SIZE) by reflexivity.
  exact (conj Hc (conj Hp (conj He (conj Hlen
           (line_with_colon (fun _ => 1234567) "1234567" "HELLO WORLD"
              _ Hc Hp He Hlen))))).
Defined.

(** X13.  For a line that fits the buffer the loop body stops with
    [Malformed Line!] exactly when the line, read up to its first NUL,
    holds no colon and is not empty or a bare line ending. *)
Theorem malformed_iff (strtol : string -> Z) line :
  strlen line < LINE_SIZE ->
  processLine strtol (Some line) = MalformedLine
  <-> noColon (cstring line) = true /\ ~ lineEnding (cstring line).
Proof.
  intros Hlen. split.
  - intros H. cbn [processLine] in H.
    destruct (stripLine line) as [r | l] eqn:Hs.
    + destruct (stripLine_inl line r Hs) as [[-> _] | [-> _]]; discriminate.
    + destruct (stripLine_inr line l Hs) as (Hc & _ & e & He & E).
      split.
      * rewrite E, noColon_append, (noColon_ending e He), andb_true_r.
        destruct (noColon l) eqn:Hl; [reflexivity|].
        destruct (first_colon l Hl) as (p & m & Hpm & Hp).
        pose proof (processLine_colon strtol line l p m Hlen Hs Hpm Hp) as R.
        cbn [processLine] in R. rewrite Hs in R. rewrite R in H.
        destruct (2097151 <? u32 (strtol l)); discriminate.
      * intros Hend. rewrite (stripLine_ending line Hend) in Hs.
        discriminate.
  - intros [Hn Hend].
    destruct (stripLine line) as [r | l] eqn:Hs.
    + exfalso. apply Hend.
      destruct (stripLine_inl line r Hs) as [[_ ->] | [_ (e & He & _ & ->)]];
        [unfold lineEnding; tauto|assumption].
    + destruct (stripLine_inr line l Hs) as (_ & _ & e & He & E).
      rewrite E, noColon_append in Hn. apply andb_prop in Hn as [Hn _].
      now apply (processLine_noColon strtol line l).
Qed.

Lemma malformed_iff_witness :
  strlen (String "n" (String "o" (String newline EmptyString))) < LINE_SIZE
  /\ (processLine (fun _ => 0)
        (Some (String "n" (String "o" (String newline EmptyString))))
      = MalformedLine
      <-> noColon (cstring (String "n" (String "o" (String newline EmptyString))))
          = true
          /\ ~ lineEnding
                 (cstring (String "n" (String "o" (String newline EmptyString))))).
Proof.
  assert (Hlen :
    strlen (String "n" (String "o" (String newline EmptyString))) < LINE_SIZE)
    by reflexivity.
  exact (conj Hlen (malformed_iff (fun _ => 0) _ Hlen)).
Defined.

(** X14.  The loop returns as at the end of the input exactly when the
    line read is empty, and skips the line exactly when it holds a line
    feed, a carriage return, or a carriage return and a line feed and
    nothing else; the characters after a NUL do not count. *)
Theorem blank_lines (strtol : string -> Z) line :
  (processLine strtol (Some line) = EndOfInput <-> strlen line = 0)
  /\ (processLine strtol (Some line) = SkipLine
      <-> cstring line = String newline EmptyString
          \/ cstring line = String carriageReturn EmptyString
          \/ cstring line
             = String carriageReturn (String newline EmptyString)).
Proof.
  assert (Hz : strlen line = 0 <-> cstring line = EmptyString).
  { rewrite <- (strlen_cstring line). split.
    - intros H. apply strlen_zero; [apply cstring_idem|].
      now apply Z.eqb_eq.
    - now intros ->. }
  assert (Hend : lineEnding (cstring line)
                 <-> cstring line = EmptyString
                     \/ cstring line = String newline EmptyString
                     \/ cstring line = String carriageReturn EmptyString
                     \/ cstring line
                        = String carriageReturn (String newline EmptyString))
    by reflexivity.
  cbn [processLine].
  destruct (stripLine line) as [r | l] eqn:Hs.
  - destruct (stripLine_inl line r Hs) as [[-> E] | [-> (e & He & Hne & E)]].
    + rewrite Hz, E. split; [tauto|].
      split; [discriminate|]. intros [H | [H | H]]; discriminate.
    + rewrite Hz. split.
      * split; [discriminate|]. intros H. rewrite H in E. now subst e.
      * split; [|reflexivity]. intros _.
        rewrite <- E in He, Hne. apply Hend in He.
        destruct He as [H | H]; [contradiction|assumption].
  - assert (Hno : ~ lineEnding (cstring line)).
    { intros H. rewrite (stripLine_ending line H) in Hs. discriminate. }
    assert (Hres : forall r, r = EndOfInput \/ r = SkipLine ->
      match colonLoop (Z.to_nat LINE_SIZE) 0 l with
      | Some colonIndex =>
          if 2097151 <? u32 (strtol l) then AddressExceeds (u32 (strtol l))
          else Transmit (u32 (strtol l))
                 (advance (Z.to_nat (colonIndex + 1)) l)
      | None => MalformedLine
      end <> r).
    { intros r Hr.
      destruct (colonLoop (Z.to_nat LINE_SIZE) 0 l);
        [destruct (2097151 <? u32 (strtol l))|];
        destruct Hr as [-> | ->]; discriminate. }
    split; split; intros H.
    + exfalso. now apply (Hres EndOfInput); [left|].
    + exfalso. apply Hno, Hend. left. now apply Hz.
    + exfalso. now apply (Hres SkipLine); [right|].
    + exfalso. apply Hno, Hend. tauto.
Qed.

(** X15.  Whenever the loop body goes on to encode a message, for a line
    that fits the buffer: the address is a 21-bit value, the message is
    shorter than the line, and [encodeTransmission] stores exactly the
    [textMessageLength] words the buffer was allocated for. *)
Theorem transmit_buffer_exact (strtol : string -> Z) line address message :
  strlen line < LINE_SIZE ->
  processLine strtol (Some line) = Transmit address message ->
  0 <= address < 2 ^ 21
  /\ strlen message < strlen line
  /\ Z.of_nat (List.length (encodeTransmission address message))
     = textMessageLength address (strlen message).
Proof.
  intros Hlen H. cbn [processLine] in H.
  destruct (stripLine line) as [r | l] eqn:Hs.
  { destruct (stripLine_inl line r Hs) as [[-> _] | [-> _]]; discriminate. }
  pose proof (stripLine_length line l Hs) as Hle.
  destruct (stripLine_inr line l Hs) as (Hc & _ & _).
  destruct (noColon l) eqn:Hl.
  { pose proof (processLine_noColon strtol line l Hlen Hs Hl) as R.
    cbn [processLine] in R. rewrite Hs in R. rewrite R in H. discriminate. }
  destruct (first_colon l Hl) as (p & m & Hpm & Hp).
  pose proof (processLine_colon strtol line l p m Hlen Hs Hpm Hp) as R.
  cbn [processLine] in R. rewrite Hs in R. rewrite R in H.
  destruct (2097151 <? u32 (strtol l)) eqn:Ha; [discriminate|].
  injection H as <- <-.
  apply Z.ltb_ge in Ha. pose proof (u32_range (strtol l)) as Hr.
  assert (Hm : strlen m < strlen l).
  { rewrite Hpm in Hc. pose proof (strlen_nulFree _ Hc) as E.
    destruct (cstring_app _ _ Hc) as [_ Hc'].
    cbn [cstring] in Hc'. change (byte_of ":" =? 0) with false in Hc'.
    cbv iota in Hc'. injection Hc' as Hc'.
    rewrite Hpm, E, (strlen_nulFree m Hc'), string_app_length.
    cbn [String.length]. lia. }
  pose proof (strlen_nonneg m) as H0.
  refine (conj _ (conj _ _)).
  - change (2 ^ 21) with 2097152. lia.
  - lia.
  - rewrite encodeTransmission_count, textMessageLength_value;
      unfold INT_MAX, LINE_SIZE in *; lia.
Qed.

Lemma transmit_buffer_exact_witness :
  strlen (String "7" (String ":" (String "A" (String newline EmptyString))))
  < LINE_SIZE
  /\ processLine (fun _ => 7)
       (Some (String "7" (String ":" (String "A" (String newline EmptyString)))))
     = Transmit 7 "A"
  /\ (0 <= 7 < 2 ^ 21
      /\ strlen "A"
         < strlen (String "7" (String ":" (String "A"
                                             (String newline EmptyString))))
      /\ Z.of_nat (List.length (encodeTransmission 7 "A"))
         = textMessageLength 7 (strlen "A")).
Proof.
  assert (Hlen :
    strlen (String "7" (String ":" (String "A" (String newline EmptyString))))
    < LINE_SIZE) by reflexivity.
  assert (H : processLine (fun _ => 7)
                (Some (String "7" (String ":" (String "A"
                                                 (String newline EmptyString)))))
              = Transmit 7 "A") by reflexivity.
  exact (conj Hlen (conj H
           (transmit_buffer_exact (fun _ => 7) _ 7 "A" Hlen H))).
Defined.

(** ** The synthesis of a message *)

(** X16.  For a message of at most 16225 characters the encoding and the
    synthesis at the default rates (22050 samples per second, 512 baud)
    stay inside the two buffers the loop allocates and fill the PCM buffer
    exactly: with [n] the word count of [textMessageLength] it holds
    [n * 32 * 22050 / 512 * 2] bytes, and every 16-bit sample in it is one
    of the two levels, 16383 (bytes 255, 63) or -16383 (bytes 1, 192). *)
Theorem synthesize_succeeds address message :
  strlen message <= 16225 ->
  exists pcm,
    synthesize address message = Some pcm
    /\ Z.of_nat (List.length pcm)
       = textMessageLength address (strlen message) * 32 * 22050 / 512 * 2
    /\ forall k,
         0 <= 2 * k + 1 < Z.of_nat (List.length pcm) ->
         (nth_error pcm (Z.to_nat (2 * k)) = Some 255
          /\ nth_error pcm (Z.to_nat (2 * k + 1)) = Some 63)
         \/ (nth_error pcm (Z.to_nat (2 * k)) = Some 1
             /\ nth_error pcm (Z.to_nat (2 * k + 1)) = Some 192).
Proof.
  intros Hs.
  destruct (synthesize_bytes address message Hs) as (pcm & Hp & Hl & Hk).
  unfold SAMPLE_RATE, BAUD_RATE in *.
  exists pcm. refine (conj Hp (conj Hl _)).
  intros k Hk'. rewrite Hl in Hk'.
  destruct (Hk k ltac:(lia)) as [H0 H1]. cbv zeta in H0, H1.
  rewrite H0, H1.
  destruct (waveformSample_level (SYMRATE / 512)
              (encodeTransmission address message)
              (readIndex 22050 (2 * k))) as [-> | ->]; [left|right];
    split; reflexivity.
Qed.

Lemma synthesize_succeeds_witness :
  strlen "HELLO WORLD" <= 16225
  /\ exists pcm,
       synthesize 1234567 "HELLO WORLD" = Some pcm
       /\ Z.of_nat (List.length pcm)
          = textMessageLength 1234567 (strlen "HELLO WORLD")
            * 32 * 22050 / 512 * 2
       /\ forall k,
            0 <= 2 * k + 1 < Z.of_nat (List.length pcm) ->
            (nth_error pcm (Z.to_nat (2 * k)) = Some 255
             /\ nth_error pcm (Z.to_nat (2 * k + 1)) = Some 63)
            \/ (nth_error pcm (Z.to_nat (2 * k)) = Some 1
                /\ nth_error pcm (Z.to_nat (2 * k + 1)) = Some 192).
Proof.
  assert (Hs : strlen "HELLO WORLD" <= 16225) by (vm_compute; discriminate).
  exact (conj Hs (synthesize_succeeds 1234567 "HELLO WORLD" Hs)).
Defined.

(** X17.  For a message of at most 88 characters, which gives at most 69
    words, the PCM buffer holds the whole waveform resampled without any
    wrap-around: output sample [i] is the little-endian 16-bit value of
    the waveform sample [floor (i * 38400 / 22050)], where the waveform
    sends the 32 bits of each word most significant first, each for 75
    samples, with 16383 for a 0 bit and -16383 for a 1 bit. *)
Theorem synthesize_short_message address message :
  strlen message <= 88 ->
  exists pcm,
    synthesize address message = Some pcm
    /\ forall i,
         0 <= 2 * i + 1 < Z.of_nat (List.length pcm) ->
         let x := waveformSample 75 (encodeTransmission address message)
                    (i * 38400 / 22050) in
         nth_error pcm (Z.to_nat (2 * i)) = Some (fst (littleEndian16 x))
         /\ nth_error pcm (Z.to_nat (2 * i + 1))
            = Some (snd (littleEndian16 x)).
Proof.
  intros Hs.
  destruct (synthesize_bytes address message ltac:(lia))
    as (pcm & Hp & Hl & Hk).
  pose proof (strlen_nonneg message) as H0.
  pose proof (textMessageLength_bound address (strlen message) 88
                ltac:(lia) ltac:(lia)) as Hb.
  change (35 + 17 * ((16 + textWords 88) / 16)) with 69 in Hb.
  unfold SAMPLE_RATE, BAUD_RATE, SYMRATE in *.
  change (38400 / 512) with 75 in Hk.
  exists pcm. split; [exact Hp|].
  intros i Hi. rewrite Hl in Hi. cbv zeta.
  assert (Hi' : 0 <= i
                < textMessageLength address (strlen message) * 32 * 22050 / 512)
    by lia.
  destruct (Hk i Hi') as [E0 E1]. cbv zeta in E0, E1.
  assert (Hsmall : i * 38400 < 2 ^ 32).
  { change (2 ^ 32) with 4294967296.
    generalize dependent (textMessageLength address (strlen message)).
    intros n _ _ Hn _ Hi'. clear - Hn Hi'. divlia. }
  assert (Hidx : readIndex 22050 (2 * i) = i * 38400 / 22050).
  { unfold readIndex, SYMRATE.
    replace (2 * i / 2) with i by (rewrite Z.mul_comm, Z.div_mul; lia).
    rewrite u32_small by lia. reflexivity. }
  rewrite Hidx in E0, E1.
  rewrite <- bytes_littleEndian16. cbn [fst snd]. now split.
Qed.

Lemma synthesize_short_message_witness :
  strlen "HELLO WORLD" <= 88
  /\ exists pcm,
       synthesize 1234567 "HELLO WORLD" = Some pcm
       /\ forall i,
            0 <= 2 * i + 1 < Z.of_nat (List.length pcm) ->
            let x := waveformSample 75
                       (encodeTransmission 1234567 "HELLO WORLD")
                       (i * 38400 / 22050) in
            nth_error pcm (Z.to_nat (2 * i)) = Some (fst (littleEndian16 x))
            /\ nth_error pcm (Z.to_nat (2 * i + 1))
               = Some (snd (littleEndian16 x)).
Proof.
  assert (Hs : strlen "HELLO WORLD" <= 88) by (vm_compute; discriminate).
  exact (conj Hs (synthesize_short_message 1234567 "HELLO WORLD" Hs)).
Defined.

(** ** Reading a transmission back *)

(** X18.  A receiver gets back what was sent.  For every 21-bit address the
    address is recovered from the first word after SYNC that is not IDLE
    and the number of IDLE words before it, whatever the message; and when
    the message is made of characters 1 to 127, the address and the
    message are both recovered, so that two transmissions are equal only
    for the same address and message. *)
Theorem receiver_round_trip address message :
  0 <= address < 2 ^ 21 ->
  decodeAddress (afterPreamble (encodeTransmission address message))
  = Some address
  /\ (sevenBitSafe message = true ->
      decodeTransmission (encodeTransmission address message)
      = Some (address, message)
      /\ forall address' message',
           0 <= address' < 2 ^ 21 -> sevenBitSafe message' = true ->
           encodeTransmission address' message'
           = encodeTransmission address message ->
           address' = address /\ message' = message).
Proof.
  intros Ha. split; [now apply decodeAddress_encodeTransmission|].
  intros Hs.
  pose proof (decodeTransmission_encodeTransmission address message Ha Hs)
    as H.
  split; [exact H|].
  intros address' message' Ha' Hs' E.
  pose proof (decodeTransmission_encodeTransmission address' message' Ha' Hs')
    as H'.
  rewrite E, H in H'. apply (f_equal (fun o => match o with
                                              | Some p => p
                                              | None => (address, message)
                                              end)) in H'.
  apply pair_equal_spec in H' as [-> ->]. now split.
Qed.

Lemma receiver_round_trip_witness :
  0 <= 1234567 < 2 ^ 21
  /\ (decodeAddress (afterPreamble (encodeTransmission 1234567 "HELLO WORLD"))
      = Some 1234567
      /\ (sevenBitSafe "HELLO WORLD" = true ->
          decodeTransmission (encodeTransmission 1234567 "HELLO WORLD")
          = Some (1234567, "HELLO WORLD"%string)
          /\ forall address' message',
               0 <= address' < 2 ^ 21 -> sevenBitSafe message' = true ->
               encodeTransmission address' message'
               = encodeTransmission 1234567 "HELLO WORLD" ->
               address' = 1234567 /\ message' = "HELLO WORLD"%string)).
Proof.
  assert (Ha : 0 <= 1234567 < 2 ^ 21) by (cbn; lia).
  exact (conj Ha (receiver_round_trip 1234567 "HELLO WORLD" Ha)).
Defined.
